(** * java-decimal-format: the pattern compiler and the number renderer

    A shallow embedding of [src/DecimalFormat.ts] and [src/RoundingMode.ts].

    - JavaScript strings are sequences of UTF-16 code units ([jsstring]).
    - JavaScript numbers are IEEE-754 binary64 values, modelled by the
      Standard Library's [spec_float] at precision 53 and maximal exponent
      1024, with the arithmetic of [SpecFloat] (round to nearest, ties to
      even).  The [Math] functions and the [Number.prototype] methods the
      formatter calls are defined on that type from their ECMA-262
      descriptions.
    - A thrown exception is a value of type [exn]; a method that may throw
      returns a [completion]. *)

From Stdlib Require Import ZArith NArith List Bool Lia String Ascii.
From Stdlib Require Import Floats.SpecFloat.
Import ListNotations.

Local Open Scope Z_scope.

(** ** Strings *)

(** A code unit of a JavaScript string. *)
Definition codeunit := N.
Definition jsstring := list codeunit.

(** The code unit of an ASCII character, and the string of an ASCII literal. *)
Definition ch (a : ascii) : codeunit := N_of_ascii a.

Fixpoint lit (s : string) : jsstring :=
  match s with
  | EmptyString => []
  | String a s' => ch a :: lit s'
  end.

(** U+2030 PER MILLE SIGN and U+221E INFINITY. *)
Definition permille : codeunit := 8240%N.
Definition infinity_glyph : codeunit := 8734%N.

Definition isCh (a : ascii) (c : codeunit) : bool := N.eqb c (ch a).

(** [s.length] *)
Definition len (s : jsstring) : Z := Z.of_nat (List.length s).

(** ['0'.repeat(n)] for a count that is not negative, and the general
    [c.repeat(n)] of one code unit. *)
Definition repeat_unit (c : codeunit) (n : Z) : jsstring :=
  List.repeat c (Z.to_nat n).

(** [s.padStart(n, '0')] *)
Definition padStart0 (s : jsstring) (n : Z) : jsstring :=
  repeat_unit (ch "0") (n - len s) ++ s.

(** [s.endsWith('0')] *)
Definition endsWith0 (s : jsstring) : bool :=
  match rev s with
  | c :: _ => isCh "0" c
  | [] => false
  end.

(** [s.slice(0, -1)] *)
Definition dropLast (s : jsstring) : jsstring := removelast s.

(** [s.substring(a, b)] and [s.substring(a)] for indices within the string. *)
Definition substring (s : jsstring) (a b : nat) : jsstring :=
  firstn (b - a) (skipn a s).
Definition substringFrom (s : jsstring) (a : nat) : jsstring := skipn a s.

(** [s.indexOf(c)]: the first index of [c], if any. *)
Fixpoint indexOf (c : codeunit) (s : jsstring) : option nat :=
  match s with
  | [] => None
  | x :: s' => if N.eqb x c then Some O
               else option_map S (indexOf c s')
  end.

(** [s.lastIndexOf(c)]: the last index of [c], if any. *)
Fixpoint lastIndexOf (c : codeunit) (s : jsstring) : option nat :=
  match s with
  | [] => None
  | x :: s' =>
      match lastIndexOf c s' with
      | Some i => Some (S i)
      | None => if N.eqb x c then Some O else None
      end
  end.

(** The decimal digits of a natural number, most significant first. *)
Fixpoint digitsFuel (fuel : nat) (z : Z) (acc : jsstring) : jsstring :=
  match fuel with
  | O => acc
  | S fuel' =>
      let acc' := (48 + Z.to_N (z mod 10))%N :: acc in
      if z <? 10 then acc' else digitsFuel fuel' (z / 10) acc'
  end.

Definition digitsOfZ (z : Z) : jsstring :=
  digitsFuel (S (Z.to_nat (Z.log2 z))) z [].

(** The value of a string of decimal digits. *)
Definition isDigit (c : codeunit) : bool := (48 <=? c)%N && (c <=? 57)%N.

Definition valueOfDigits (s : jsstring) : Z :=
  fold_left (fun acc c => 10 * acc + (Z.of_N c - 48)) s 0.

(** ** Exceptions *)

(** The formatter throws [new Error(message)]; [toFixed] and [repeat] throw a
    [RangeError]. *)
Inductive exn :=
| Error (message : string)
| RangeError.

Inductive completion (A : Type) :=
| Return (a : A)
| Throw (e : exn).
Arguments Return {A} a.
Arguments Throw {A} e.

Definition bind {A B : Type} (c : completion A) (k : A -> completion B)
  : completion B :=
  match c with
  | Return a => k a
  | Throw e => Throw e
  end.

Notation "x <- c ;; k" := (bind c (fun x => k))
  (at level 61, c at next level, right associativity).

(** ** Numbers *)

Module Num.

Definition number := spec_float.

Definition prec : Z := 53.
Definition emax : Z := 1024.

Definition NaN : number := S754_nan.
Definition posInfinity : number := S754_infinity false.
Definition negInfinity : number := S754_infinity true.
Definition posZero : number := S754_zero false.
Definition negZero : number := S754_zero true.

Definition mul : number -> number -> number := SFmul prec emax.
Definition div : number -> number -> number := SFdiv prec emax.
Definition add : number -> number -> number := SFadd prec emax.
Definition sub : number -> number -> number := SFsub prec emax.
Definition abs : number -> number := SFabs.
Definition neg : number -> number := SFopp.

(** [x < y], [x > y], [x >= y], [x === y], [x !== y] *)
Definition lt (x y : number) : bool := SFltb x y.
Definition gt (x y : number) : bool := SFltb y x.
Definition ge (x y : number) : bool := SFleb y x.
Definition seq (x y : number) : bool := SFeqb x y.
Definition sne (x y : number) : bool := negb (SFeqb x y).

Definition isNaN (x : number) : bool :=
  match x with S754_nan => true | _ => false end.

Definition isFinite (x : number) : bool :=
  match x with
  | S754_nan | S754_infinity _ => false
  | _ => true
  end.

(** The number nearest to an integer, and to the ratio of two positive
    integers, with the given sign. *)
Definition ofZ (z : Z) : number := binary_normalize prec emax z 0 false.

Definition ofRatio (s : bool) (p q : positive) : number :=
  div (S754_finite s p 0) (S754_finite false q 0).

(** The number nearest to [d * 10^k], signed by [s]; [d] is not negative. *)
Definition ofDecimal (s : bool) (d : Z) (k : Z) : number :=
  match d with
  | Zpos p =>
      if 0 <=? k then ofRatio s (p * Z.to_pos (10 ^ k)) 1
      else ofRatio s p (Z.to_pos (10 ^ (- k)))
  | _ => S754_zero s
  end.

Definition one : number := ofZ 1.
Definition minusOne : number := ofZ (-1).
Definition two : number := ofZ 2.
Definition half : number := ofDecimal false 5 (-1).
(** The literal [0.0000000001]. *)
Definition epsilon : number := ofDecimal false 1 (-10).

(** [Math.floor], [Math.ceil] and [Math.round] on the exact value
    [(-1)^s * m * 2^e].  A number with [0 <= e] is an integer; a zero result
    keeps the sign of the argument. *)
Definition floor (x : number) : number :=
  match x with
  | S754_finite s m e =>
      if 0 <=? e then x
      else binary_normalize prec emax
             (Z.shiftr (cond_Zopp s (Zpos m)) (- e)) 0 s
  | _ => x
  end.

Definition ceil (x : number) : number :=
  match x with
  | S754_finite s m e =>
      if 0 <=? e then x
      else binary_normalize prec emax
             (- Z.shiftr (cond_Zopp (negb s) (Zpos m)) (- e)) 0 s
  | _ => x
  end.

(** The nearest integer, a tie going towards positive infinity. *)
Definition round (x : number) : number :=
  match x with
  | S754_finite s m e =>
      if 0 <=? e then x
      else binary_normalize prec emax
             (Z.shiftr (cond_Zopp s (Zpos m) + 2 ^ (- e - 1)) (- e)) 0 s
  | _ => x
  end.

(** [n % d]: the remainder of the truncating division, computed exactly; it
    has the sign of the dividend. *)
Definition rem (n d : number) : number :=
  match n, d with
  | S754_nan, _ | _, S754_nan => NaN
  | S754_infinity _, _ => NaN
  | _, S754_zero _ => NaN
  | _, S754_infinity _ => n
  | S754_zero _, _ => n
  | S754_finite sn mn en, S754_finite _ md ed =>
      let e := Z.min en ed in
      let a := Zpos mn * 2 ^ (en - e) in
      let b := Zpos md * 2 ^ (ed - e) in
      binary_normalize prec emax (cond_Zopp sn (a mod b)) e sn
  end.

(** [Math.pow(10, n)] for an integer [n].  ECMA-262 leaves the accuracy of
    [Math.pow] to the implementation; the model takes the correctly rounded
    power, which is the exact one for [0 <= n <= 22]. *)
Definition pow10 (n : Z) : number :=
  if 400 <? n then posInfinity
  else if n <? -400 then posZero
  else ofDecimal false 1 n.

(** [Math.pow(10, y)] at a number [y] that is an integer, a NaN or an
    infinity (the formatter applies it to the result of [Math.floor]). *)
Definition pow10n (y : number) : number :=
  match y with
  | S754_nan => NaN
  | S754_infinity false => posInfinity
  | S754_infinity true => posZero
  | S754_zero _ => pow10 0
  | S754_finite s m e =>
      if 0 <=? e then pow10 (cond_Zopp s (Zpos m * 2 ^ e))
      else pow10 (Z.quot (cond_Zopp s (Zpos m)) (2 ^ (- e)))
  end.

(** *** Number::toString

    The exact value of a finite number that is not zero is the fraction
    [fst (fraction m e) / snd (fraction m e)]. *)
Definition fraction (m : positive) (e : Z) : Z * Z :=
  if 0 <=? e then (Zpos m * 2 ^ e, 1) else (Zpos m, 2 ^ (- e)).

(** The least [j >= 1] with [q <= p * 10^j], for [p < q]. *)
Fixpoint leastShift (fuel : nat) (p q j : Z) : Z :=
  match fuel with
  | O => j
  | S fuel' => if q <=? p * 10 then j else leastShift fuel' (p * 10) q (j + 1)
  end.

(** The integer [n] with [10^(n-1) <= p/q < 10^n]. *)
Definition decimalExponent (p q : Z) : Z :=
  if q <=? p then len (digitsOfZ (p / q))
  else 1 - leastShift (S (Z.to_nat (Z.log2 q))) p q 1.

(** The [k]-digit decimals next to [p/q]: with [t = n - k], the integers
    [lo = floor (p/q / 10^t)] and [lo + 1]; the result is the one that reads
    back as [x], the closer one when both do, the even one in a tie.  A
    candidate [10^k] is the one-digit-shorter [10^(k-1)] at exponent
    [n + 1]. *)
Definition candidate (x : number) (p q n k : Z) : option (Z * Z) :=
  let t := n - k in
  let P := if 0 <=? t then p else p * 10 ^ (- t) in
  let Q := if 0 <=? t then q * 10 ^ t else q in
  let lo := P / Q in
  let hi := lo + 1 in
  let okLo := seq (ofDecimal false lo t) x in
  let okHi := seq (ofDecimal false hi t) x in
  let up := if hi =? 10 ^ k then (10 ^ (k - 1), n + 1) else (hi, n) in
  match okLo, okHi with
  | true, true =>
      match 2 * (P mod Q) ?= Q with
      | Lt => Some (lo, n)
      | Gt => Some up
      | Eq => Some (if Z.even lo then (lo, n) else up)
      end
  | true, false => Some (lo, n)
  | false, true => Some up
  | false, false => None
  end.

(** The shortest decimal that reads back as [x]: the least number of
    digits [k], tried from [k] upwards. *)
Fixpoint shortest (fuel : nat) (x : number) (p q n k : Z) : Z * Z :=
  match fuel with
  | O => (p * 10 ^ (k - n) / q, n)
  | S fuel' =>
      match candidate x p q n k with
      | Some r => r
      | None => shortest fuel' x p q n (k + 1)
      end
  end.

Definition toStringFinite (m : positive) (e : Z) : jsstring :=
  let '(p, q) := fraction m e in
  let '(s, n) := shortest 17 (S754_finite false m e) p q (decimalExponent p q) 1 in
  let ds := digitsOfZ s in
  let k := len ds in
  if (k <=? n) && (n <=? 21) then ds ++ repeat_unit (ch "0") (n - k)
  else if (0 <? n) && (n <=? 21) then
    firstn (Z.to_nat n) ds ++ lit "." ++ skipn (Z.to_nat n) ds
  else if (-6 <? n) && (n <=? 0) then
    lit "0." ++ repeat_unit (ch "0") (- n) ++ ds
  else
    let c := if n - 1 <? 0 then lit "-" else lit "+" in
    let ex := digitsOfZ (Z.abs (n - 1)) in
    if k =? 1 then ds ++ lit "e" ++ c ++ ex
    else firstn 1 ds ++ lit "." ++ skipn 1 ds ++ lit "e" ++ c ++ ex.

(** [x.toString()] *)
Definition toString (x : number) : jsstring :=
  match x with
  | S754_nan => lit "NaN"
  | S754_zero _ => lit "0"
  | S754_infinity false => lit "Infinity"
  | S754_infinity true => lit "-Infinity"
  | S754_finite false m e => toStringFinite m e
  | S754_finite true m e => lit "-" ++ toStringFinite m e
  end.

(** *** Number.prototype.toFixed

    [x.toFixed(f)] for an integer [f]: a [RangeError] outside [0..100]; the
    [toString] of a number that is not finite or is at least [10^21]; else
    the integer [n] nearest to [x * 10^f], the larger one in a tie, written
    with [f] digits after the point. *)
Definition toFixed (x : number) (f : Z) : completion jsstring :=
  if (f <? 0) || (100 <? f) then Throw RangeError
  else
    match x with
    | S754_nan | S754_infinity _ => Return (toString x)
    | S754_zero _ =>
        Return (if f =? 0 then lit "0"
                else lit "0." ++ repeat_unit (ch "0") f)
    | S754_finite s m e =>
        let sg := if s then lit "-" else [] in
        let '(p, q) := fraction m e in
        if 10 ^ 21 * q <=? p then Return (sg ++ toStringFinite m e)
        else
          let n := (2 * p * 10 ^ f + q) / (2 * q) in
          let ds := digitsOfZ n in
          if f =? 0 then Return (sg ++ ds)
          else
            let ds' := if len ds <=? f then padStart0 ds (f + 1) else ds in
            let a := Z.to_nat (len ds' - f) in
            Return (sg ++ firstn a ds' ++ lit "." ++ skipn a ds')
    end.

(** *** parseFloat

    The longest prefix of the string, after its leading white space, that is
    a [StrDecimalLiteral]; [NaN] when there is none.  The value is the number
    nearest to the decimal. *)
Definition isWhiteSpace (c : codeunit) : bool :=
  ((9 <=? c) && (c <=? 13) || (c =? 32) || (c =? 160) || (c =? 5760)
   || (8192 <=? c) && (c <=? 8202) || (c =? 8232) || (c =? 8233)
   || (c =? 8239) || (c =? 8287) || (c =? 12288) || (c =? 65279))%N.

Fixpoint trimStart (s : jsstring) : jsstring :=
  match s with
  | c :: s' => if isWhiteSpace c then trimStart s' else s
  | [] => []
  end.

(** The leading decimal digits of a string and the rest of it. *)
Fixpoint spanDigits (s : jsstring) : jsstring * jsstring :=
  match s with
  | c :: s' =>
      if isDigit c then let '(d, r) := spanDigits s' in (c :: d, r)
      else ([], s)
  | [] => ([], [])
  end.

Fixpoint startsWith (p s : jsstring) : bool :=
  match p, s with
  | [], _ => true
  | a :: p', b :: s' => N.eqb a b && startsWith p' s'
  | _ :: _, [] => false
  end.

(** The value of an [ExponentPart] at the head of [s], or 0. *)
Definition exponentPart (s : jsstring) : Z :=
  match s with
  | c :: s' =>
      if isCh "e" c || isCh "E" c then
        match s' with
        | d :: s'' =>
            if isCh "-" d then
              match fst (spanDigits s'') with
              | [] => 0
              | ds => - valueOfDigits ds
              end
            else if isCh "+" d then valueOfDigits (fst (spanDigits s''))
            else valueOfDigits (fst (spanDigits s'))
        | [] => 0
        end
      else 0
  | [] => 0
  end.

Definition parseUnsigned (sg : bool) (s : jsstring) : number :=
  if startsWith (lit "Infinity") s then S754_infinity sg
  else
    let '(ip, r) := spanDigits s in
    let '(fp, r') :=
      match r with
      | c :: r1 => if isCh "." c then spanDigits r1 else ([], r)
      | [] => ([], r)
      end in
    match ip ++ fp with
    | [] => NaN
    | ds => ofDecimal sg (valueOfDigits ds) (exponentPart r' - len fp)
    end.

Definition parseFloat (s : jsstring) : number :=
  match trimStart s with
  | c :: s' =>
      if isCh "-" c then parseUnsigned true s'
      else if isCh "+" c then parseUnsigned false s'
      else parseUnsigned false (c :: s')
  | [] => NaN
  end.

End Num.

Import Num.

(** ** RoundingMode.ts *)

Inductive RoundingMode :=
| UP | DOWN | CEILING | FLOOR | HALF_UP | HALF_DOWN | HALF_EVEN | UNNECESSARY.

(** ** The pattern compiler *)

(** The object [parseSubpattern] returns. *)
Module Sub.
Record t := mk {
  prefix : jsstring;
  suffix : jsstring;
  minIntegerDigits : Z;
  maxIntegerDigits : Z;
  minFractionDigits : Z;
  maxFractionDigits : Z;
  groupingSize : Z;
  groupingUsed : bool;
  decimalSeparatorAlwaysShown : bool;
  useExponentialNotation : bool;
  minExponentDigits : Z;
  multiplier : number
}.
End Sub.

(** [interface ParsedPattern].  The digit counts and the grouping size are
    integers; the multiplier is any number. *)
Record ParsedPattern := {
  positivePrefix : jsstring;
  positiveSuffix : jsstring;
  negativePrefix : jsstring;
  negativeSuffix : jsstring;
  minIntegerDigits : Z;
  maxIntegerDigits : Z;
  minFractionDigits : Z;
  maxFractionDigits : Z;
  groupingSize : Z;
  groupingUsed : bool;
  decimalSeparatorAlwaysShown : bool;
  useExponentialNotation : bool;
  minExponentDigits : Z;
  multiplier : number
}.

Definition MAX_SAFE_INTEGER : Z := 9007199254740991.

(** [findUnquotedSemicolon]: the index of the first [;] outside quotes. *)
Fixpoint findUnquotedSemicolonFrom (inQuote : bool) (i : nat) (p : jsstring)
  : option nat :=
  match p with
  | [] => None
  | c :: p' =>
      if isCh "'" c then findUnquotedSemicolonFrom (negb inQuote) (S i) p'
      else if isCh ";" c && negb inQuote then Some i
      else findUnquotedSemicolonFrom inQuote (S i) p'
  end.

Definition findUnquotedSemicolon (p : jsstring) : option nat :=
  findUnquotedSemicolonFrom false O p.

(** The scanner of [parseSubpattern]: its four states and its variables. *)
Inductive scanState := InPrefix | InNumber | InSuffix | InExponent.

Record scanner := {
  scPrefix : jsstring;
  scSuffix : jsstring;
  scNumberPart : jsstring;
  scUseExponentialNotation : bool;
  scMinExponentDigits : Z;
  scMultiplier : number;
  scState : scanState;
  scInQuote : bool
}.

Definition scanInit : scanner :=
  {| scPrefix := []; scSuffix := []; scNumberPart := [];
     scUseExponentialNotation := false; scMinExponentDigits := 0;
     scMultiplier := ofZ 1; scState := InPrefix; scInQuote := false |}.

Definition isDigitChar (c : codeunit) : bool :=
  isCh "0" c || isCh "#" c || isCh "," c || isCh "." c.

(** [%] and the per-mille sign set the multiplier; any other character keeps
    it. *)
Definition scaleOf (c : codeunit) (m : number) : number :=
  if isCh "%" c then ofZ 100
  else if N.eqb c permille then ofZ 1000
  else m.

(** One turn of the [while] loop, on the character [c]. *)
Definition scanStep (sc : scanner) (c : codeunit) : scanner :=
  let '(Build_scanner pre suf num useE minE mult st q) := sc in
  if isCh "'" c then Build_scanner pre suf num useE minE mult st (negb q)
  else if q then
    match st with
    | InPrefix => Build_scanner (pre ++ [c]) suf num useE minE mult st q
    | InSuffix | InExponent =>
        Build_scanner pre (suf ++ [c]) num useE minE mult st q
    | InNumber => sc
    end
  else
    let st :=
      match st with
      | InPrefix => if isDigitChar c then InNumber else InPrefix
      | _ => st
      end in
    match st with
    | InPrefix =>
        Build_scanner (pre ++ [c]) suf num useE minE (scaleOf c mult) st q
    | InNumber =>
        if isDigitChar c then
          Build_scanner pre suf (num ++ [c]) useE minE mult st q
        else if isCh "E" c || isCh "e" c then
          Build_scanner pre suf num true minE mult InExponent q
        else
          Build_scanner pre (suf ++ [c]) num useE minE (scaleOf c mult)
            InSuffix q
    | InExponent =>
        if isCh "0" c then
          Build_scanner pre suf num useE (minE + 1) mult st q
        else Build_scanner pre (suf ++ [c]) num useE minE mult InSuffix q
    | InSuffix => Build_scanner pre (suf ++ [c]) num useE minE mult st q
    end.

Definition scan (subpattern : jsstring) : scanner :=
  fold_left scanStep subpattern scanInit.

(** The number of occurrences of a character. *)
Definition countChar (a : ascii) (s : jsstring) : Z :=
  len (filter (isCh a) s).

(** [parseSubpattern] *)
Definition parseSubpattern (subpattern : jsstring) : Sub.t :=
  let sc := scan subpattern in
  let numberPart := scNumberPart sc in
  match numberPart with
  | [] =>
      Sub.mk (scPrefix sc) (scSuffix sc) 1 MAX_SAFE_INTEGER 0 0 0 false false
        (scUseExponentialNotation sc) (scMinExponentDigits sc)
        (scMultiplier sc)
  | _ :: _ =>
      let '(integerPart, fractionPart, alwaysShown) :=
        match indexOf (ch ".") numberPart with
        | Some dotIndex =>
            let fractionPart := substringFrom numberPart (S dotIndex) in
            (substring numberPart 0 dotIndex, fractionPart,
             len fractionPart =? 0)
        | None => (numberPart, [], false)
        end in
      let '(groupingUsed, groupingSize) :=
        match lastIndexOf (ch ",") integerPart with
        | Some lastComma =>
            (true, len integerPart - Z.of_nat lastComma - 1)
        | None => (false, 0)
        end in
      let zeroCount := countChar "0" integerPart in
      let hashCount := countChar "#" integerPart in
      Sub.mk (scPrefix sc) (scSuffix sc)
        zeroCount (zeroCount + hashCount)
        (countChar "0" fractionPart)
        (countChar "0" fractionPart + countChar "#" fractionPart)
        groupingSize groupingUsed alwaysShown
        (scUseExponentialNotation sc) (scMinExponentDigits sc)
        (scMultiplier sc)
  end.

(** [parsePattern]: the negative sub-pattern is compiled when it is present
    and not empty; otherwise it is the positive one behind a minus sign. *)
Definition parsePattern (pattern : jsstring) : ParsedPattern :=
  let semicolonIndex := findUnquotedSemicolon pattern in
  let positivePattern :=
    match semicolonIndex with
    | Some i => substring pattern 0 i
    | None => pattern
    end in
  let negativePattern :=
    match semicolonIndex with
    | Some i => Some (substringFrom pattern (S i))
    | None => None
    end in
  let positive := parseSubpattern positivePattern in
  let negative :=
    match negativePattern with
    | Some (c :: n) => parseSubpattern (c :: n)
    | _ =>
        Sub.mk (lit "-" ++ Sub.prefix positive) (Sub.suffix positive)
          (Sub.minIntegerDigits positive) (Sub.maxIntegerDigits positive)
          (Sub.minFractionDigits positive) (Sub.maxFractionDigits positive)
          (Sub.groupingSize positive) (Sub.groupingUsed positive)
          (Sub.decimalSeparatorAlwaysShown positive)
          (Sub.useExponentialNotation positive)
          (Sub.minExponentDigits positive) (Sub.multiplier positive)
    end in
  {| positivePrefix := Sub.prefix positive;
     positiveSuffix := Sub.suffix positive;
     negativePrefix := Sub.prefix negative;
     negativeSuffix := Sub.suffix negative;
     minIntegerDigits := Sub.minIntegerDigits positive;
     maxIntegerDigits := Sub.maxIntegerDigits positive;
     minFractionDigits := Sub.minFractionDigits positive;
     maxFractionDigits := Sub.maxFractionDigits positive;
     groupingSize := Sub.groupingSize positive;
     groupingUsed := Sub.groupingUsed positive;
     decimalSeparatorAlwaysShown := Sub.decimalSeparatorAlwaysShown positive;
     useExponentialNotation := Sub.useExponentialNotation positive;
     minExponentDigits := Sub.minExponentDigits positive;
     multiplier := Sub.multiplier positive |}.

(** ** The formatter instance *)

Record DecimalFormat := {
  pattern : jsstring;
  parsedPattern : ParsedPattern;
  roundingMode : RoundingMode
}.

Definition defaultPattern : jsstring := lit "#,##0.###".

(** [new DecimalFormat(pattern?)]: an absent or empty argument keeps the
    default pattern. *)
Definition new (arg : option jsstring) : DecimalFormat :=
  let p :=
    match arg with
    | Some (c :: r) => c :: r
    | _ => defaultPattern
    end in
  {| pattern := p; parsedPattern := parsePattern p;
     roundingMode := HALF_EVEN |}.

(** ** The number renderer *)

(** [applyGrouping] *)
Fixpoint groupFrom (i : Z) (groupSize : Z) (reversed : jsstring)
  (grouped : jsstring) : jsstring :=
  match reversed with
  | [] => grouped
  | c :: r =>
      let grouped :=
        if (0 <? i) && (i mod groupSize =? 0) then grouped ++ [ch ","]
        else grouped in
      groupFrom (i + 1) groupSize r (grouped ++ [c])
  end.

Definition applyGrouping (integerStr : jsstring) (groupSize : Z) : jsstring :=
  rev (groupFrom 0 groupSize (rev integerStr) []).

(** The loop that removes trailing zeros down to [minDigits] characters;
    it runs at most [length s] times. *)
Fixpoint trimZerosFuel (fuel : nat) (minDigits : Z) (s : jsstring)
  : jsstring :=
  match fuel with
  | O => s
  | S fuel' =>
      if (minDigits <? len s) && endsWith0 s
      then trimZerosFuel fuel' minDigits (dropLast s)
      else s
  end.

Definition trimZeros (minDigits : Z) (s : jsstring) : jsstring :=
  trimZerosFuel (List.length s) minDigits s.

(** [s.split('.')] *)
Fixpoint splitDot (s : jsstring) : list jsstring :=
  match s with
  | [] => [[]]
  | c :: s' =>
      if isCh "." c then [] :: splitDot s'
      else
        match splitDot s' with
        | h :: t => (c :: h) :: t
        | [] => [[c]]
        end
  end.

Definition str_eqb (a b : jsstring) : bool :=
  if list_eq_dec N.eq_dec a b then true else false.

(** ['0'.repeat(n)], which throws on a negative count. *)
Definition repeat0 (n : Z) : completion jsstring :=
  if n <? 0 then Throw RangeError else Return (repeat_unit (ch "0") n).

Definition zero : number := posZero.

Section Renderer.

(** [Math.log10], whose accuracy ECMA-262 leaves to the implementation. *)
Variable log10 : number -> number.

Variable this : DecimalFormat.

Local Abbreviation rules := (parsedPattern this).

(** [roundInteger] *)
Definition roundInteger (value : number) : completion number :=
  let sign := if lt value zero then minusOne else one in
  let absValue := abs value in
  match roundingMode this with
  | UP => Return (mul sign (ceil absValue))
  | DOWN => Return (mul sign (floor absValue))
  | CEILING => Return (ceil value)
  | FLOOR => Return (floor value)
  | HALF_UP => Return (mul sign (round absValue))
  | HALF_DOWN =>
      Return (mul sign
                (if seq (floor (add absValue half)) (ceil (sub absValue half))
                 then floor absValue else round absValue))
  | HALF_EVEN =>
      let floored := floor absValue in
      let fraction := sub absValue floored in
      let result :=
        if gt fraction half then add floored one
        else if lt fraction half then floored
        else if seq (rem floored two) zero then floored
             else add floored one in
      Return (mul sign result)
  | UNNECESSARY =>
      if sne value (floor value) then Throw (Error "Rounding necessary")
      else Return value
  end.

(** [round]: the rounded multiple of [10^-scale], before the value is
    divided back ([roundedScaled]). *)
Definition roundScaled (sign scaled : number) : completion number :=
  match roundingMode this with
  | UP => Return (ceil scaled)
  | DOWN => Return (floor scaled)
  | CEILING => Return (if gt sign zero then ceil scaled else floor scaled)
  | FLOOR => Return (if gt sign zero then floor scaled else ceil scaled)
  | HALF_UP => Return (round (add scaled epsilon))
  | HALF_DOWN =>
      let floored := floor scaled in
      let fraction := sub scaled floored in
      Return (if gt fraction half then add floored one else floored)
  | HALF_EVEN =>
      let floored := floor scaled in
      let fraction := sub scaled floored in
      Return (if gt fraction (add half epsilon) then add floored one
              else if lt fraction (sub half epsilon) then floored
              else if seq (rem floored two) zero then floored
                   else add floored one)
  | UNNECESSARY =>
      if gt (abs (sub scaled (round scaled))) epsilon
      then Throw (Error "Rounding necessary")
      else Return (round scaled)
  end.

Definition round (value : number) (scale : Z) : completion number :=
  if scale =? 0 then roundInteger value
  else
    let factor := pow10 scale in
    let sign := if ge value zero then one else minusOne in
    let absValue := abs value in
    let scaled := mul absValue factor in
    roundedScaled <- roundScaled sign scaled ;;
    let result := div roundedScaled factor in
    fixed <- toFixed result scale ;;
    Return (mul sign (parseFloat fixed)).

(** [formatStandard].  Its local variables [scaled], [integerPart] and
    [fractionPart], as first computed from the rounded value: *)
Definition scaledOf (rounded : number) : number :=
  Num.round (mul (abs rounded) (pow10 (maxFractionDigits rules))).

Definition integerPartOf (rounded : number) : jsstring :=
  toString (floor (div (scaledOf rounded) (pow10 (maxFractionDigits rules)))).

Definition fractionPartOf (rounded : number) : jsstring :=
  padStart0 (toString (rem (scaledOf rounded)
                         (pow10 (maxFractionDigits rules))))
    (maxFractionDigits rules).

Definition formatStandard (value : number) : completion jsstring :=
  rounded <- round value (maxFractionDigits rules) ;;
  let integerPart := integerPartOf rounded in
  let fractionPart := fractionPartOf rounded in
  let integerPart :=
    if (minIntegerDigits rules =? 0) && str_eqb integerPart (lit "0")
    then []
    else if len integerPart <? minIntegerDigits rules
    then repeat_unit (ch "0") (minIntegerDigits rules - len integerPart)
           ++ integerPart
    else integerPart in
  let integerPart :=
    if groupingUsed rules && (0 <? groupingSize rules)
    then applyGrouping integerPart (groupingSize rules)
    else integerPart in
  let fractionPart := trimZeros (minFractionDigits rules) fractionPart in
  if (0 <? len fractionPart) || decimalSeparatorAlwaysShown rules
  then Return (integerPart ++ lit "." ++ fractionPart)
  else Return integerPart.

(** [formatExponential] *)
Definition formatExponential (value : number) : completion jsstring :=
  if seq value zero then
    zeros <- repeat0 (minIntegerDigits rules) ;;
    expZeros <- repeat0 (minExponentDigits rules) ;;
    Return (zeros
              ++ (if 0 <? maxFractionDigits rules then lit "." else [])
              ++ lit "E" ++ expZeros)
  else
    let exponent := floor (log10 value) in
    let mantissa := div value (pow10n exponent) in
    rounded <- round mantissa (maxFractionDigits rules) ;;
    mantissaStr <- toFixed rounded (maxFractionDigits rules) ;;
    let parts := splitDot mantissaStr in
    let intPart := nth 0 parts [] in
    let fracPart := nth 1 parts [] in
    let fracPart := trimZeros (minFractionDigits rules) fracPart in
    let result :=
      if 0 <? len fracPart then intPart ++ lit "." ++ fracPart
      else intPart in
    let expStr :=
      padStart0 (toString (abs exponent)) (minExponentDigits rules) in
    Return (result ++ lit "E"
              ++ (if ge exponent zero then [] else lit "-") ++ expStr).

(** The local variable [formatted] of [format]: the number body, computed
    from the scaled value. *)
Definition formatted (value : number) : completion jsstring :=
  if useExponentialNotation rules then formatExponential (abs value)
  else formatStandard value.

(** [format], on a number.  (A string argument is first turned into a
    number by [parseFloat].) *)
Definition format (num : number) : completion jsstring :=
  if isNaN num then Throw (Error "Cannot format NaN")
  else if negb (isFinite num) then
    Return (if gt num zero then [infinity_glyph]
            else lit "-" ++ [infinity_glyph])
  else
    let value := mul num (multiplier rules) in
    let isNegative := lt value zero && sne value zero in
    let prefix :=
      if isNegative then negativePrefix rules else positivePrefix rules in
    let suffix :=
      if isNegative then negativeSuffix rules else positiveSuffix rules in
    formatted <- formatted value ;;
    Return (prefix ++ formatted ++ suffix).

End Renderer.

(** ** The public methods

    A method takes the instance and gives back its completion and the
    instance as the call leaves it. *)
Module API.

Definition method (A : Type) : Type :=
  DecimalFormat -> completion A * DecimalFormat.

Section Methods.

Variable log10 : number -> number.

Definition format (num : number) : method jsstring :=
  fun this => (format log10 this num, this).

Definition applyPattern (p : jsstring) : method unit :=
  fun this =>
    (Return tt,
     {| pattern := p; parsedPattern := parsePattern p;
        roundingMode := roundingMode this |}).

Definition toPattern : method jsstring :=
  fun this => (Return (pattern this), this).

Definition setRoundingMode (mode : RoundingMode) : method unit :=
  fun this =>
    (Return tt,
     {| pattern := pattern this; parsedPattern := parsedPattern this;
        roundingMode := mode |}).

Definition getRoundingMode : method RoundingMode :=
  fun this => (Return (roundingMode this), this).

Definition getMinimumIntegerDigits : method Z :=
  fun this => (Return (minIntegerDigits (parsedPattern this)), this).

Definition getMaximumIntegerDigits : method Z :=
  fun this => (Return (maxIntegerDigits (parsedPattern this)), this).

Definition getMinimumFractionDigits : method Z :=
  fun this => (Return (minFractionDigits (parsedPattern this)), this).

Definition getMaximumFractionDigits : method Z :=
  fun this => (Return (maxFractionDigits (parsedPattern this)), this).

Definition getPositivePrefix : method jsstring :=
  fun this => (Return (positivePrefix (parsedPattern this)), this).

Definition getPositiveSuffix : method jsstring :=
  fun this => (Return (positiveSuffix (parsedPattern this)), this).

Definition getNegativePrefix : method jsstring :=
  fun this => (Return (negativePrefix (parsedPattern this)), this).

Definition getNegativeSuffix : method jsstring :=
  fun this => (Return (negativeSuffix (parsedPattern this)), this).

Definition getMultiplier : method number :=
  fun this => (Return (multiplier (parsedPattern this)), this).

End Methods.

End API.

(** ** An instance of [Math.log10]

    For the examples in exponential notation: the integer part of the
    logarithm is exact and its fraction is developed to 64 binary digits by
    repeated squaring, in fixed point with 256 fractional bits. *)
Fixpoint log10Fraction (fuel : nat) (y acc : Z) : Z :=
  match fuel with
  | O => acc
  | S fuel' =>
      let y2 := Z.shiftr (y * y) 256 in
      if 10 * 2 ^ 256 <=? y2 then log10Fraction fuel' (y2 / 10) (2 * acc + 1)
      else log10Fraction fuel' y2 (2 * acc)
  end.

Definition log10Approx (x : number) : number :=
  match x with
  | S754_nan => NaN
  | S754_zero _ => negInfinity
  | S754_infinity false => posInfinity
  | S754_infinity true => NaN
  | S754_finite true _ _ => NaN
  | S754_finite false m e =>
      let '(p, q) := fraction m e in
      let n := decimalExponent p q - 1 in
      let y :=
        if 0 <=? n then p * 2 ^ 256 / (q * 10 ^ n)
        else p * 10 ^ (- n) * 2 ^ 256 / q in
      match n * 2 ^ 64 + log10Fraction 64 y 0 with
      | Z0 => posZero
      | Zpos a => ofRatio false a (Z.to_pos (2 ^ 64))
      | Zneg a => ofRatio true a (Z.to_pos (2 ^ 64))
      end
  end.

(** The instance as [new DecimalFormat(p)] (or [applyPattern(p)]) followed by
    [setRoundingMode(mode)] leaves it. *)
Definition instance (p : jsstring) (mode : RoundingMode) : DecimalFormat :=
  {| pattern := p; parsedPattern := parsePattern p; roundingMode := mode |}.

(** The result of a method call and the instance after it. *)
Definition result {A : Type} (r : completion A * DecimalFormat)
  : completion A := fst r.
Definition after {A : Type} (r : completion A * DecimalFormat)
  : DecimalFormat := snd r.

(** ** Notions used in the statements *)

(** A number as the arithmetic produces it: a finite one has its canonical
    mantissa and exponent. *)
Definition wellFormed (x : number) : Prop := valid_binary prec emax x = true.

(** The rounding mode seen from the other side of zero. *)
Definition mirror (mode : RoundingMode) : RoundingMode :=
  match mode with
  | CEILING => FLOOR
  | FLOOR => CEILING
  | m => m
  end.

(** Two completions that throw the same exception or return numbers of the
    same magnitude. *)
Definition sameMagnitude (a b : completion number) : Prop :=
  match a, b with
  | Return x, Return y => abs x = abs y
  | Throw e, Throw e' => e = e'
  | _, _ => False
  end.



(** A finite number above zero or the positive infinity. *)
Definition isPositive (x : number) : bool :=
  match x with
  | S754_finite false _ _ | S754_infinity false => true
  | _ => false
  end.

(** The multipliers a pattern can set. *)
Definition isPatternMultiplier (m : number) : Prop :=
  m = ofZ 1 \/ m = ofZ 100 \/ m = ofZ 1000.



(** Whether the scan is inside a quoted span after the string [s], when it
    was ([q]) before it. *)
Definition inQuoteAfter (q : bool) (s : jsstring) : bool :=
  fold_left (fun q c => if isCh "'" c then negb q else q) s q.

(** The number part of a plain pattern: [a] optional and [b] required
    integer digits and, after a decimal point when [frac] is given, [c]
    required and [d] optional fraction digits. *)
Definition hashes (n : nat) : jsstring := List.repeat (ch "#") n.
Definition zeros (n : nat) : jsstring := List.repeat (ch "0") n.

Definition numberText (a b : nat) (frac : option (nat * nat)) : jsstring :=
  hashes a ++ zeros b
    ++ match frac with
       | Some (c, d) => lit "." ++ zeros c ++ hashes d
       | None => []
       end.

(** A character with no meaning of its own in a prefix: not a quote, not a
    digit character, not a percent or per-mille sign. *)
Definition isLiteral (c : codeunit) : bool :=
  negb (isCh "'" c) && negb (isDigitChar c) && negb (isCh "%" c)
  && negb (N.eqb c permille).

(** ** The setters and the remaining getters

    Each setter assigns one field of the rules (or the rounding mode) and
    nothing else.  Digit counts and the grouping size are taken as
    integers. *)
Module Setters.

Import API.

Definition withRules (f : ParsedPattern -> ParsedPattern) : method unit :=
  fun this =>
    (Return tt,
     {| pattern := pattern this; parsedPattern := f (parsedPattern this);
        roundingMode := roundingMode this |}).

Definition setPositivePrefix (prefix : jsstring) : method unit :=
  withRules (fun r =>
    {| positivePrefix := prefix; positiveSuffix := positiveSuffix r;
       negativePrefix := negativePrefix r; negativeSuffix := negativeSuffix r;
       minIntegerDigits := minIntegerDigits r;
       maxIntegerDigits := maxIntegerDigits r;
       minFractionDigits := minFractionDigits r;
       maxFractionDigits := maxFractionDigits r;
       groupingSize := groupingSize r; groupingUsed := groupingUsed r;
       decimalSeparatorAlwaysShown := decimalSeparatorAlwaysShown r;
       useExponentialNotation := useExponentialNotation r;
       minExponentDigits := minExponentDigits r;
       multiplier := multiplier r |}).

Definition setNegativePrefix (prefix : jsstring) : method unit :=
  withRules (fun r =>
    {| positivePrefix := positivePrefix r; positiveSuffix := positiveSuffix r;
       negativePrefix := prefix; negativeSuffix := negativeSuffix r;
       minIntegerDigits := minIntegerDigits r;
       maxIntegerDigits := maxIntegerDigits r;
       minFractionDigits := minFractionDigits r;
       maxFractionDigits := maxFractionDigits r;
       groupingSize := groupingSize r; groupingUsed := groupingUsed r;
       decimalSeparatorAlwaysShown := decimalSeparatorAlwaysShown r;
       useExponentialNotation := useExponentialNotation r;
       minExponentDigits := minExponentDigits r;
       multiplier := multiplier r |}).

Definition setPositiveSuffix (suffix : jsstring) : method unit :=
  withRules (fun r =>
    {| positivePrefix := positivePrefix r; positiveSuffix := suffix;
       negativePrefix := negativePrefix r; negativeSuffix := negativeSuffix r;
       minIntegerDigits := minIntegerDigits r;
       maxIntegerDigits := maxIntegerDigits r;
       minFractionDigits := minFractionDigits r;
       maxFractionDigits := maxFractionDigits r;
       groupingSize := groupingSize r; groupingUsed := groupingUsed r;
       decimalSeparatorAlwaysShown := decimalSeparatorAlwaysShown r;
       useExponentialNotation := useExponentialNotation r;
       minExponentDigits := minExponentDigits r;
       multiplier := multiplier r |}).

Definition setNegativeSuffix (suffix : jsstring) : method unit :=
  withRules (fun r =>
    {| positivePrefix := positivePrefix r; positiveSuffix := positiveSuffix r;
       negativePrefix := negativePrefix r; negativeSuffix := suffix;
       minIntegerDigits := minIntegerDigits r;
       maxIntegerDigits := maxIntegerDigits r;
       minFractionDigits := minFractionDigits r;
       maxFractionDigits := maxFractionDigits r;
       groupingSize := groupingSize r; groupingUsed := groupingUsed r;
       decimalSeparatorAlwaysShown := decimalSeparatorAlwaysShown r;
       useExponentialNotation := useExponentialNotation r;
       minExponentDigits := minExponentDigits r;
       multiplier := multiplier r |}).

Definition setMinimumIntegerDigits (digits : Z) : method unit :=
  withRules (fun r =>
    {| positivePrefix := positivePrefix r; positiveSuffix := positiveSuffix r;
       negativePrefix := negativePrefix r; negativeSuffix := negativeSuffix r;
       minIntegerDigits := digits;
       maxIntegerDigits := maxIntegerDigits r;
       minFractionDigits := minFractionDigits r;
       maxFractionDigits := maxFractionDigits r;
       groupingSize := groupingSize r; groupingUsed := groupingUsed r;
       decimalSeparatorAlwaysShown := decimalSeparatorAlwaysShown r;
       useExponentialNotation := useExponentialNotation r;
       minExponentDigits := minExponentDigits r;
       multiplier := multiplier r |}).

Definition setMaximumIntegerDigits (digits : Z) : method unit :=
  withRules (fun r =>
    {| positivePrefix := positivePrefix r; positiveSuffix := positiveSuffix r;
       negativePrefix := negativePrefix r; negativeSuffix := negativeSuffix r;
       minIntegerDigits := minIntegerDigits r;
       maxIntegerDigits := digits;
       minFractionDigits := minFractionDigits r;
       maxFractionDigits := maxFractionDigits r;
       groupingSize := groupingSize r; groupingUsed := groupingUsed r;
       decimalSeparatorAlwaysShown := decimalSeparatorAlwaysShown r;
       useExponentialNotation := useExponentialNotation r;
       minExponentDigits := minExponentDigits r;
       multiplier := multiplier r |}).

Definition setMinimumFractionDigits (digits : Z) : method unit :=
  withRules (fun r =>
    {| positivePrefix := positivePrefix r; positiveSuffix := positiveSuffix r;
       negativePrefix := negativePrefix r; negativeSuffix := negativeSuffix r;
       minIntegerDigits := minIntegerDigits r;
       maxIntegerDigits := maxIntegerDigits r;
       minFractionDigits := digits;
       maxFractionDigits := maxFractionDigits r;
       groupingSize := groupingSize r; groupingUsed := groupingUsed r;
       decimalSeparatorAlwaysShown := decimalSeparatorAlwaysShown r;
       useExponentialNotation := useExponentialNotation r;
       minExponentDigits := minExponentDigits r;
       multiplier := multiplier r |}).

Definition setMaximumFractionDigits (digits : Z) : method unit :=
  withRules (fun r =>
    {| positivePrefix := positivePrefix r; positiveSuffix := positiveSuffix r;
       negativePrefix := negativePrefix r; negativeSuffix := negativeSuffix r;
       minIntegerDigits := minIntegerDigits r;
       maxIntegerDigits := maxIntegerDigits r;
       minFractionDigits := minFractionDigits r;
       maxFractionDigits := digits;
       groupingSize := groupingSize r; groupingUsed := groupingUsed r;
       decimalSeparatorAlwaysShown := decimalSeparatorAlwaysShown r;
       useExponentialNotation := useExponentialNotation r;
       minExponentDigits := minExponentDigits r;
       multiplier := multiplier r |}).

Definition setGroupingUsed (used : bool) : method unit :=
  withRules (fun r =>
    {| positivePrefix := positivePrefix r; positiveSuffix := positiveSuffix r;
       negativePrefix := negativePrefix r; negativeSuffix := negativeSuffix r;
       minIntegerDigits := minIntegerDigits r;
       maxIntegerDigits := maxIntegerDigits r;
       minFractionDigits := minFractionDigits r;
       maxFractionDigits := maxFractionDigits r;
       groupingSize := groupingSize r; groupingUsed := used;
       decimalSeparatorAlwaysShown := decimalSeparatorAlwaysShown r;
       useExponentialNotation := useExponentialNotation r;
       minExponentDigits := minExponentDigits r;
       multiplier := multiplier r |}).

Definition setGroupingSize (size : Z) : method unit :=
  withRules (fun r =>
    {| positivePrefix := positivePrefix r; positiveSuffix := positiveSuffix r;
       negativePrefix := negativePrefix r; negativeSuffix := negativeSuffix r;
       minIntegerDigits := minIntegerDigits r;
       maxIntegerDigits := maxIntegerDigits r;
       minFractionDigits := minFractionDigits r;
       maxFractionDigits := maxFractionDigits r;
       groupingSize := size; groupingUsed := groupingUsed r;
       decimalSeparatorAlwaysShown := decimalSeparatorAlwaysShown r;
       useExponentialNotation := useExponentialNotation r;
       minExponentDigits := minExponentDigits r;
       multiplier := multiplier r |}).

Definition setMultiplier (m : number) : method unit :=
  withRules (fun r =>
    {| positivePrefix := positivePrefix r; positiveSuffix := positiveSuffix r;
       negativePrefix := negativePrefix r; negativeSuffix := negativeSuffix r;
       minIntegerDigits := minIntegerDigits r;
       maxIntegerDigits := maxIntegerDigits r;
       minFractionDigits := minFractionDigits r;
       maxFractionDigits := maxFractionDigits r;
       groupingSize := groupingSize r; groupingUsed := groupingUsed r;
       decimalSeparatorAlwaysShown := decimalSeparatorAlwaysShown r;
       useExponentialNotation := useExponentialNotation r;
       minExponentDigits := minExponentDigits r;
       multiplier := m |}).

Definition setDecimalSeparatorAlwaysShown (shown : bool) : method unit :=
  withRules (fun r =>
    {| positivePrefix := positivePrefix r; positiveSuffix := positiveSuffix r;
       negativePrefix := negativePrefix r; negativeSuffix := negativeSuffix r;
       minIntegerDigits := minIntegerDigits r;
       maxIntegerDigits := maxIntegerDigits r;
       minFractionDigits := minFractionDigits r;
       maxFractionDigits := maxFractionDigits r;
       groupingSize := groupingSize r; groupingUsed := groupingUsed r;
       decimalSeparatorAlwaysShown := shown;
       useExponentialNotation := useExponentialNotation r;
       minExponentDigits := minExponentDigits r;
       multiplier := multiplier r |}).

Definition isGroupingUsed : method bool :=
  fun this => (Return (groupingUsed (parsedPattern this)), this).

Definition getGroupingSize : method Z :=
  fun this => (Return (groupingSize (parsedPattern this)), this).

Definition isDecimalSeparatorAlwaysShown : method bool :=
  fun this =>
    (Return (decimalSeparatorAlwaysShown (parsedPattern this)), this).

(** A call of one of the setters, and a sequence of such calls on an
    instance. *)
Inductive call :=
| SetPositivePrefix (s : jsstring)
| SetNegativePrefix (s : jsstring)
| SetPositiveSuffix (s : jsstring)
| SetNegativeSuffix (s : jsstring)
| SetMinimumIntegerDigits (n : Z)
| SetMaximumIntegerDigits (n : Z)
| SetMinimumFractionDigits (n : Z)
| SetMaximumFractionDigits (n : Z)
| SetGroupingUsed (b : bool)
| SetGroupingSize (n : Z)
| SetRoundingMode (m : RoundingMode)
| SetMultiplier (m : number)
| SetDecimalSeparatorAlwaysShown (b : bool).

Definition perform (c : call) : method unit :=
  match c with
  | SetPositivePrefix s => setPositivePrefix s
  | SetNegativePrefix s => setNegativePrefix s
  | SetPositiveSuffix s => setPositiveSuffix s
  | SetNegativeSuffix s => setNegativeSuffix s
  | SetMinimumIntegerDigits n => setMinimumIntegerDigits n
  | SetMaximumIntegerDigits n => setMaximumIntegerDigits n
  | SetMinimumFractionDigits n => setMinimumFractionDigits n
  | SetMaximumFractionDigits n => setMaximumFractionDigits n
  | SetGroupingUsed b => setGroupingUsed b
  | SetGroupingSize n => setGroupingSize n
  | SetRoundingMode m => setRoundingMode m
  | SetMultiplier m => setMultiplier m
  | SetDecimalSeparatorAlwaysShown b => setDecimalSeparatorAlwaysShown b
  end.

Definition performAll (cs : list call) (this : DecimalFormat)
  : DecimalFormat :=
  fold_left (fun this c => snd (perform c this)) cs this.

(** The rounding mode a sequence of calls leaves, from the mode before. *)
Definition lastMode (cs : list call) (mode : RoundingMode) : RoundingMode :=
  fold_left (fun m c => match c with SetRoundingMode m' => m' | _ => m end)
    cs mode.

End Setters.

(** The scanner with the text [s] put before its prefix. *)
Definition addPrefix (s : jsstring) (sc : scanner) : scanner :=
  {| scPrefix := s ++ scPrefix sc; scSuffix := scSuffix sc;
     scNumberPart := scNumberPart sc;
     scUseExponentialNotation := scUseExponentialNotation sc;
     scMinExponentDigits := scMinExponentDigits sc;
     scMultiplier := scMultiplier sc; scState := scState sc;
     scInQuote := scInQuote sc |}.

(** ** utils.ts *)

Module Utils.

(** [s.padEnd(n, '0')] *)
Definition padEnd0 (s : jsstring) (n : Z) : jsstring :=
  s ++ repeat_unit (ch "0") (n - len s).

(** [parseInt(s, 10)]: the decimal digits at the head of the string, after
    white space and a sign; [NaN] when there is none. *)
Definition parseInt10 (s : jsstring) : number :=
  match trimStart s with
  | c :: s' =>
      let '(sg, rest) :=
        if isCh "-" c then (true, s')
        else if isCh "+" c then (false, s')
        else (false, c :: s') in
      match fst (spanDigits rest) with
      | [] => NaN
      | ds => ofDecimal sg (valueOfDigits ds) 0
      end
  | [] => NaN
  end.

Record parsed := {
  intPart : jsstring;
  decPart : jsstring;
  isNegative : bool
}.

(** [parseNumber] *)
Definition parseNumber (value : number) (decimalPlaces : Z)
  : completion parsed :=
  let isNegative := lt value zero in
  let absValue := abs value in
  str <- toFixed absValue (Z.max (decimalPlaces + 2) 10) ;;
  let parts := splitDot str in
  Return {| intPart := nth 0 parts [];
            decPart := padEnd0 (nth 1 parts []) (decimalPlaces + 1);
            isNegative := isNegative |}.

Inductive mode := Ceil | Floor.

(** The loop of [roundDecimalString] that adds the carry to the digits,
    least significant first; it is entered, and goes on, with a carry of
    one.  The result is the digits and the carry left. *)
Fixpoint carryLoop (decDigits : list number) : list number * number :=
  match decDigits with
  | [] => ([], one)
  | d :: rest =>
      let d' := add d one in
      if ge d' (ofZ 10) then
        let '(rest', carry) := carryLoop rest in (zero :: rest', carry)
      else (d' :: rest, zero)
  end.

(** [roundDecimalString], for an integer [scale]. *)
Definition roundDecimalString (intPart decPart : jsstring) (scale : Z)
  (m : mode) : completion (jsstring * jsstring) :=
  let keepPart := substring decPart 0 (Z.to_nat scale) in
  let roundPart := substringFrom decPart (Z.to_nat scale) in
  let needsRoundUp :=
    match m with
    | Ceil => 0 <? len (filter (fun c => negb (isCh "0" c)) roundPart)
    | Floor => false
    end in
  if negb needsRoundUp then Return (intPart, keepPart)
  else
    let decDigits := map (fun d => parseInt10 [d]) (rev keepPart) in
    let '(decDigits, carry) := carryLoop decDigits in
    if gt carry zero then
      let intValue := add (parseInt10 intPart) one in
      zeros <- repeat0 scale ;;
      Return (toString intValue, zeros)
    else Return (intPart, List.concat (map toString (rev decDigits))).

(** The digits of a decimal string with one added in the last place, least
    significant digit first, and whether a carry is left. *)
Fixpoint increment (digits : jsstring) : jsstring * bool :=
  match digits with
  | [] => ([], true)
  | c :: rest =>
      if isCh "9" c then
        let '(rest', carry) := increment rest in (ch "0" :: rest', carry)
      else ((c + 1)%N :: rest, false)
  end.

End Utils.

(** A finite number of magnitude below [10^21], which [toFixed] writes
    in positional notation. *)
Definition belowE21 (x : number) : bool :=
  match x with
  | S754_finite _ m e =>
      let '(p, q) := fraction m e in negb (10 ^ 21 * q <=? p)
  | S754_zero _ => true
  | _ => false
  end.

(** The number [n + 1/2], for an integer [n]. *)
Definition halfInteger (n : Z) : number :=
  binary_normalize prec emax (2 * n + 1) (-1) false.

(** The number [z / 2^k], for integers [z] and [k]. *)
Definition dyadic (z k : Z) : number :=
  binary_normalize prec emax z (- k) false.



(** * Properties *)

(** ** The stored pattern text and the rounding mode *)

Lemma instance_of_new (c : codeunit) (p : jsstring) :
  new (Some (c :: p)) = instance (c :: p) HALF_EVEN.
Proof. reflexivity. Qed.

Lemma instance_of_applyPattern (this : DecimalFormat) (p : jsstring) :
  after (API.applyPattern p this) = instance p (roundingMode this).
Proof. reflexivity. Qed.

Lemma instance_of_setRoundingMode (p : jsstring) (m m' : RoundingMode) :
  after (API.setRoundingMode m' (instance p m)) = instance p m'.
Proof. reflexivity. Qed.

(** C3 fails at the empty string: [new DecimalFormat('')] keeps the default
    pattern, and [toPattern()] returns it instead of the empty string. *)
Lemma toPattern_after_new_empty :
  result (API.toPattern (new (Some []))) = Return (lit "#,##0.###")
  /\ result (API.toPattern (new (Some []))) <> Return [].
Proof. split; [reflexivity | discriminate]. Qed.

(** C3 (amended): [toPattern()] returns the pattern text unchanged after
    construction with a pattern that is not empty, and after
    [applyPattern(p)] for every [p], the empty string included; an instance
    constructed with the empty string or with no argument returns the default
    pattern. *)
Theorem toPattern_roundtrip :
  (forall p : jsstring, p <> [] ->
     result (API.toPattern (new (Some p))) = Return p)
  /\ (forall (this : DecimalFormat) (p : jsstring),
        result (API.toPattern (after (API.applyPattern p this))) = Return p)
  /\ result (API.toPattern (new (Some []))) = Return defaultPattern
  /\ result (API.toPattern (new None)) = Return defaultPattern.
Proof.
  repeat split.
  intros [|c p] Hp; [contradiction | reflexivity].
Qed.

Lemma toPattern_roundtrip_witness :
  lit "$#,##0.00" <> []
  /\ result (API.toPattern (new (Some (lit "$#,##0.00"))))
     = Return (lit "$#,##0.00").
Proof.
  split; [discriminate |].
  apply (proj1 toPattern_roundtrip); discriminate.
Defined.

(** C10: [format] is a function of the value, the rules and the rounding
    mode, and a call leaves the instance (pattern text, rules and rounding
    mode) as it found it, whether it returns or throws. *)
Theorem format_pure (log10 : number -> number) (this : DecimalFormat)
  (v : number) :
  after (API.format log10 v this) = this
  /\ result (API.format log10 v (after (API.format log10 v this)))
     = result (API.format log10 v this)
  /\ (forall that : DecimalFormat,
        pattern that = pattern this ->
        parsedPattern that = parsedPattern this ->
        roundingMode that = roundingMode this ->
        result (API.format log10 v that) = result (API.format log10 v this)
        /\ after (API.format log10 v that) = that).
Proof.
  split; [reflexivity | split; [reflexivity |]].
  intros that Hp Hr Hm.
  destruct that as [p r m], this as [p' r' m']; simpl in *.
  subst. split; reflexivity.
Qed.

Lemma format_pure_witness :
  let this := new (Some (lit "0.00")) in
  let that := after (API.applyPattern (lit "0.00") (new None)) in
  let v := ofDecimal false 125 (-2) in
  pattern that = pattern this
  /\ parsedPattern that = parsedPattern this
  /\ roundingMode that = roundingMode this
  /\ result (API.format log10Approx v that)
     = result (API.format log10Approx v this).
Proof.
  cbv zeta.
  split; [reflexivity | split; [reflexivity | split; [reflexivity |]]].
  apply (proj2 (proj2 (format_pure log10Approx (new (Some (lit "0.00")))
                         (ofDecimal false 125 (-2))))
           (after (API.applyPattern (lit "0.00") (new None)))
           eq_refl eq_refl eq_refl).
Defined.

(** C8: a NaN makes [format] throw, with no string produced; the infinities
    are rendered as the infinity sign, with a minus for the negative one,
    whatever the rules and the rounding mode of the instance. *)
Theorem format_nonfinite (log10 : number -> number) (this : DecimalFormat) :
  format log10 this NaN = Throw (Error "Cannot format NaN")
  /\ format log10 this posInfinity = Return [infinity_glyph]
  /\ format log10 this negInfinity = Return (lit "-" ++ [infinity_glyph]).
Proof. repeat split. Qed.

(** C2: [applyPattern(p)] replaces the stored text and the compiled rules by
    those of [p] and keeps the rounding mode; formatting afterwards is
    formatting under the rules of [p] and the mode set before the call.  At
    the tie 1.245 with two fraction digits, [HALF_UP] set before
    [applyPattern] still gives 1.25 where the default mode gives 1.24. *)
Theorem applyPattern_keeps_roundingMode (log10 : number -> number)
  (this : DecimalFormat) (p : jsstring) :
  let this' := after (API.applyPattern p this) in
  pattern this' = p
  /\ parsedPattern this' = parsePattern p
  /\ roundingMode this' = roundingMode this
  /\ result (API.getRoundingMode this') = Return (roundingMode this)
  /\ (forall v : number,
        format log10 this' v = format log10 (instance p (roundingMode this)) v)
  /\ (let tie := ofDecimal false 1245 (-3) in
      let set := after (API.setRoundingMode HALF_UP (new None)) in
      let reapplied := after (API.applyPattern (lit "0.00") set) in
      result (API.format log10 tie reapplied) = Return (lit "1.25")
      /\ result (API.format log10 tie (new (Some (lit "0.00"))))
         = Return (lit "1.24")).
Proof.
  cbv zeta. repeat split; vm_compute; reflexivity.
Qed.

(** ** Sub-patterns without digit characters *)

Lemma scan_no_digit (s : jsstring) :
  (forall c, In c s -> isDigitChar c = false) ->
  forall sc : scanner,
    scState sc = InPrefix -> scNumberPart sc = [] ->
    scState (fold_left scanStep s sc) = InPrefix
    /\ scNumberPart (fold_left scanStep s sc) = [].
Proof.
  induction s as [|c s IH]; intros Hs sc Hst Hnum; simpl.
  - split; assumption.
  - apply IH.
    + intros d Hd. apply Hs. right. exact Hd.
    + destruct sc as [pre suf num useE minE mult st q]; simpl in *; subst.
      unfold scanStep.
      rewrite (Hs c (or_introl eq_refl)).
      destruct (isCh "'" c); [reflexivity |].
      destruct q; reflexivity.
    + destruct sc as [pre suf num useE minE mult st q]; simpl in *; subst.
      unfold scanStep.
      rewrite (Hs c (or_introl eq_refl)).
      destruct (isCh "'" c); [reflexivity |].
      destruct q; reflexivity.
Qed.

Lemma parseSubpattern_no_digit (s : jsstring) :
  (forall c, In c s -> isDigitChar c = false) ->
  Sub.minIntegerDigits (parseSubpattern s) = 1
  /\ Sub.maxIntegerDigits (parseSubpattern s) = MAX_SAFE_INTEGER
  /\ Sub.minFractionDigits (parseSubpattern s) = 0
  /\ Sub.maxFractionDigits (parseSubpattern s) = 0.
Proof.
  intros Hs. unfold parseSubpattern, scan.
  destruct (scan_no_digit s Hs scanInit eq_refl eq_refl) as [_ Hnum].
  rewrite Hnum. repeat split.
Qed.

(** C5 fails: the sub-pattern [abc] has no digit character, and its minimal
    and maximal integer digit counts are 1 and [MAX_SAFE_INTEGER], not 0. *)
Lemma no_digit_counts_not_all_zero :
  forallb (fun c => negb (isDigitChar c)) (lit "abc") = true
  /\ Sub.minIntegerDigits (parseSubpattern (lit "abc")) = 1
  /\ Sub.maxIntegerDigits (parseSubpattern (lit "abc")) = 9007199254740991
  /\ result (API.getMinimumIntegerDigits (new (Some (lit "abc")))) <> Return 0
  /\ result (API.getMaximumIntegerDigits (new (Some (lit "abc")))) <> Return 0.
Proof. repeat split; try discriminate. Qed.

Lemma parsePattern_no_digit (p : jsstring) :
  (forall c, In c p -> isDigitChar c = false) ->
  minIntegerDigits (parsePattern p) = 1
  /\ maxIntegerDigits (parsePattern p) = MAX_SAFE_INTEGER
  /\ minFractionDigits (parsePattern p) = 0
  /\ maxFractionDigits (parsePattern p) = 0.
Proof.
  intros Hp. unfold parsePattern.
  set (positivePattern := match findUnquotedSemicolon p with
                          | Some i => substring p 0 i
                          | None => p
                          end).
  assert (Hpos : forall c, In c positivePattern -> isDigitChar c = false).
  { intros c. subst positivePattern.
    destruct (findUnquotedSemicolon p) as [i|]; [| apply Hp].
    unfold substring. rewrite Nat.sub_0_r.
    intros Hin. apply Hp. rewrite <- (firstn_skipn i p).
    apply in_or_app. left. exact Hin. }
  cbn [minIntegerDigits maxIntegerDigits minFractionDigits maxFractionDigits].
  apply parseSubpattern_no_digit. exact Hpos.
Qed.

(** C5 (amended): a sub-pattern without any of the characters [0], [#], [,]
    and [.] keeps the initial values of the digit counts: at least 1 and at
    most [MAX_SAFE_INTEGER] integer digits, and no fraction digits; the
    getters return these after construction with such a pattern. *)
Theorem no_digit_subpattern_counts (s : jsstring) :
  (forall c, In c s -> isDigitChar c = false) ->
  (Sub.minIntegerDigits (parseSubpattern s) = 1
   /\ Sub.maxIntegerDigits (parseSubpattern s) = MAX_SAFE_INTEGER
   /\ Sub.minFractionDigits (parseSubpattern s) = 0
   /\ Sub.maxFractionDigits (parseSubpattern s) = 0)
  /\ (s <> [] ->
      let this := new (Some s) in
      result (API.getMinimumIntegerDigits this) = Return 1
      /\ result (API.getMaximumIntegerDigits this) = Return MAX_SAFE_INTEGER
      /\ result (API.getMinimumFractionDigits this) = Return 0
      /\ result (API.getMaximumFractionDigits this) = Return 0).
Proof.
  intros Hs. split; [apply parseSubpattern_no_digit; exact Hs |].
  intros Hne. destruct s as [|c s]; [contradiction |].
  destruct (parsePattern_no_digit (c :: s) Hs) as (H1 & H2 & H3 & H4).
  cbv zeta. unfold result, API.getMinimumIntegerDigits,
    API.getMaximumIntegerDigits, API.getMinimumFractionDigits,
    API.getMaximumFractionDigits, new.
  cbn [fst parsedPattern].
  rewrite H1, H2, H3, H4. repeat split.
Qed.

Lemma no_digit_subpattern_counts_witness :
  Sub.minIntegerDigits (parseSubpattern (lit "abc")) = 1
  /\ result (API.getMaximumIntegerDigits (new (Some (lit "abc"))))
     = Return MAX_SAFE_INTEGER.
Proof.
  assert (H : forall c, In c (lit "abc") -> isDigitChar c = false).
  { intros c [<- | [<- | [<- | []]]]; reflexivity. }
  split.
  - apply (proj1 (no_digit_subpattern_counts (lit "abc") H)).
  - apply (proj2 (no_digit_subpattern_counts (lit "abc") H)). discriminate.
Defined.

(** ** Binary64 arithmetic *)

Lemma binary_round_aux_opp (s : bool) (m e : Z) (l : location) :
  binary_round_aux prec emax (negb s) m e l
  = SFopp (binary_round_aux prec emax s m e l).
Proof.
  unfold binary_round_aux.
  destruct (shr_fexp prec emax m e l) as [mrs' e'].
  destruct (shr_fexp prec emax _ e' loc_Exact) as [mrs'' e''].
  destruct (shr_m mrs''); try reflexivity.
  destruct (e'' <=? emax - prec); reflexivity.
Qed.

Lemma binary_round_opp (s : bool) (m : positive) (e : Z) :
  binary_round prec emax (negb s) m e = SFopp (binary_round prec emax s m e).
Proof.
  unfold binary_round.
  destruct (shl_align m e _) as [mz ez].
  apply binary_round_aux_opp.
Qed.

Lemma binary_normalize_opp (z e : Z) (s : bool) :
  binary_normalize prec emax (- z) e (negb s)
  = SFopp (binary_normalize prec emax z e s).
Proof.
  destruct z; simpl; try reflexivity.
  - apply (binary_round_opp false).
  - change false with (negb true). rewrite binary_round_opp. 
    destruct (binary_round prec emax true p e); simpl; try reflexivity; rewrite ?negb_involutive; reflexivity.
Qed.

Lemma mul_neg_l (x y : number) : mul (neg x) y = neg (mul x y).
Proof.
  destruct x as [sx|sx| |sx mx ex], y as [sy|sy| |sy my ey]; simpl; try reflexivity;
    try (destruct sx, sy; reflexivity).
  unfold mul, SFmul.
  replace (xorb (negb sx) sy) with (negb (xorb sx sy)) by (destruct sx, sy; reflexivity).
  apply binary_round_aux_opp.
Qed.

Lemma floor_neg (x : number) : floor (neg x) = neg (ceil x).
Proof.
  destruct x as [s|s| |s m e]; try reflexivity.
  simpl. destruct (0 <=? e); [reflexivity|].
  rewrite <- binary_normalize_opp. rewrite Z.opp_involutive. reflexivity.
Qed.

Lemma ceil_neg (x : number) : ceil (neg x) = neg (floor x).
Proof.
  destruct x as [s|s| |s m e]; try reflexivity.
  simpl. destruct (0 <=? e); [reflexivity|].
  rewrite <- binary_normalize_opp. rewrite negb_involutive. reflexivity.
Qed.

Lemma compare_cont_Eq_iff (p q : positive) :
  Pos.compare_cont Eq p q = Eq <-> p = q.
Proof. apply Pos.compare_eq_iff. Qed.

Lemma seq_finite_inv (s s' : bool) (m m' : positive) (e e' : Z) :
  seq (S754_finite s m e) (S754_finite s' m' e') = true ->
  s = s' /\ m = m' /\ e = e'.
Proof.
  unfold seq, SFeqb, SFcompare.
  destruct s, s'; try discriminate;
    destruct (Z.compare_spec e e'); try discriminate;
    destruct (Pos.compare_cont Eq m m') eqn:Hc; try discriminate;
    apply Pos.compare_eq_iff in Hc; subst; auto.
Qed.

Lemma seq_neg (a b : number) : seq (neg a) (neg b) = seq a b.
Proof.
  unfold seq, SFeqb.
  destruct a as [sa|sa| |sa ma ea], b as [sb|sb| |sb mb eb]; simpl;
    try reflexivity;
    try (destruct sa; reflexivity); try (destruct sb; reflexivity);
    try (destruct sa, sb; reflexivity).
  destruct sa, sb; simpl; try reflexivity;
    destruct (ea ?= eb); try reflexivity;
    destruct (Pos.compare_cont Eq ma mb); reflexivity.
Qed.

Lemma digits2_size (p : positive) : digits2_pos p = Pos.size p.
Proof. induction p; simpl; congruence. Qed.

Lemma digits2_log2 (p : positive) :
  Zpos (digits2_pos p) = Z.log2 (Zpos p) + 1.
Proof.
  rewrite digits2_size. destruct p; simpl; lia.
Qed.

Lemma digits2_iter_xO (m n : positive) :
  Zpos (digits2_pos (Pos.iter xO m n)) = Zpos (digits2_pos m) + Zpos n.
Proof.
  induction n using Pos.peano_ind.
  - simpl. lia.
  - rewrite Pos.iter_succ. simpl. lia.
Qed.

Lemma iter_xO_value (m n : positive) :
  Zpos (Pos.iter xO m n) = Zpos m * 2 ^ Zpos n.
Proof.
  induction n using Pos.peano_ind.
  - simpl. lia.
  - rewrite Pos.iter_succ, Pos2Z.inj_succ, Z.pow_succ_r by lia.
    rewrite Pos2Z.inj_xO, IHn. lia.
Qed.

Lemma binary_round_aux_canonical (s : bool) (m : positive) (e : Z) :
  canonical_mantissa prec emax m e = true ->
  e <= emax - prec ->
  binary_round_aux prec emax s (Zpos m) e loc_Exact = S754_finite s m e.
Proof.
  unfold canonical_mantissa. intros Hc He.
  apply Z.eqb_eq in Hc.
  unfold binary_round_aux, shr_fexp.
  cbn [Zdigits2 shr_record_of_loc]. rewrite Hc, Z.sub_diag.
  cbn [shr shr_m loc_of_shr_record round_nearest_even Zdigits2 shr_record_of_loc].
  rewrite Hc, Z.sub_diag. cbn [shr shr_m].
  apply Z.leb_le in He. rewrite He. reflexivity.
Qed.

(** The number of an integer of at most 53 binary digits. *)
Lemma binary_round_small (s : bool) (z : positive) :
  Zpos (digits2_pos z) <= 53 ->
  exists m' : positive,
    binary_round prec emax s z 0
    = S754_finite s m' (Zpos (digits2_pos z) - 53)
    /\ Zpos m' = Zpos z * 2 ^ (53 - Zpos (digits2_pos z)).
Proof.
  intros Hd. unfold binary_round.
  assert (Hf : fexp prec emax (Zpos (digits2_pos z) + 0)
               = Zpos (digits2_pos z) - 53).
  { unfold fexp, SpecFloat.emin, prec, emax. lia. }
  rewrite Hf. unfold shl_align. rewrite Z.sub_0_r.
  destruct (Zpos (digits2_pos z) - 53) as [|d|d] eqn:Hdd; try lia.
  - exists z. split.
    + apply binary_round_aux_canonical.
      * unfold canonical_mantissa. apply Z.eqb_eq.
        unfold fexp, SpecFloat.emin, prec, emax. lia.
      * unfold prec, emax. lia.
    + replace (53 - Zpos (digits2_pos z)) with 0 by lia. lia.
  - exists (Pos.iter xO z d). split.
    + apply binary_round_aux_canonical.
      * unfold canonical_mantissa. apply Z.eqb_eq.
        rewrite digits2_iter_xO.
        unfold fexp, SpecFloat.emin, prec, emax. lia.
      * unfold prec, emax. lia.
    + rewrite iter_xO_value. f_equal. f_equal. lia.
Qed.

Lemma shr_exponent (mrs : shr_record) (e n : Z) :
  snd (shr mrs e n) = e + Z.max 0 n.
Proof. destruct n; simpl; lia. Qed.

Lemma binary_round_aux_exponent (s : bool) (m e : Z) (l : location) :
  match binary_round_aux prec emax s m e l with
  | S754_finite _ _ e'' =>
      e + Z.max 0 (fexp prec emax (Zdigits2 m + e) - e) <= e''
  | _ => True
  end.
Proof.
  unfold binary_round_aux, shr_fexp.
  pose proof (shr_exponent (shr_record_of_loc m l) e
                (fexp prec emax (Zdigits2 m + e) - e)) as H1.
  destruct (shr (shr_record_of_loc m l) e _) as [mrs' e'].
  simpl in H1.
  set (m1 := round_nearest_even (shr_m mrs') (loc_of_shr_record mrs')).
  pose proof (shr_exponent (shr_record_of_loc m1 loc_Exact) e'
                (fexp prec emax (Zdigits2 m1 + e') - e')) as H2.
  destruct (shr (shr_record_of_loc m1 loc_Exact) e' _) as [mrs'' e''].
  simpl in H2.
  destruct (shr_m mrs''); try exact I.
  destruct (e'' <=? emax - prec); [| exact I]. lia.
Qed.

(** The number of an integer of more than 53 binary digits, when finite, has
    a positive exponent. *)
Lemma binary_round_large (s : bool) (z : positive) :
  53 < Zpos (digits2_pos z) ->
  match binary_round prec emax s z 0 with
  | S754_finite _ _ e => 0 < e
  | _ => True
  end.
Proof.
  intros Hd. unfold binary_round.
  assert (Hf : fexp prec emax (Zpos (digits2_pos z) + 0)
               = Zpos (digits2_pos z) - 53).
  { unfold fexp, SpecFloat.emin, prec, emax. lia. }
  rewrite Hf. unfold shl_align. rewrite Z.sub_0_r.
  destruct (Zpos (digits2_pos z) - 53) as [|d|d] eqn:Hdd; try lia.
  pose proof (binary_round_aux_exponent s (Zpos z) 0 loc_Exact) as H.
  destruct (binary_round_aux prec emax s (Zpos z) 0 loc_Exact); try exact I.
  cbn [Zdigits2] in H. rewrite Hf in H. lia.
Qed.

(** A number with a negative exponent that equals the number of a natural
    number [z] is [z] itself. *)
Lemma seq_integer_inv (m : positive) (e z : Z) :
  e < 0 -> 0 <= z ->
  seq (S754_finite false m e) (binary_normalize prec emax z 0 false) = true ->
  Zpos m = z * 2 ^ (- e).
Proof.
  intros He Hz. destruct z as [|z|z]; try lia; cbn [binary_normalize].
  - discriminate.
  - destruct (Z_le_gt_dec (Zpos (digits2_pos z)) 53) as [Hd|Hd].
    + destruct (binary_round_small false z Hd) as (m' & -> & Hm').
      intros H. apply seq_finite_inv in H. destruct H as (_ & -> & ->).
      rewrite Hm'. apply f_equal. apply f_equal. lia.
    + pose proof (binary_round_large false z ltac:(lia)) as H.
      destruct (binary_round prec emax false z 0) as [s'|s'| |s' m' e'];
        try discriminate.
      * destruct s'; discriminate.
      * intros H'. apply seq_finite_inv in H'. lia.
Qed.

Lemma shr_1_digits (mrs : shr_record) (a : positive) :
  shr_m mrs = Zpos a -> 1 < Zpos (digits2_pos a) ->
  exists a', shr_m (shr_1 mrs) = Zpos a'
             /\ Zpos (digits2_pos a') = Zpos (digits2_pos a) - 1.
Proof.
  destruct mrs as [m r s0]. cbn [shr_m]. intros -> Hd.
  destruct a as [b|b|]; cbn [digits2_pos] in *;
    [exists b | exists b | lia];
    (split; [reflexivity | rewrite Pos2Z.inj_succ; lia]).
Qed.

Lemma iter_shr_1_digits (p : positive) :
  forall (mrs : shr_record) (a : positive),
    shr_m mrs = Zpos a -> Zpos p < Zpos (digits2_pos a) ->
    exists a', shr_m (iter_pos shr_1 p mrs) = Zpos a'
               /\ Zpos (digits2_pos a') = Zpos (digits2_pos a) - Zpos p.
Proof.
  induction p as [p IH|p IH|]; intros mrs a Ha Hp; cbn [iter_pos];
    try (pose proof (Pos2Z.inj_xI p) as HxI);
    try (pose proof (Pos2Z.inj_xO p) as HxO).
  - destruct (shr_1_digits mrs a Ha ltac:(lia)) as (a1 & H1 & D1).
    destruct (IH _ a1 H1 ltac:(lia)) as (a2 & H2 & D2).
    destruct (IH _ a2 H2 ltac:(lia)) as (a3 & H3 & D3).
    exists a3. split; [exact H3 | lia].
  - destruct (IH _ a Ha ltac:(lia)) as (a2 & H2 & D2).
    destruct (IH _ a2 H2 ltac:(lia)) as (a3 & H3 & D3).
    exists a3. split; [exact H3 | lia].
  - destruct (shr_1_digits mrs a Ha ltac:(lia)) as (a1 & H1 & D1).
    exists a1. split; [exact H1 | lia].
Qed.

Lemma shr_digits (mrs : shr_record) (e n : Z) (a : positive) :
  shr_m mrs = Zpos a -> n < Zpos (digits2_pos a) ->
  exists a', shr_m (fst (shr mrs e n)) = Zpos a'
             /\ Zpos (digits2_pos a') = Zpos (digits2_pos a) - Z.max 0 n.
Proof.
  intros Ha Hn. destruct n as [|p|p]; cbn [shr fst].
  - exists a. split; [exact Ha | lia].
  - destruct (iter_shr_1_digits p mrs a Ha Hn) as (a' & H & D).
    exists a'. split; [exact H | lia].
  - exists a. split; [exact Ha | lia].
Qed.

Lemma round_nearest_even_pos (a : positive) (l : location) :
  exists b, round_nearest_even (Zpos a) l = Zpos b
            /\ Zpos (digits2_pos a) <= Zpos (digits2_pos b).
Proof.
  assert (Hs : exists b, Zpos a + 1 = Zpos b
                /\ Zpos (digits2_pos a) <= Zpos (digits2_pos b)).
  { exists (a + 1)%positive. split; [lia |].
    rewrite !digits2_log2. 
    assert (Z.log2 (Zpos a) <= Z.log2 (Zpos (a + 1))) by (apply Z.log2_le_mono; lia).
    lia. }
  assert (Hi : exists b, Zpos a = Zpos b
                /\ Zpos (digits2_pos a) <= Zpos (digits2_pos b)).
  { exists a. split; [reflexivity | lia]. }
  destruct l as [|[| |]]; cbn [round_nearest_even]; auto.
  destruct (Z.even (Zpos a)); auto.
Qed.

Lemma shr_record_of_loc_m (m : Z) (l : location) :
  shr_m (shr_record_of_loc m l) = m.
Proof. destruct l as [|[| |]]; reflexivity. Qed.

(** A positive mantissa above the least exponent rounds to a finite number
    or to an infinity, never to a zero. *)
Lemma binary_round_aux_nonzero (s : bool) (m : positive) (e : Z) (l : location) :
  SpecFloat.emin prec emax < Zpos (digits2_pos m) + e ->
  (exists m' e', binary_round_aux prec emax s (Zpos m) e l = S754_finite s m' e')
  \/ binary_round_aux prec emax s (Zpos m) e l = S754_infinity s.
Proof.
  intros Hmin. unfold binary_round_aux, shr_fexp.
  cbn [Zdigits2].
  set (n := fexp prec emax (Zpos (digits2_pos m) + e) - e).
  assert (Hn : n < Zpos (digits2_pos m)).
  { subst n. unfold fexp, SpecFloat.emin, prec, emax in *. lia. }
  destruct (shr_digits (shr_record_of_loc (Zpos m) l) e n m
              (shr_record_of_loc_m _ _) Hn) as (a1 & H1 & D1).
  pose proof (shr_exponent (shr_record_of_loc (Zpos m) l) e n) as E1.
  destruct (shr (shr_record_of_loc (Zpos m) l) e n) as [mrs' e'].
  simpl in H1, E1. rewrite H1.
  destruct (round_nearest_even_pos a1 (loc_of_shr_record mrs')) as (b & -> & Db).
  cbn [Zdigits2].
  set (n2 := fexp prec emax (Zpos (digits2_pos b) + e') - e').
  assert (Hn2 : n2 < Zpos (digits2_pos b)).
  { subst n2. unfold fexp, SpecFloat.emin, prec, emax in *. lia. }
  destruct (shr_digits (shr_record_of_loc (Zpos b) loc_Exact) e' n2 b
              eq_refl Hn2) as (a2 & H2 & D2).
  destruct (shr (shr_record_of_loc (Zpos b) loc_Exact) e' n2) as [mrs'' e''].
  simpl in H2. rewrite H2.
  destruct (e'' <=? emax - prec); [left; eauto | right; reflexivity].
Qed.

(** ** Magnitudes *)

Lemma abs_neg (x : number) : abs (neg x) = abs x.
Proof. destruct x; reflexivity. Qed.

Lemma minusOne_neg_one : minusOne = neg one.
Proof. reflexivity. Qed.

Lemma abs_mul_sign (y : number) : abs (mul minusOne y) = abs (mul one y).
Proof. rewrite minusOne_neg_one, mul_neg_l. apply abs_neg. Qed.

(** ** The renderer uses the magnitude of the rounded value only *)

Lemma formatStandard_sameMagnitude (this this' : DecimalFormat)
  (v v' : number) :
  parsedPattern this = parsedPattern this' ->
  sameMagnitude (round this v (maxFractionDigits (parsedPattern this)))
                (round this' v' (maxFractionDigits (parsedPattern this))) ->
  formatStandard this v = formatStandard this' v'.
Proof.
  intros Hr. unfold formatStandard, integerPartOf, fractionPartOf, scaledOf.
  rewrite <- Hr.
  destruct (round this v _) as [a|e], (round this' v' _) as [b|e'];
    cbn [sameMagnitude bind]; intros H; try contradiction.
  - rewrite H. reflexivity.
  - subst. reflexivity.
Qed.

(** ** Zero *)

Lemma roundInteger_zero (this : DecimalFormat) :
  sameMagnitude (roundInteger this negZero) (roundInteger this posZero).
Proof.
  unfold roundInteger. destruct (roundingMode this); reflexivity.
Qed.

Lemma round_zero (this : DecimalFormat) (scale : Z) :
  sameMagnitude (round this negZero scale) (round this posZero scale).
Proof.
  unfold round. destruct (scale =? 0); [apply roundInteger_zero |].
  change (ge negZero zero) with true. change (ge posZero zero) with true.
  change (abs negZero) with (abs posZero).
  cbv iota.
  destruct (roundScaled this one _) as [r|e]; cbn [bind]; [| reflexivity].
  destruct (toFixed _ scale) as [f|e]; cbn [bind]; reflexivity.
Qed.

Lemma formatted_zero (log10 : number -> number) (this : DecimalFormat) :
  formatted log10 this negZero = formatted log10 this posZero.
Proof.
  unfold formatted.
  destruct (useExponentialNotation (parsedPattern this)); [reflexivity |].
  apply formatStandard_sameMagnitude; [reflexivity | apply round_zero].
Qed.

(** C4: [format(-0.0)] is [format(0.0)], for every state of the rules and
    every rounding mode, and it takes the positive branch: the scaled value
    of a negative zero is not less than zero, so the result is the positive
    prefix, the number body of the scaled zero and the positive suffix, with
    no negative prefix and no minus sign of its own. *)
Theorem format_negative_zero (log10 : number -> number)
  (this : DecimalFormat) :
  format log10 this negZero = format log10 this posZero
  /\ format log10 this negZero
     = (B <- formatted log10 this
               (mul posZero (multiplier (parsedPattern this))) ;;
        Return (positivePrefix (parsedPattern this) ++ B
                  ++ positiveSuffix (parsedPattern this))).
Proof.
  unfold format. cbn [isNaN isFinite negZero posZero negb].
  destruct (multiplier (parsedPattern this)) as [s|s| |s m e];
    cbn [mul SFmul xorb]; try (split; reflexivity);
    destruct s; cbn [negb];
    change (S754_zero true) with negZero;
    change (S754_zero false) with posZero;
    change (lt negZero zero) with false;
    change (lt posZero zero) with false;
    cbn [andb];
    rewrite ?formatted_zero; split; reflexivity.
Qed.

(** ** What a pattern compiles to *)

Lemma scaleOf_multiplier (c : codeunit) (m : number) :
  isPatternMultiplier m -> isPatternMultiplier (scaleOf c m).
Proof.
  unfold scaleOf, isPatternMultiplier. intros H.
  destruct (isCh "%" c); [auto |].
  destruct (N.eqb c permille); auto.
Qed.

Lemma scanStep_multiplier (sc : scanner) (c : codeunit) :
  isPatternMultiplier (scMultiplier sc) ->
  isPatternMultiplier (scMultiplier (scanStep sc c)).
Proof.
  destruct sc as [pre suf num useE minE mult st q]. cbn [scMultiplier].
  intros H. pose proof (scaleOf_multiplier c mult H) as H'.
  unfold scanStep.
  destruct (isCh "'" c); [exact H |].
  destruct q; [destruct st; exact H |].
  destruct st; try destruct (isDigitChar c); try destruct (isCh "0" c);
    try destruct (isCh "E" c || isCh "e" c); assumption.
Qed.

Lemma scan_multiplier (s : jsstring) :
  isPatternMultiplier (scMultiplier (scan s)).
Proof.
  unfold scan.
  assert (H : isPatternMultiplier (scMultiplier scanInit)) by (left; reflexivity).
  revert H. generalize scanInit.
  induction s as [|c s IH]; intros sc H; cbn [fold_left]; [exact H |].
  apply IH, scanStep_multiplier, H.
Qed.

Lemma parseSubpattern_scanned (s : jsstring) :
  Sub.prefix (parseSubpattern s) = scPrefix (scan s)
  /\ Sub.suffix (parseSubpattern s) = scSuffix (scan s)
  /\ Sub.multiplier (parseSubpattern s) = scMultiplier (scan s)
  /\ Sub.useExponentialNotation (parseSubpattern s)
     = scUseExponentialNotation (scan s)
  /\ Sub.minExponentDigits (parseSubpattern s) = scMinExponentDigits (scan s).
Proof.
  unfold parseSubpattern.
  destruct (scNumberPart (scan s)) as [|c n]; [repeat split |].
  destruct (indexOf (ch ".") (c :: n));
    destruct (lastIndexOf (ch ",") _); repeat split.
Qed.

Lemma parsePattern_multiplier (p : jsstring) :
  isPatternMultiplier (multiplier (parsePattern p)).
Proof.
  unfold parsePattern. cbn [multiplier].
  rewrite (proj1 (proj2 (proj2 (parseSubpattern_scanned _)))).
  apply scan_multiplier.
Qed.

Lemma parsePattern_derived_negative (p : jsstring) :
  findUnquotedSemicolon p = None ->
  negativePrefix (parsePattern p) = lit "-" ++ positivePrefix (parsePattern p)
  /\ negativeSuffix (parsePattern p) = positiveSuffix (parsePattern p).
Proof.
  intros H. unfold parsePattern. rewrite H. split; reflexivity.
Qed.

(** ** Products with a pattern multiplier *)

Lemma digits2_mul (a b : positive) :
  Zpos (digits2_pos a) + Zpos (digits2_pos b) - 1
  <= Zpos (digits2_pos (a * b)).
Proof.
  rewrite !digits2_log2, Pos2Z.inj_mul.
  pose proof (Z.log2_mul_below (Zpos a) (Zpos b) ltac:(lia) ltac:(lia)).
  lia.
Qed.

Lemma wellFormed_above_emin (s : bool) (m : positive) (e : Z) :
  wellFormed (S754_finite s m e) ->
  SpecFloat.emin prec emax < Zpos (digits2_pos m) + e.
Proof.
  unfold wellFormed, valid_binary, bounded, canonical_mantissa.
  intros H. apply andb_prop in H. destruct H as [H _].
  apply Z.eqb_eq in H. unfold fexp in H. lia.
Qed.

Lemma mul_positive (mv : positive) (ev : Z) (c : number) :
  wellFormed (S754_finite false mv ev) ->
  isPatternMultiplier c ->
  isPositive (mul (S754_finite false mv ev) c) = true.
Proof.
  intros Hv Hc. apply wellFormed_above_emin in Hv.
  assert (H : exists mc ec, c = S754_finite false mc ec
                            /\ 1 <= Zpos (digits2_pos mc) + ec).
  { destruct Hc as [-> | [-> | ->]]; eexists; eexists;
      (split; [reflexivity | vm_compute; discriminate]). }
  destruct H as (mc & ec & -> & Hd).
  unfold mul, SFmul. cbn [xorb].
  pose proof (digits2_mul mv mc) as Hm.
  destruct (binary_round_aux_nonzero false (mv * mc) (ev + ec) loc_Exact
              ltac:(lia)) as [(m' & e' & ->) | ->]; reflexivity.
Qed.

(** ** Rounding on the two sides of zero *)

Lemma seq_floor_ceil (m : positive) (e : Z) :
  seq (S754_finite false m e) (ceil (S754_finite false m e))
  = seq (S754_finite false m e) (floor (S754_finite false m e)).
Proof.
  unfold floor, ceil. destruct (0 <=? e) eqn:He; [reflexivity |].
  apply Z.leb_gt in He. cbn [negb cond_Zopp].
  rewrite !Z.shiftr_div_pow2 by lia.
  change (Z.neg m) with (- Zpos m).
  assert (Hp : 0 < 2 ^ (- e)) by (apply Z.pow_pos_nonneg; lia).
  destruct (Z.eq_dec (Zpos m mod 2 ^ (- e)) 0) as [Hz | Hnz].
  - rewrite Z_div_zero_opp_full, Z.opp_involutive by assumption. reflexivity.
  - rewrite Z_div_nz_opp_full by (assumption || lia).
    assert (Hq : 0 <= Zpos m / 2 ^ (- e)) by (apply Z.div_pos; lia).
    destruct (seq _ (binary_normalize prec emax (- (- (Zpos m / 2 ^ (- e)) - 1)) 0 false))
      eqn:H1.
    + apply seq_integer_inv in H1; try lia.
      exfalso. apply Hnz. rewrite H1. apply Z.mod_mul. lia.
    + destruct (seq _ (binary_normalize prec emax (Zpos m / 2 ^ (- e)) 0 false))
        eqn:H2; [| reflexivity].
      apply seq_integer_inv in H2; try lia.
      exfalso. apply Hnz. rewrite H2. apply Z.mod_mul. lia.
Qed.

Lemma sne_floor_neg (x : number) :
  isPositive x = true ->
  sne (neg x) (floor (neg x)) = sne x (floor x).
Proof.
  destruct x as [s|s| |s m e]; try discriminate; destruct s; try discriminate;
    intros _; [reflexivity |].
  unfold sne. f_equal.
  change (SFeqb ?a ?b) with (seq a b).
  rewrite floor_neg, seq_neg. apply seq_floor_ceil.
Qed.

Lemma isPositive_signs (x : number) :
  isPositive x = true ->
  lt x zero = false /\ ge x zero = true /\ abs x = x
  /\ lt (neg x) zero = true /\ ge (neg x) zero = false
  /\ sne (neg x) zero = true.
Proof.
  destruct x as [s|s| |s m e]; try discriminate; destruct s; try discriminate;
    intros _; repeat split.
Qed.

Lemma roundInteger_mirror (this this' : DecimalFormat) (x : number) :
  roundingMode this' = mirror (roundingMode this) ->
  isPositive x = true ->
  sameMagnitude (roundInteger this (neg x)) (roundInteger this' x).
Proof.
  intros Hm Hx. unfold roundInteger. rewrite Hm, abs_neg.
  destruct (isPositive_signs x Hx) as (-> & _ & _ & -> & _ & _).
  destruct (roundingMode this); cbn [mirror sameMagnitude];
    try apply abs_mul_sign.
  - rewrite ceil_neg. apply abs_neg.
  - rewrite floor_neg. apply abs_neg.
  - rewrite (sne_floor_neg x Hx).
    destruct (sne x (floor x)); cbn [sameMagnitude];
      [reflexivity | apply abs_neg].
Qed.

Lemma roundScaled_mirror (this this' : DecimalFormat) (scaled : number) :
  roundingMode this' = mirror (roundingMode this) ->
  roundScaled this minusOne scaled = roundScaled this' one scaled.
Proof.
  intros Hm. unfold roundScaled. rewrite Hm.
  destruct (roundingMode this); reflexivity.
Qed.

Lemma round_mirror (this this' : DecimalFormat) (x : number) (scale : Z) :
  roundingMode this' = mirror (roundingMode this) ->
  isPositive x = true ->
  sameMagnitude (round this (neg x) scale) (round this' x scale).
Proof.
  intros Hm Hx. unfold round.
  destruct (scale =? 0); [apply roundInteger_mirror; assumption |].
  rewrite abs_neg.
  destruct (isPositive_signs x Hx) as (_ & -> & _ & _ & -> & _).
  rewrite (roundScaled_mirror this this' _ Hm).
  destruct (roundScaled this' one _) as [r|e]; cbn [bind]; [| reflexivity].
  destruct (toFixed _ scale) as [f|e]; cbn [bind sameMagnitude];
    [apply abs_mul_sign | reflexivity].
Qed.

Lemma mirror_involutive (mode : RoundingMode) : mirror (mirror mode) = mode.
Proof. destruct mode; reflexivity. Qed.

(** ** Sign placement *)

(** C1 fails under [CEILING] (and [FLOOR]): with the pattern [0], 1.5 is
    formatted as [2] and -1.5 as [-1], not as a minus sign before the body of
    1.5. *)
Lemma sign_placement_fails_under_CEILING :
  let this := instance (lit "0") CEILING in
  let v := ofDecimal false 15 (-1) in
  findUnquotedSemicolon (lit "0") = None
  /\ gt v zero = true
  /\ format log10Approx this v = Return (lit "2")
  /\ format log10Approx this (neg v) = Return (lit "-1")
  /\ format log10Approx this (neg v)
     <> (B <- formatted log10Approx this
                (mul v (multiplier (parsedPattern this))) ;;
         Return (lit "-" ++ positivePrefix (parsedPattern this) ++ B
                   ++ positiveSuffix (parsedPattern this))).
Proof. vm_compute. repeat split; discriminate. Qed.

Lemma format_scaled_positive (log10 : number -> number)
  (this : DecimalFormat) (v : number) :
  isNaN v = false -> isFinite v = true ->
  isPositive (mul v (multiplier (parsedPattern this))) = true ->
  format log10 this v
  = (B <- formatted log10 this (mul v (multiplier (parsedPattern this))) ;;
     Return (positivePrefix (parsedPattern this) ++ B
               ++ positiveSuffix (parsedPattern this))).
Proof.
  intros Hn Hf Hp. unfold format. rewrite Hn, Hf. cbn [negb].
  destruct (isPositive_signs _ Hp) as (-> & _). reflexivity.
Qed.

Lemma format_scaled_negative (log10 : number -> number)
  (this : DecimalFormat) (v : number) :
  isNaN v = false -> isFinite v = true ->
  isPositive (mul v (multiplier (parsedPattern this))) = true ->
  format log10 this (neg v)
  = (B <- formatted log10 this
            (neg (mul v (multiplier (parsedPattern this)))) ;;
     Return (negativePrefix (parsedPattern this) ++ B
               ++ negativeSuffix (parsedPattern this))).
Proof.
  intros Hn Hf Hp. unfold format.
  replace (isNaN (neg v)) with false by (destruct v; try discriminate; reflexivity).
  replace (isFinite (neg v)) with true by (destruct v; try discriminate; reflexivity).
  cbn [negb]. rewrite mul_neg_l.
  destruct (isPositive_signs _ Hp) as (_ & _ & _ & -> & _ & ->). reflexivity.
Qed.

Lemma formatted_mirror (log10 : number -> number) (p : jsstring)
  (mode : RoundingMode) (x : number) :
  isPositive x = true ->
  formatted log10 (instance p mode) (neg x)
  = formatted log10
      (instance p (if useExponentialNotation (parsePattern p)
                   then mode else mirror mode)) x.
Proof.
  intros Hx. unfold formatted. cbn [parsedPattern instance].
  destruct (useExponentialNotation (parsePattern p)).
  - rewrite abs_neg. reflexivity.
  - apply formatStandard_sameMagnitude; [reflexivity |].
    apply round_mirror; [reflexivity | exact Hx].
Qed.

(** C1 (amended): for a pattern without an unquoted [;] and a finite value
    [v > 0], [format(-v)] is a minus sign, the positive prefix, a number body
    and the positive suffix.  In exponential rendering the body is that of
    [v] under the same rounding mode; in standard rendering it is that of [v]
    under the mirrored mode ([CEILING] for [FLOOR] and [FLOOR] for
    [CEILING], any other mode itself), so for every mode but [CEILING] and
    [FLOOR] it is the body of [v] under the same mode.  The body of [v] is
    what [format(v)] puts between the positive prefix and suffix. *)
Theorem sign_placement (log10 : number -> number) (p : jsstring)
  (mode : RoundingMode) (v : number) :
  findUnquotedSemicolon p = None ->
  gt v zero = true -> isFinite v = true -> wellFormed v ->
  let rules := parsePattern p in
  let bodyMode :=
    if useExponentialNotation rules then mode else mirror mode in
  let scaled := mul v (multiplier rules) in
  format log10 (instance p mode) (neg v)
  = (B <- formatted log10 (instance p bodyMode) scaled ;;
     Return (lit "-" ++ positivePrefix rules ++ B ++ positiveSuffix rules))
  /\ (mode <> CEILING -> mode <> FLOOR -> bodyMode = mode)
  /\ format log10 (instance p mode) v
     = (B <- formatted log10 (instance p mode) scaled ;;
        Return (positivePrefix rules ++ B ++ positiveSuffix rules)).
Proof.
  intros Hsemi Hgt Hfin Hwf. cbv zeta.
  destruct v as [s|s| |s mv ev]; try discriminate.
  destruct s; try discriminate.
  assert (Hp : isPositive (mul (S754_finite false mv ev)
                             (multiplier (parsePattern p))) = true).
  { apply mul_positive; [exact Hwf | apply parsePattern_multiplier]. }
  destruct (parsePattern_derived_negative p Hsemi) as [Hpre Hsuf].
  split; [| split].
  - rewrite (format_scaled_negative log10 (instance p mode)
               (S754_finite false mv ev) eq_refl eq_refl Hp).
    cbn [parsedPattern instance].
    rewrite Hpre, Hsuf, (formatted_mirror log10 p mode _ Hp).
    destruct (formatted log10 _ _) as [B|e]; cbn [bind]; [| reflexivity].
    rewrite <- app_assoc. reflexivity.
  - intros Hc Hf. destruct mode; try reflexivity; try contradiction;
      destruct (useExponentialNotation (parsePattern p)); reflexivity
      || contradiction.
  - apply (format_scaled_positive log10 (instance p mode)
             (S754_finite false mv ev) eq_refl eq_refl Hp).
Qed.

Lemma sign_placement_witness :
  let v := ofDecimal false 12345 (-2) in
  findUnquotedSemicolon (lit "$#,##0.00") = None
  /\ gt v zero = true /\ isFinite v = true /\ wellFormed v
  /\ format log10Approx (instance (lit "$#,##0.00") HALF_EVEN) (neg v)
     = Return (lit "-$123.45").
Proof.
  cbv zeta.
  assert (H1 : findUnquotedSemicolon (lit "$#,##0.00") = None) by reflexivity.
  assert (H2 : gt (ofDecimal false 12345 (-2)) zero = true) by reflexivity.
  assert (H3 : isFinite (ofDecimal false 12345 (-2)) = true) by reflexivity.
  assert (H4 : wellFormed (ofDecimal false 12345 (-2))) by reflexivity.
  split; [exact H1 | split; [exact H2 | split; [exact H3 | split; [exact H4 |]]]].
  rewrite (proj1 (sign_placement log10Approx (lit "$#,##0.00") HALF_EVEN
                    (ofDecimal false 12345 (-2)) H1 H2 H3 H4)).
  vm_compute. reflexivity.
Defined.

(** ** Integers *)

Lemma seq_refl_finite (s : bool) (m : positive) (e : Z) :
  seq (S754_finite s m e) (S754_finite s m e) = true.
Proof.
  unfold seq, SFeqb, SFcompare.
  rewrite Z.compare_refl, Pos.compare_cont_refl. destruct s; reflexivity.
Qed.


Lemma digits2_shift (q : positive) (k : Z) (m : positive) :
  0 <= k -> Zpos m = Zpos q * 2 ^ k ->
  Zpos (digits2_pos m) = Zpos (digits2_pos q) + k.
Proof.
  intros Hk Hm. rewrite !digits2_log2, Hm.
  rewrite Z.log2_mul_pow2 by lia. lia.
Qed.


(** ** What [toFixed] throws *)

Lemma toFixed_outcome (x : number) (f : Z) :
  (0 <= f <= 100 -> exists s, toFixed x f = Return s)
  /\ ((exists s, toFixed x f = Return s) \/ toFixed x f = Throw RangeError).
Proof.
  unfold toFixed.
  destruct ((f <? 0) || (100 <? f)) eqn:Hf.
  - split; [| right; reflexivity].
    intros H. apply orb_prop in Hf. destruct Hf as [Hf | Hf];
      [apply Z.ltb_lt in Hf | apply Z.ltb_lt in Hf]; lia.
  - assert (H : exists s,
               match x with
               | S754_zero _ =>
                   Return (if f =? 0 then lit "0"
                           else lit "0." ++ repeat_unit (ch "0") f)
               | S754_finite s m e =>
                   let sg := if s then lit "-" else [] in
                   let '(p, q) := fraction m e in
                   if 10 ^ 21 * q <=? p then Return (sg ++ toStringFinite m e)
                   else
                     let n := (2 * p * 10 ^ f + q) / (2 * q) in
                     let ds := digitsOfZ n in
                     if f =? 0 then Return (sg ++ ds)
                     else
                       let ds' := if len ds <=? f then padStart0 ds (f + 1)
                                  else ds in
                       let a := Z.to_nat (len ds' - f) in
                       Return (sg ++ firstn a ds' ++ lit "." ++ skipn a ds')
               | _ => Return (toString x)
               end = Return s).
    { destruct x as [s|s| |s m e]; try (eexists; reflexivity).
      cbv zeta. destruct (fraction m e) as [p q].
      destruct (10 ^ 21 * q <=? p); [eexists; reflexivity |].
      destruct (f =? 0); eexists; reflexivity. }
    split; [intros _; exact H | left; exact H].
Qed.

(** ** The mode UNNECESSARY *)



Lemma formatStandard_outcome (this : DecimalFormat) (value : number) :
  match round this value (maxFractionDigits (parsedPattern this)) with
  | Return _ => exists s, formatStandard this value = Return s
  | Throw e => formatStandard this value = Throw e
  end.
Proof.
  unfold formatStandard.
  destruct (round this value _) as [r|e]; cbn [bind]; [| reflexivity].
  destruct ((0 <? len _) || _); eauto.
Qed.






(** ** The empty integer part *)

Lemma applyGrouping_empty (groupSize : Z) : applyGrouping [] groupSize = [].
Proof. reflexivity. Qed.

(** C9: in standard rendering, when [minIntegerDigits] is 0 and the integer
    digit string of the rounded value is exactly [0], the integer part is
    emitted empty: the number body is the decimal point and the fraction
    digits, or nothing at all; so the pattern [###.##] formats 0.5 as [.5]. *)
Theorem optional_integer_zero_suppressed (this : DecimalFormat)
  (value rounded : number) :
  minIntegerDigits (parsedPattern this) = 0 ->
  round this value (maxFractionDigits (parsedPattern this)) = Return rounded ->
  integerPartOf this rounded = lit "0" ->
  formatStandard this value
  = (let fractionPart :=
       trimZeros (minFractionDigits (parsedPattern this))
         (fractionPartOf this rounded) in
     if (0 <? len fractionPart)
        || decimalSeparatorAlwaysShown (parsedPattern this)
     then Return (lit "." ++ fractionPart)
     else Return [])
  /\ (forall log10 : number -> number,
        format log10 (new (Some (lit "###.##"))) (ofDecimal false 5 (-1))
        = Return (lit ".5")).
Proof.
  intros Hmin Hround Hint. split; [| intros log10; vm_compute; reflexivity].
  unfold formatStandard. rewrite Hround. cbn [bind].
  rewrite Hmin, Hint. cbn [Z.eqb str_eqb andb].
  change (str_eqb (lit "0") (lit "0")) with true. cbv iota.
  assert (Hg : (if groupingUsed (parsedPattern this)
                   && (0 <? groupingSize (parsedPattern this))
                then applyGrouping [] (groupingSize (parsedPattern this))
                else []) = []).
  { destruct (_ && _); reflexivity. }
  rewrite Hg. reflexivity.
Qed.

Lemma optional_integer_zero_suppressed_witness :
  let this := new (Some (lit "###.##")) in
  let v := ofDecimal false 5 (-1) in
  minIntegerDigits (parsedPattern this) = 0
  /\ round this v (maxFractionDigits (parsedPattern this)) = Return v
  /\ integerPartOf this v = lit "0"
  /\ formatStandard this v = Return (lit ".5").
Proof.
  cbv zeta.
  assert (H1 : minIntegerDigits (parsedPattern (new (Some (lit "###.##")))) = 0)
    by reflexivity.
  assert (H2 : round (new (Some (lit "###.##"))) (ofDecimal false 5 (-1))
                 (maxFractionDigits (parsedPattern (new (Some (lit "###.##")))))
               = Return (ofDecimal false 5 (-1)))
    by (vm_compute; reflexivity).
  assert (H3 : integerPartOf (new (Some (lit "###.##")))
                 (ofDecimal false 5 (-1)) = lit "0")
    by (vm_compute; reflexivity).
  split; [exact H1 | split; [exact H2 | split; [exact H3 |]]].
  rewrite (proj1 (optional_integer_zero_suppressed _ _ _ H1 H2 H3)).
  vm_compute. reflexivity.
Defined.

(** * Further properties of the pattern compiler *)

(** ** The separator of the two sub-patterns *)

Lemma findUnquotedSemicolonFrom_sound (p : jsstring) :
  forall (q : bool) (i j : nat),
    findUnquotedSemicolonFrom q i p = Some j ->
    (i <= j < i + List.length p)%nat /\ nth (j - i) p 0%N = ch ";".
Proof.
  induction p as [|c p IH]; intros q i j; cbn [findUnquotedSemicolonFrom];
    [discriminate |].
  destruct (isCh "'" c) eqn:Hq.
  - intros H. apply IH in H. destruct H as [Hr Hn]. cbn [List.length].
    split; [lia |].
    replace (j - i)%nat with (S (j - S i)) by lia. exact Hn.
  - destruct (isCh ";" c && negb q) eqn:Hs.
    + intros H. injection H as <-. cbn [List.length]. split; [lia |].
      rewrite Nat.sub_diag. cbn [nth].
      apply andb_prop in Hs. destruct Hs as [Hs _].
      apply N.eqb_eq in Hs. exact Hs.
    + intros H. apply IH in H. destruct H as [Hr Hn]. cbn [List.length].
      split; [lia |].
      replace (j - i)%nat with (S (j - S i)) by lia. exact Hn.
Qed.

Lemma findUnquotedSemicolonFrom_none (p : jsstring) :
  (forall c, In c p -> isCh ";" c = false) ->
  forall (q : bool) (i : nat), findUnquotedSemicolonFrom q i p = None.
Proof.
  induction p as [|c p IH]; intros Hp q i; cbn [findUnquotedSemicolonFrom];
    [reflexivity |].
  rewrite (Hp c (or_introl eq_refl)). cbn [andb].
  assert (Hp' : forall d, In d p -> isCh ";" d = false)
    by (intros d Hd; apply Hp; right; exact Hd).
  destruct (isCh "'" c); apply IH; exact Hp'.
Qed.

Lemma findUnquotedSemicolonFrom_unquoted (p : jsstring) :
  (forall c, In c p -> isCh "'" c = false) ->
  forall i : nat,
    findUnquotedSemicolonFrom false i p
    = option_map (fun j => (i + j)%nat) (indexOf (ch ";") p).
Proof.
  induction p as [|c p IH]; intros Hp i;
    cbn [findUnquotedSemicolonFrom indexOf]; [reflexivity |].
  rewrite (Hp c (or_introl eq_refl)). cbn [negb]. rewrite andb_true_r.
  unfold isCh at 1.
  destruct (N.eqb c (ch ";")); cbn [option_map].
  - f_equal. lia.
  - rewrite IH by (intros d Hd; apply Hp; right; exact Hd).
    destruct (indexOf (ch ";") p); cbn [option_map]; [f_equal; lia | reflexivity].
Qed.

(** X1: [findUnquotedSemicolon] returns the index of a [;] of the pattern;
    it returns nothing when the pattern has no [;]; and in a pattern without
    quotes it returns the index of the first [;]. *)
Theorem findUnquotedSemicolon_index (p : jsstring) :
  (forall i : nat, findUnquotedSemicolon p = Some i ->
     (i < List.length p)%nat /\ nth i p 0%N = ch ";")
  /\ ((forall c, In c p -> isCh ";" c = false) ->
      findUnquotedSemicolon p = None)
  /\ ((forall c, In c p -> isCh "'" c = false) ->
      findUnquotedSemicolon p = indexOf (ch ";") p).
Proof.
  unfold findUnquotedSemicolon. split; [| split].
  - intros i H. apply findUnquotedSemicolonFrom_sound in H.
    rewrite Nat.sub_0_r in H. destruct H as [Hr Hn]. split; [lia | exact Hn].
  - intros Hp. apply findUnquotedSemicolonFrom_none. exact Hp.
  - intros Hp. rewrite (findUnquotedSemicolonFrom_unquoted p Hp 0).
    destruct (indexOf (ch ";") p); reflexivity.
Qed.

Lemma findUnquotedSemicolon_index_witness :
  findUnquotedSemicolon (lit "$#,##0.00;($#,##0.00)") = Some 9%nat
  /\ nth 9 (lit "$#,##0.00;($#,##0.00)") 0%N = ch ";"
  /\ findUnquotedSemicolon (lit "#,##0.###") = None.
Proof.
  split; [reflexivity |]. split.
  - apply (proj1 (findUnquotedSemicolon_index (lit "$#,##0.00;($#,##0.00)"))).
    reflexivity.
  - apply (proj1 (proj2 (findUnquotedSemicolon_index (lit "#,##0.###")))).
    intros c Hc. repeat (destruct Hc as [<- | Hc]; [reflexivity |]).
    destruct Hc.
Defined.

Lemma findUnquotedSemicolonFrom_app (s t : jsstring) :
  forall (q : bool) (i : nat),
    findUnquotedSemicolonFrom q i (s ++ t)
    = match findUnquotedSemicolonFrom q i s with
      | Some j => Some j
      | None =>
          findUnquotedSemicolonFrom (inQuoteAfter q s)
            (i + List.length s) t
      end.
Proof.
  induction s as [|c s IH]; intros q i;
    cbn [app findUnquotedSemicolonFrom inQuoteAfter fold_left List.length].
  - rewrite Nat.add_0_r. reflexivity.
  - fold (inQuoteAfter (if isCh "'" c then negb q else q) s).
    destruct (isCh "'" c).
    + rewrite IH. replace (S i + List.length s)%nat
        with (i + S (List.length s))%nat by lia. reflexivity.
    + destruct (isCh ";" c && negb q); [reflexivity |].
      rewrite IH. replace (S i + List.length s)%nat
        with (i + S (List.length s))%nat by lia. reflexivity.
Qed.

Lemma inQuoteAfter_unquoted (s : jsstring) (q : bool) :
  (forall c, In c s -> isCh "'" c = false) -> inQuoteAfter q s = q.
Proof.
  revert q. induction s as [|c s IH]; intros q Hs; [reflexivity |].
  unfold inQuoteAfter. cbn [fold_left].
  rewrite (Hs c (or_introl eq_refl)).
  apply IH. intros d Hd. apply Hs. right. exact Hd.
Qed.

(** X2: a [;] inside a quoted span does not separate the sub-patterns: after
    a quoted literal [s] the search goes on in the rest of the pattern. *)
Theorem findUnquotedSemicolon_skips_quoted (s t : jsstring) :
  (forall c, In c s -> isCh "'" c = false) ->
  findUnquotedSemicolon (lit "'" ++ s ++ lit "'" ++ t)
  = option_map (fun j => (List.length s + 2 + j)%nat)
      (findUnquotedSemicolon t).
Proof.
  intros Hs. unfold findUnquotedSemicolon.
  cbn [lit app findUnquotedSemicolonFrom].
  change (isCh "'" (ch "'")) with true. cbv iota. cbn [negb].
  rewrite findUnquotedSemicolonFrom_app.
  assert (Hnone : findUnquotedSemicolonFrom true 1 s = None).
  { clear t. generalize 1%nat.
    induction s as [|c s IH]; intros i; cbn [findUnquotedSemicolonFrom];
      [reflexivity |].
    rewrite (Hs c (or_introl eq_refl)). cbn [negb]. rewrite andb_false_r.
    apply IH. intros d Hd. apply Hs. right. exact Hd. }
  rewrite Hnone, (inQuoteAfter_unquoted s true Hs).
  cbn [findUnquotedSemicolonFrom].
  change (isCh "'" (ch "'")) with true. cbv iota. cbn [negb].
  assert (Hshift : forall (u : jsstring) (q : bool) (i k : nat),
             findUnquotedSemicolonFrom q (k + i) u
             = option_map (fun j => (k + j)%nat)
                 (findUnquotedSemicolonFrom q i u)).
  { induction u as [|c u IH]; intros q i k;
      cbn [findUnquotedSemicolonFrom]; [reflexivity |].
    destruct (isCh "'" c).
    - replace (S (k + i)) with (k + S i)%nat by lia. apply IH.
    - destruct (isCh ";" c && negb q); [reflexivity |].
      replace (S (k + i)) with (k + S i)%nat by lia. apply IH. }
  replace (S (1 + List.length s)) with (List.length s + 2 + 0)%nat by lia.
  apply Hshift.
Qed.

Lemma findUnquotedSemicolon_skips_quoted_witness :
  findUnquotedSemicolon (lit "'a;b'0;-0") = Some 6%nat.
Proof.
  change (lit "'a;b'0;-0") with (lit "'" ++ lit "a;b" ++ lit "'" ++ lit "0;-0").
  rewrite findUnquotedSemicolon_skips_quoted; [reflexivity |].
  intros c Hc. repeat (destruct Hc as [<- | Hc]; [reflexivity |]).
  destruct Hc.
Defined.

(** ** Invariants of the compiled rules *)

Lemma scanStep_minExponentDigits (sc : scanner) (c : codeunit) :
  0 <= scMinExponentDigits sc ->
  0 <= scMinExponentDigits (scanStep sc c).
Proof.
  destruct sc as [pre suf num useE minE mult st q]. cbn [scMinExponentDigits].
  intros H. unfold scanStep.
  destruct (isCh "'" c); [exact H |].
  destruct q; [destruct st; exact H |].
  destruct st; try destruct (isDigitChar c); try destruct (isCh "0" c);
    try destruct (isCh "E" c || isCh "e" c); cbn [scMinExponentDigits]; lia.
Qed.

Lemma scan_minExponentDigits (s : jsstring) :
  0 <= scMinExponentDigits (scan s).
Proof.
  unfold scan.
  assert (H : 0 <= scMinExponentDigits scanInit) by (cbn; lia).
  revert H. generalize scanInit.
  induction s as [|c s IH]; intros sc H; cbn [fold_left]; [exact H |].
  apply IH, scanStep_minExponentDigits, H.
Qed.

Lemma lastIndexOf_bound (c : codeunit) (s : jsstring) (i : nat) :
  lastIndexOf c s = Some i -> (i < List.length s)%nat.
Proof.
  revert i. induction s as [|x s IH]; intros i; cbn [lastIndexOf List.length];
    [discriminate |].
  destruct (lastIndexOf c s) as [j|].
  - intros H. injection H as <-. specialize (IH j eq_refl). lia.
  - destruct (N.eqb x c); [| discriminate].
    intros H. injection H as <-. lia.
Qed.

Lemma len_nonneg (s : jsstring) : 0 <= len s.
Proof. unfold len. lia. Qed.

Lemma countChar_nonneg (a : ascii) (s : jsstring) : 0 <= countChar a s.
Proof. apply len_nonneg. Qed.

Lemma parseSubpattern_invariants (s : jsstring) :
  let r := parseSubpattern s in
  0 <= Sub.minIntegerDigits r <= Sub.maxIntegerDigits r
  /\ 0 <= Sub.minFractionDigits r <= Sub.maxFractionDigits r
  /\ 0 <= Sub.groupingSize r
  /\ (Sub.groupingUsed r = false -> Sub.groupingSize r = 0)
  /\ 0 <= Sub.minExponentDigits r
  /\ isPatternMultiplier (Sub.multiplier r).
Proof.
  cbv zeta.
  destruct (parseSubpattern_scanned s) as (_ & _ & Hm & _ & He).
  rewrite Hm, He.
  pose proof (scan_minExponentDigits s) as HE.
  pose proof (scan_multiplier s) as HM.
  unfold parseSubpattern.
  destruct (scNumberPart (scan s)) as [|c n].
  - cbn. unfold MAX_SAFE_INTEGER. repeat split; try lia; assumption.
  - destruct (indexOf (ch ".") (c :: n)) as [dot|];
      match goal with
      | |- context [lastIndexOf ?x ?ip] =>
          pose proof (lastIndexOf_bound x ip) as Hl;
          pose proof (len_nonneg ip) as Hlen;
          pose proof (countChar_nonneg "0" ip);
          pose proof (countChar_nonneg "#" ip);
          destruct (lastIndexOf x ip) as [lc|]
      end;
      try specialize (Hl lc eq_refl);
      cbn [Sub.minIntegerDigits Sub.maxIntegerDigits Sub.minFractionDigits
           Sub.maxFractionDigits Sub.groupingSize Sub.groupingUsed];
      repeat match goal with
      | |- context [countChar ?a ?x] =>
          lazymatch goal with
          | _ : 0 <= countChar a x |- _ => fail
          | _ => pose proof (countChar_nonneg a x)
          end
      end;
      unfold len in *; repeat split; try lia; try assumption;
      try discriminate.
Qed.

(** X3: the rules compiled from any pattern satisfy
    [0 <= minIntegerDigits <= maxIntegerDigits],
    [0 <= minFractionDigits <= maxFractionDigits], a grouping size that is
    not negative and is 0 when grouping is not used, exponent digits that are
    not negative, and a multiplier that is 1, 100 or 1000. *)
Theorem parsePattern_invariants (p : jsstring) :
  let rules := parsePattern p in
  0 <= minIntegerDigits rules <= maxIntegerDigits rules
  /\ 0 <= minFractionDigits rules <= maxFractionDigits rules
  /\ 0 <= groupingSize rules
  /\ (groupingUsed rules = false -> groupingSize rules = 0)
  /\ 0 <= minExponentDigits rules
  /\ (multiplier rules = ofZ 1 \/ multiplier rules = ofZ 100
      \/ multiplier rules = ofZ 1000).
Proof.
  cbv zeta. unfold parsePattern.
  cbn [minIntegerDigits maxIntegerDigits minFractionDigits maxFractionDigits
       groupingSize groupingUsed minExponentDigits multiplier].
  apply parseSubpattern_invariants.
Qed.

Lemma parsePattern_invariants_witness :
  let rules := parsePattern (lit "#,##0.00%;(#)") in
  0 <= minIntegerDigits rules <= maxIntegerDigits rules
  /\ 0 <= minFractionDigits rules <= maxFractionDigits rules
  /\ 0 <= groupingSize rules
  /\ (groupingUsed rules = false -> groupingSize rules = 0)
  /\ 0 <= minExponentDigits rules
  /\ (multiplier rules = ofZ 1 \/ multiplier rules = ofZ 100
      \/ multiplier rules = ofZ 1000).
Proof.
  exact (parsePattern_invariants (lit "#,##0.00%;(#)")).
Defined.

(** ** The two sub-patterns *)

Lemma findUnquotedSemicolon_split (pos neg : jsstring) :
  findUnquotedSemicolon pos = None ->
  inQuoteAfter false pos = false ->
  findUnquotedSemicolon (pos ++ lit ";" ++ neg) = Some (List.length pos).
Proof.
  unfold findUnquotedSemicolon. intros Hnone Hq.
  rewrite findUnquotedSemicolonFrom_app, Hnone, Hq. reflexivity.
Qed.

(** X4: when the positive sub-pattern [pos] has no unquoted [;] and closes
    its quotes, the pattern [pos;neg] compiles to the rules of [pos] alone,
    except for the negative prefix and suffix: these come from [neg] when
    [neg] is not empty, and are the derived ones (a minus sign before the
    positive prefix, the positive suffix) when [neg] is empty.  The digit
    characters of [neg] are never counted. *)
Theorem parsePattern_split (pos neg : jsstring) :
  findUnquotedSemicolon pos = None ->
  inQuoteAfter false pos = false ->
  let rules := parsePattern pos in
  parsePattern (pos ++ lit ";" ++ neg)
  = {| positivePrefix := positivePrefix rules;
       positiveSuffix := positiveSuffix rules;
       negativePrefix :=
         match neg with
         | [] => lit "-" ++ positivePrefix rules
         | _ => Sub.prefix (parseSubpattern neg)
         end;
       negativeSuffix :=
         match neg with
         | [] => positiveSuffix rules
         | _ => Sub.suffix (parseSubpattern neg)
         end;
       minIntegerDigits := minIntegerDigits rules;
       maxIntegerDigits := maxIntegerDigits rules;
       minFractionDigits := minFractionDigits rules;
       maxFractionDigits := maxFractionDigits rules;
       groupingSize := groupingSize rules;
       groupingUsed := groupingUsed rules;
       decimalSeparatorAlwaysShown := decimalSeparatorAlwaysShown rules;
       useExponentialNotation := useExponentialNotation rules;
       minExponentDigits := minExponentDigits rules;
       multiplier := multiplier rules |}.
Proof.
  intros Hnone Hq. cbv zeta.
  unfold parsePattern at 1.
  rewrite (findUnquotedSemicolon_split pos neg Hnone Hq).
  unfold substring, substringFrom. rewrite Nat.sub_0_r.
  replace (skipn (S (List.length pos)) (pos ++ lit ";" ++ neg)) with neg.
  2:{ clear. induction pos as [|c pos IH]; [reflexivity | exact IH]. }
  change (skipn 0 (pos ++ lit ";" ++ neg)) with (pos ++ lit ";" ++ neg).
  rewrite firstn_app, Nat.sub_diag, firstn_all. cbn [firstn].
  rewrite app_nil_r.
  unfold parsePattern. rewrite Hnone.
  destruct neg; reflexivity.
Qed.

Lemma parsePattern_split_witness :
  parsePattern (lit "$#,##0.00" ++ lit ";" ++ lit "(0)")
  = {| positivePrefix := lit "$"; positiveSuffix := [];
       negativePrefix := lit "("; negativeSuffix := lit ")";
       minIntegerDigits := 1; maxIntegerDigits := 4;
       minFractionDigits := 2; maxFractionDigits := 2;
       groupingSize := 3; groupingUsed := true;
       decimalSeparatorAlwaysShown := false;
       useExponentialNotation := false; minExponentDigits := 0;
       multiplier := ofZ 1 |}.
Proof.
  rewrite (parsePattern_split (lit "$#,##0.00") (lit "(0)") eq_refl eq_refl).
  reflexivity.
Defined.

(** ** Plain patterns *)

Lemma scan_literal_prefix (pre : jsstring) :
  (forall c, In c pre -> isLiteral c = true) ->
  forall (p suf num : jsstring) (useE : bool) (minE : Z) (mult : number),
    fold_left scanStep pre (Build_scanner p suf num useE minE mult InPrefix false)
    = Build_scanner (p ++ pre) suf num useE minE mult InPrefix false.
Proof.
  induction pre as [|c pre IH]; intros Hpre p suf num useE minE mult;
    cbn [fold_left]; [rewrite app_nil_r; reflexivity |].
  pose proof (Hpre c (or_introl eq_refl)) as Hc.
  unfold isLiteral in Hc.
  apply andb_prop in Hc. destruct Hc as [Hc Hperm].
  apply andb_prop in Hc. destruct Hc as [Hc Hpct].
  apply andb_prop in Hc. destruct Hc as [Hq Hd].
  apply negb_true_iff in Hq, Hd, Hpct, Hperm.
  unfold scanStep at 2. rewrite Hq, Hd. unfold scaleOf. rewrite Hpct, Hperm.
  rewrite IH by (intros d Hin; apply Hpre; right; exact Hin).
  rewrite <- app_assoc. reflexivity.
Qed.

Lemma isDigitChar_not_quote (c : codeunit) :
  isDigitChar c = true -> isCh "'" c = false.
Proof.
  unfold isDigitChar, isCh. intros H.
  repeat (apply orb_prop in H; destruct H as [H | H]);
    apply N.eqb_eq in H; subst; reflexivity.
Qed.

Lemma scan_number_chars (num : jsstring) :
  (forall c, In c num -> isDigitChar c = true) ->
  forall (p suf n : jsstring) (useE : bool) (minE : Z) (mult : number),
    fold_left scanStep num (Build_scanner p suf n useE minE mult InNumber false)
    = Build_scanner p suf (n ++ num) useE minE mult InNumber false.
Proof.
  induction num as [|c num IH]; intros Hnum p suf n useE minE mult;
    cbn [fold_left]; [rewrite app_nil_r; reflexivity |].
  pose proof (Hnum c (or_introl eq_refl)) as Hc.
  unfold scanStep at 2. rewrite (isDigitChar_not_quote c Hc), Hc.
  rewrite IH by (intros d Hin; apply Hnum; right; exact Hin).
  rewrite <- app_assoc. reflexivity.
Qed.

Lemma scan_number_start (num : jsstring) :
  (forall c, In c num -> isDigitChar c = true) -> num <> [] ->
  forall (p suf n : jsstring) (useE : bool) (minE : Z) (mult : number),
    fold_left scanStep num (Build_scanner p suf n useE minE mult InPrefix false)
    = Build_scanner p suf (n ++ num) useE minE mult InNumber false.
Proof.
  intros Hnum Hne p suf n useE minE mult.
  destruct num as [|c num]; [contradiction |]. cbn [fold_left].
  pose proof (Hnum c (or_introl eq_refl)) as Hc.
  unfold scanStep at 2. rewrite (isDigitChar_not_quote c Hc), Hc.
  rewrite scan_number_chars by (intros d Hin; apply Hnum; right; exact Hin).
  rewrite <- app_assoc. reflexivity.
Qed.

Lemma scan_suffix_chars (suf : jsstring) :
  (forall c, In c suf -> isCh "'" c = false) ->
  forall (p s n : jsstring) (useE : bool) (minE : Z) (mult : number),
    fold_left scanStep suf (Build_scanner p s n useE minE mult InSuffix false)
    = Build_scanner p (s ++ suf) n useE minE mult InSuffix false.
Proof.
  induction suf as [|c suf IH]; intros Hsuf p s n useE minE mult;
    cbn [fold_left]; [rewrite app_nil_r; reflexivity |].
  unfold scanStep at 2. rewrite (Hsuf c (or_introl eq_refl)).
  rewrite IH by (intros d Hin; apply Hsuf; right; exact Hin).
  rewrite <- app_assoc. reflexivity.
Qed.

Lemma scan_suffix_start (suf : jsstring) :
  (forall c, In c suf -> isCh "'" c = false) ->
  match suf with
  | c :: _ => isDigitChar c = false /\ isCh "E" c = false /\ isCh "e" c = false
  | [] => True
  end ->
  forall (p n : jsstring) (useE : bool) (minE : Z) (mult : number),
    fold_left scanStep suf (Build_scanner p [] n useE minE mult InNumber false)
    = Build_scanner p suf n useE minE
        match suf with
        | c :: _ => scaleOf c mult
        | [] => mult
        end
        match suf with
        | _ :: _ => InSuffix
        | [] => InNumber
        end false.
Proof.
  intros Hsuf Hfirst p n useE minE mult.
  destruct suf as [|c suf]; [reflexivity |]. cbn [fold_left].
  destruct Hfirst as (Hd & HE & He).
  unfold scanStep at 2. rewrite (Hsuf c (or_introl eq_refl)), Hd, HE, He.
  cbn [orb].
  rewrite scan_suffix_chars by (intros d Hin; apply Hsuf; right; exact Hin).
  reflexivity.
Qed.

Lemma indexOf_repeat (c x : codeunit) (n : nat) (t : jsstring) :
  N.eqb x c = false ->
  indexOf c (List.repeat x n ++ t) = option_map (fun i => (n + i)%nat) (indexOf c t).
Proof.
  intros Hx. induction n as [|n IH]; cbn [List.repeat app indexOf].
  - destruct (indexOf c t); reflexivity.
  - rewrite Hx, IH. destruct (indexOf c t); reflexivity.
Qed.

Lemma lastIndexOf_absent (c : codeunit) (s : jsstring) :
  (forall x, In x s -> N.eqb x c = false) -> lastIndexOf c s = None.
Proof.
  induction s as [|x s IH]; intros Hs; cbn [lastIndexOf]; [reflexivity |].
  rewrite IH by (intros y Hy; apply Hs; right; exact Hy).
  rewrite (Hs x (or_introl eq_refl)). reflexivity.
Qed.

Lemma countChar_app (a : ascii) (s t : jsstring) :
  countChar a (s ++ t) = countChar a s + countChar a t.
Proof.
  unfold countChar, len. rewrite filter_app, length_app. lia.
Qed.

Lemma countChar_repeat (a : ascii) (x : codeunit) (n : nat) :
  countChar a (List.repeat x n) = if isCh a x then Z.of_nat n else 0.
Proof.
  unfold countChar, len. induction n as [|n IH]; cbn [List.repeat filter].
  - destruct (isCh a x); reflexivity.
  - destruct (isCh a x); cbn [List.length]; lia.
Qed.

Lemma numberText_chars (a b : nat) (frac : option (nat * nat)) (c : codeunit) :
  In c (numberText a b frac) -> isDigitChar c = true.
Proof.
  unfold numberText, hashes, zeros. intros H.
  repeat (apply in_app_or in H; destruct H as [H | H]);
    try (apply repeat_spec in H; subst; reflexivity).
  destruct frac as [[c0 d]|]; [| destruct H].
  repeat (apply in_app_or in H; destruct H as [H | H]);
    try (apply repeat_spec in H; subst; reflexivity).
  destruct H as [<- | []]. reflexivity.
Qed.

Lemma parseSubpattern_number (s : jsstring) :
  scNumberPart (scan s) <> [] ->
  parseSubpattern s
  = let sc := scan s in
    let numberPart := scNumberPart sc in
    let '(integerPart, fractionPart, alwaysShown) :=
      match indexOf (ch ".") numberPart with
      | Some dotIndex =>
          let fractionPart := substringFrom numberPart (S dotIndex) in
          (substring numberPart 0 dotIndex, fractionPart,
           len fractionPart =? 0)
      | None => (numberPart, [], false)
      end in
    let '(groupingUsed, groupingSize) :=
      match lastIndexOf (ch ",") integerPart with
      | Some lastComma => (true, len integerPart - Z.of_nat lastComma - 1)
      | None => (false, 0)
      end in
    let zeroCount := countChar "0" integerPart in
    let hashCount := countChar "#" integerPart in
    Sub.mk (scPrefix sc) (scSuffix sc)
      zeroCount (zeroCount + hashCount)
      (countChar "0" fractionPart)
      (countChar "0" fractionPart + countChar "#" fractionPart)
      groupingSize groupingUsed alwaysShown
      (scUseExponentialNotation sc) (scMinExponentDigits sc)
      (scMultiplier sc).
Proof.
  intros Hne. unfold parseSubpattern.
  destruct (scNumberPart (scan s)); [contradiction | reflexivity].
Qed.

Lemma firstn_length_app (s t : jsstring) :
  firstn (List.length s) (s ++ t) = s.
Proof.
  rewrite firstn_app, Nat.sub_diag, firstn_all. cbn [firstn].
  apply app_nil_r.
Qed.

Lemma skipn_length_app (s t : jsstring) (c : codeunit) :
  skipn (S (List.length s)) (s ++ c :: t) = t.
Proof. induction s as [|x s IH]; [reflexivity | exact IH]. Qed.

Lemma scan_plain (pre suf : jsstring) (a b : nat) (frac : option (nat * nat)) :
  (forall c, In c pre -> isLiteral c = true) ->
  (forall c, In c suf -> isCh "'" c = false) ->
  match suf with
  | c :: _ => isDigitChar c = false /\ isCh "E" c = false /\ isCh "e" c = false
  | [] => True
  end ->
  numberText a b frac <> [] ->
  scan (pre ++ numberText a b frac ++ suf)
  = Build_scanner pre suf (numberText a b frac) false 0
      match suf with
      | c :: _ => scaleOf c (ofZ 1)
      | [] => ofZ 1
      end
      match suf with
      | _ :: _ => InSuffix
      | [] => InNumber
      end false.
Proof.
  intros Hpre Hsuf Hfirst Hne. unfold scan, scanInit.
  rewrite !fold_left_app.
  rewrite (scan_literal_prefix pre Hpre).
  rewrite (scan_number_start _ (numberText_chars a b frac) Hne).
  rewrite (scan_suffix_start suf Hsuf Hfirst). reflexivity.
Qed.

(** X5: a sub-pattern made of literal text, [a] times [#], [b] times [0],
    optionally a point with [c] times [0] and [d] times [#], and a suffix
    compiles to that prefix and suffix, [b] minimal and [a + b] maximal
    integer digits, [c] minimal and [c + d] maximal fraction digits, no
    grouping, and a separator that is always shown only when the point is
    the last character of the number.  Only the first character of the
    suffix can set the multiplier: [%] there gives 100, the per-mille sign
    1000, and a later [%] leaves it at 1. *)
Theorem parseSubpattern_plain (pre suf : jsstring) (a b : nat)
  (frac : option (nat * nat)) :
  (forall c, In c pre -> isLiteral c = true) ->
  (forall c, In c suf -> isCh "'" c = false) ->
  match suf with
  | c :: _ => isDigitChar c = false /\ isCh "E" c = false /\ isCh "e" c = false
  | [] => True
  end ->
  numberText a b frac <> [] ->
  parseSubpattern (pre ++ numberText a b frac ++ suf)
  = Sub.mk pre suf (Z.of_nat b) (Z.of_nat b + Z.of_nat a)
      match frac with Some (c, _) => Z.of_nat c | None => 0 end
      match frac with
      | Some (c, d) => Z.of_nat c + Z.of_nat d
      | None => 0
      end
      0 false
      match frac with Some (O, O) => true | _ => false end
      false 0
      match suf with
      | c :: _ => scaleOf c (ofZ 1)
      | [] => ofZ 1
      end.
Proof.
  intros Hpre Hsuf Hfirst Hne.
  pose proof (scan_plain pre suf a b frac Hpre Hsuf Hfirst Hne) as Hscan.
  rewrite parseSubpattern_number by (rewrite Hscan; exact Hne).
  rewrite Hscan. cbv zeta.
  cbn [scNumberPart scPrefix scSuffix scUseExponentialNotation
       scMinExponentDigits scMultiplier].
  set (ip := hashes a ++ zeros b).
  assert (Hlen : List.length ip = (a + b)%nat).
  { subst ip. unfold hashes, zeros. rewrite length_app, !repeat_length.
    reflexivity. }
  assert (Hcomma : lastIndexOf (ch ",") ip = None).
  { apply lastIndexOf_absent. subst ip. unfold hashes, zeros.
    intros x Hx. apply in_app_or in Hx.
    destruct Hx as [Hx | Hx]; apply repeat_spec in Hx; subst; reflexivity. }
  assert (Hzero : countChar "0" ip = Z.of_nat b).
  { subst ip. unfold hashes, zeros.
    rewrite countChar_app, !countChar_repeat. reflexivity. }
  assert (Hhash : countChar "#" ip = Z.of_nat a).
  { subst ip. unfold hashes, zeros.
    rewrite countChar_app, !countChar_repeat. cbn. lia. }
  unfold numberText. fold ip. rewrite app_assoc. fold ip.
  destruct frac as [[c d]|].
  - assert (Hdot : indexOf (ch ".") (ip ++ lit "." ++ zeros c ++ hashes d)
                   = Some (List.length ip)).
    { subst ip. unfold hashes, zeros at 1. rewrite <- app_assoc.
      rewrite !indexOf_repeat by reflexivity.
      cbn [lit app indexOf]. change (N.eqb (ch ".") (ch ".")) with true.
      cbn [option_map]. unfold hashes, zeros.
      rewrite length_app, !repeat_length.
      f_equal. lia. }
    rewrite Hdot. unfold substring, substringFrom.
    rewrite Nat.sub_0_r.
    change (skipn 0 ?x) with x. rewrite firstn_length_app.
    cbn [lit app]. rewrite skipn_length_app.
    rewrite Hcomma, Hzero, Hhash.
    rewrite !countChar_app. unfold zeros, hashes.
    rewrite !countChar_repeat.
    change (isCh "0" (ch "0")) with true. change (isCh "0" (ch "#")) with false.
    change (isCh "#" (ch "0")) with false. change (isCh "#" (ch "#")) with true.
    cbv iota. rewrite !Z.add_0_r, !Z.add_0_l.
    f_equal.
    unfold len. rewrite length_app, !repeat_length.
    destruct c, d; reflexivity.
  - rewrite app_nil_r.
    assert (Hdot : indexOf (ch ".") ip = None).
    { subst ip. unfold hashes, zeros.
      rewrite <- (app_nil_r (List.repeat (ch "0") b)).
      rewrite !indexOf_repeat by reflexivity. reflexivity. }
    rewrite Hdot, Hcomma, Hzero, Hhash. reflexivity.
Qed.

Lemma parseSubpattern_plain_witness :
  parseSubpattern (lit "$" ++ numberText 2 1 (Some (2, 1)) ++ lit " %")%nat
  = Sub.mk (lit "$") (lit " %") 1 3 2 3 0 false false false 0 (ofZ 1)
  /\ Sub.multiplier
       (parseSubpattern ([] ++ numberText 0 1 None ++ lit "%")) = ofZ 100.
Proof.
  split.
  - rewrite parseSubpattern_plain; [reflexivity | | | | discriminate].
    + intros c [<- | []]. reflexivity.
    + intros c [<- | [<- | []]]; reflexivity.
    + repeat split.
  - rewrite parseSubpattern_plain; [reflexivity | | | | discriminate].
    + intros c [].
    + intros c [<- | []]. reflexivity.
    + repeat split.
Defined.

(** * Further properties of the renderer *)

(** ** Grouping *)

Lemma groupFrom_filter (groupSize : Z) (reversed : jsstring) :
  (forall c, In c reversed -> isCh "," c = false) ->
  forall (i : Z) (grouped : jsstring),
    filter (fun c => negb (isCh "," c)) (groupFrom i groupSize reversed grouped)
    = filter (fun c => negb (isCh "," c)) grouped ++ reversed.
Proof.
  induction reversed as [|c r IH]; intros Hr i grouped; cbn [groupFrom].
  - rewrite app_nil_r. reflexivity.
  - rewrite IH by (intros d Hd; apply Hr; right; exact Hd).
    pose proof (Hr c (or_introl eq_refl)) as Hc.
    destruct ((0 <? i) && (i mod groupSize =? 0));
      rewrite !filter_app; cbn [filter];
      change (isCh "," (ch ",")) with true; rewrite ?Hc; cbn [negb];
      rewrite ?app_nil_r, <- app_assoc; reflexivity.
Qed.

Lemma div_step (g i : Z) :
  0 < g -> 1 <= i ->
  i / g - (i - 1) / g = if i mod g =? 0 then 1 else 0.
Proof.
  intros Hg Hi.
  pose proof (Z.div_mod i g ltac:(lia)) as Hdm.
  pose proof (Z.mod_pos_bound i g Hg) as Hb.
  destruct (i mod g =? 0) eqn:Hm.
  - apply Z.eqb_eq in Hm.
    assert (H : (i - 1) / g = i / g - 1).
    { symmetry. apply Z.div_unique with (r := g - 1); lia. }
    lia.
  - apply Z.eqb_neq in Hm.
    assert (H : (i - 1) / g = i / g).
    { symmetry. apply Z.div_unique with (r := i mod g - 1); lia. }
    lia.
Qed.

Lemma groupFrom_length (groupSize : Z) (reversed : jsstring) :
  0 < groupSize ->
  forall (i : Z) (grouped : jsstring),
    1 <= i ->
    len (groupFrom i groupSize reversed grouped)
    = len grouped + len reversed
      + ((i + len reversed - 1) / groupSize - (i - 1) / groupSize).
Proof.
  intros Hg. induction reversed as [|c r IH]; intros i grouped Hi;
    cbn [groupFrom].
  - change (len []) with 0. rewrite !Z.add_0_r, Z.sub_diag. lia.
  - rewrite IH by lia.
    pose proof (div_step groupSize i Hg Hi) as Hstep.
    assert (Hlt : (0 <? i) = true) by (apply Z.ltb_lt; lia).
    rewrite Hlt. cbn [andb].
    replace (i + 1 - 1) with i by lia.
    replace (i + 1 + len r - 1) with (i + len (c :: r) - 1)
      by (unfold len; cbn [List.length]; lia).
    destruct (i mod groupSize =? 0);
      unfold len in *; rewrite ?length_app; cbn [List.length] in *; lia.
Qed.

(** X6: for a positive group size, [applyGrouping] only inserts separators:
    without its commas the result is the digit string it was given, and its
    length is that of the digit string plus one comma for every complete
    group before the leading one, [(length - 1) / groupSize] in all. *)
Theorem applyGrouping_inserts_separators (integerStr : jsstring)
  (groupSize : Z) :
  0 < groupSize ->
  (forall c, In c integerStr -> isCh "," c = false) ->
  filter (fun c => negb (isCh "," c)) (applyGrouping integerStr groupSize)
  = integerStr
  /\ (integerStr <> [] ->
      len (applyGrouping integerStr groupSize)
      = len integerStr + (len integerStr - 1) / groupSize).
Proof.
  intros Hg Hs. unfold applyGrouping. split.
  - rewrite filter_rev, groupFrom_filter.
    + cbn [filter app]. apply rev_involutive.
    + intros c Hc. apply Hs. apply in_rev. exact Hc.
  - intros Hne. unfold len at 1. rewrite length_rev. fold (len (groupFrom 0 groupSize (rev integerStr) [])).
    assert (Hlen : len (rev integerStr) = len integerStr)
      by (unfold len; rewrite length_rev; reflexivity).
    destruct (rev integerStr) as [|c r] eqn:Hrev.
    + exfalso. apply Hne. rewrite <- (rev_involutive integerStr), Hrev.
      reflexivity.
    + cbn [groupFrom]. change (0 <? 0) with false. cbn [andb app].
      change (0 + 1) with 1.
      rewrite (groupFrom_length groupSize r Hg 1 [c]) by lia.
      rewrite <- Hlen. unfold len. cbn [List.length].
      replace (1 - 1) with 0 by lia. rewrite Z.div_0_l by lia.
      replace (1 + Z.of_nat (List.length r) - 1)
        with (Z.of_nat (S (List.length r)) - 1) by lia.
      lia.
Qed.

Lemma applyGrouping_inserts_separators_witness :
  filter (fun c => negb (isCh "," c)) (applyGrouping (lit "1234567") 3)
  = lit "1234567"
  /\ len (applyGrouping (lit "1234567") 3) = 9
  /\ applyGrouping (lit "1234567") 3 = lit "1,234,567".
Proof.
  assert (H : forall c, In c (lit "1234567") -> isCh "," c = false).
  { intros c Hc. repeat (destruct Hc as [<- | Hc]; [reflexivity |]).
    destruct Hc. }
  split; [| split].
  - apply (proj1 (applyGrouping_inserts_separators (lit "1234567") 3
                    eq_refl H)).
  - rewrite (proj2 (applyGrouping_inserts_separators (lit "1234567") 3
                      eq_refl H)); [reflexivity | discriminate].
  - reflexivity.
Defined.

(** ** Trailing zeros *)

Lemma endsWith0_last (s : jsstring) :
  endsWith0 s = true -> s = dropLast s ++ [ch "0"].
Proof.
  unfold endsWith0, dropLast. intros H.
  destruct (rev s) as [|c r] eqn:Hrev; [discriminate |].
  apply N.eqb_eq in H. subst c.
  assert (Hs : s = rev r ++ [ch "0"]).
  { rewrite <- (rev_involutive s), Hrev. reflexivity. }
  rewrite Hs at 2. rewrite removelast_last. exact Hs.
Qed.

Lemma trimZerosFuel_spec (minDigits : Z) (fuel : nat) :
  forall s : jsstring,
    (List.length s <= fuel)%nat ->
    let t := trimZerosFuel fuel minDigits s in
    (exists k : nat, s = t ++ zeros k)
    /\ (minDigits <= len s -> minDigits <= len t)
    /\ (minDigits < len t -> endsWith0 t = false).
Proof.
  induction fuel as [|fuel IH]; intros s Hfuel; cbv zeta;
    cbn [trimZerosFuel].
  - destruct s; [| cbn [List.length] in Hfuel; lia].
    split; [exists O; reflexivity |]. split; [auto | reflexivity].
  - destruct ((minDigits <? len s) && endsWith0 s) eqn:Hc.
    + apply andb_prop in Hc. destruct Hc as [Hlt Hend].
      apply Z.ltb_lt in Hlt. apply endsWith0_last in Hend.
      assert (Hlen : len s = len (dropLast s) + 1).
      { rewrite Hend at 1. unfold len. rewrite length_app.
        cbn [List.length]. lia. }
      destruct (IH (dropLast s)) as ((k & Hk) & Hmin & Hno).
      { unfold len in Hlen. lia. }
      cbv zeta in Hmin, Hno.
      split; [| split].
      * exists (S k). rewrite Hend at 1. rewrite Hk at 1.
        rewrite <- app_assoc. f_equal. unfold zeros.
        rewrite <- repeat_cons. reflexivity.
      * intros _. apply Hmin. lia.
      * exact Hno.
    + split; [exists O; rewrite app_nil_r; reflexivity |].
      split; [auto |].
      intros Hlt. apply Z.ltb_lt in Hlt. rewrite Hlt in Hc. exact Hc.
Qed.

(** X7: the loop that trims the fraction removes trailing zeros only, never
    takes the string below [minFractionDigits] characters, and stops only
    when the string has no more than [minFractionDigits] characters or does
    not end with a zero. *)
Theorem trimZeros_spec (minDigits : Z) (s : jsstring) :
  (exists k : nat, s = trimZeros minDigits s ++ zeros k)
  /\ (minDigits <= len s -> minDigits <= len (trimZeros minDigits s))
  /\ (minDigits < len (trimZeros minDigits s) ->
      endsWith0 (trimZeros minDigits s) = false).
Proof.
  unfold trimZeros. apply (trimZerosFuel_spec minDigits (List.length s) s).
  lia.
Qed.

Lemma trimZeros_spec_witness :
  2 <= len (lit "5000") /\ 2 <= len (trimZeros 2 (lit "5000"))
  /\ trimZeros 2 (lit "5000") = lit "50".
Proof.
  split; [discriminate |]. split; [| reflexivity].
  apply (proj1 (proj2 (trimZeros_spec 2 (lit "5000")))). discriminate.
Defined.

(** ** When [format] throws *)

Lemma roundInteger_returns (this : DecimalFormat) (value : number) :
  roundingMode this <> UNNECESSARY ->
  exists r, roundInteger this value = Return r.
Proof.
  intros Hm. unfold roundInteger.
  destruct (roundingMode this); try (eexists; reflexivity). contradiction.
Qed.

Lemma roundScaled_returns (this : DecimalFormat) (sign scaled : number) :
  roundingMode this <> UNNECESSARY ->
  exists r, roundScaled this sign scaled = Return r.
Proof.
  intros Hm. unfold roundScaled.
  destruct (roundingMode this); try (eexists; reflexivity). contradiction.
Qed.

Lemma round_outcome (this : DecimalFormat) (value : number) (scale : Z) :
  roundingMode this <> UNNECESSARY ->
  (0 <= scale <= 100 -> exists r, round this value scale = Return r)
  /\ (scale < 0 \/ 100 < scale -> round this value scale = Throw RangeError).
Proof.
  intros Hm. unfold round. destruct (scale =? 0) eqn:Hs.
  - apply Z.eqb_eq in Hs. split; [intros _ | lia].
    apply roundInteger_returns. exact Hm.
  - destruct (roundScaled_returns this
                (if ge value zero then one else minusOne)
                (mul (abs value) (pow10 scale)) Hm) as (r & ->).
    cbn [bind].
    destruct (toFixed_outcome (div r (pow10 scale)) scale) as [Hin _].
    split.
    + intros Hr. destruct (Hin Hr) as (s & ->). cbn [bind]. eauto.
    + intros Hr. unfold toFixed.
      assert (Hb : (scale <? 0) || (100 <? scale) = true).
      { apply orb_true_iff. destruct Hr as [Hr | Hr];
          [left | right]; apply Z.ltb_lt; exact Hr. }
      rewrite Hb. reflexivity.
Qed.

Lemma repeat0_returns (n : Z) :
  0 <= n -> repeat0 n = Return (repeat_unit (ch "0") n).
Proof.
  intros Hn. unfold repeat0.
  destruct (n <? 0) eqn:H; [apply Z.ltb_lt in H; lia | reflexivity].
Qed.

Lemma formatExponential_returns (log10 : number -> number)
  (this : DecimalFormat) (value : number) :
  roundingMode this <> UNNECESSARY ->
  0 <= maxFractionDigits (parsedPattern this) <= 100 ->
  0 <= minIntegerDigits (parsedPattern this) ->
  0 <= minExponentDigits (parsedPattern this) ->
  exists s, formatExponential log10 this value = Return s.
Proof.
  intros Hm Hf Hi He. unfold formatExponential.
  destruct (seq value zero).
  - rewrite (repeat0_returns _ Hi), (repeat0_returns _ He). cbn [bind]. eauto.
  - destruct (proj1 (round_outcome this
                       (div value (pow10n (floor (log10 value))))
                       _ Hm) Hf) as (r & ->).
    cbn [bind].
    destruct (proj1 (toFixed_outcome r _) Hf) as (s & ->).
    cbn [bind]. eauto.
Qed.

Lemma format_returns_general (log10 : number -> number)
  (this : DecimalFormat) (v : number) :
  roundingMode this <> UNNECESSARY ->
  isNaN v = false ->
  0 <= maxFractionDigits (parsedPattern this) <= 100 ->
  (useExponentialNotation (parsedPattern this) = true ->
   0 <= minIntegerDigits (parsedPattern this)
   /\ 0 <= minExponentDigits (parsedPattern this)) ->
  exists s, format log10 this v = Return s.
Proof.
  intros Hm Hn Hf Hexp. unfold format. rewrite Hn.
  destruct (negb (isFinite v)); [eauto |].
  unfold formatted.
  destruct (useExponentialNotation (parsedPattern this)).
  - destruct (Hexp eq_refl) as [Hi He].
    destruct (formatExponential_returns log10 this
                (abs (mul v (multiplier (parsedPattern this))))
                Hm Hf Hi He) as (s & ->).
    cbn [bind]. eauto.
  - pose proof (formatStandard_outcome this
                  (mul v (multiplier (parsedPattern this)))) as Hstd.
    destruct (proj1 (round_outcome this
                       (mul v (multiplier (parsedPattern this)))
                       _ Hm) Hf) as (r & Hr).
    rewrite Hr in Hstd. destruct Hstd as (s & ->). cbn [bind]. eauto.
Qed.

(** X8: with the rules of a pattern that has at most 100 fraction digit
    characters and a rounding mode other than [UNNECESSARY], [format]
    returns a string for every number that is not a NaN: NaN is the only
    value it rejects. *)
Theorem format_returns (log10 : number -> number) (p : jsstring)
  (mode : RoundingMode) (v : number) :
  mode <> UNNECESSARY ->
  isNaN v = false ->
  maxFractionDigits (parsePattern p) <= 100 ->
  exists s, format log10 (instance p mode) v = Return s.
Proof.
  intros Hm Hn Hf.
  assert (Hb : 0 <= minIntegerDigits (parsePattern p)
                 <= maxIntegerDigits (parsePattern p)
               /\ 0 <= minFractionDigits (parsePattern p)
                 <= maxFractionDigits (parsePattern p)
               /\ 0 <= minExponentDigits (parsePattern p)).
  { unfold parsePattern.
    cbn [minIntegerDigits maxIntegerDigits minFractionDigits
         maxFractionDigits minExponentDigits].
    match goal with
    | |- context [Sub.minIntegerDigits (parseSubpattern ?x)] =>
        destruct (parseSubpattern_invariants x) as (Hi & Hfr & _ & _ & He & _)
    end.
    auto. }
  destruct Hb as (Hi & Hfr & He).
  apply format_returns_general; cbn [instance roundingMode parsedPattern];
    try assumption; lia.
Qed.

Lemma format_returns_witness :
  exists s,
    format log10Approx (instance (lit "0.00E0") FLOOR)
      (ofDecimal true 123456 (-2)) = Return s.
Proof.
  apply format_returns; [discriminate | reflexivity | vm_compute; discriminate].
Defined.

(** X9: in standard rendering with a rounding mode other than
    [UNNECESSARY], more than 100 maximal fraction digits (or a negative
    number of them) make [format] throw a [RangeError] for every finite
    number: the rounding step calls [toFixed] with that scale. *)
Theorem format_throws_RangeError (log10 : number -> number)
  (this : DecimalFormat) (v : number) :
  roundingMode this <> UNNECESSARY ->
  useExponentialNotation (parsedPattern this) = false ->
  isNaN v = false -> isFinite v = true ->
  maxFractionDigits (parsedPattern this) < 0
  \/ 100 < maxFractionDigits (parsedPattern this) ->
  format log10 this v = Throw RangeError.
Proof.
  intros Hm He Hn Hf Hs. unfold format, formatted. rewrite Hn, Hf, He.
  cbn [negb].
  pose proof (formatStandard_outcome this
                (mul v (multiplier (parsedPattern this)))) as Hstd.
  rewrite (proj2 (round_outcome this _ _ Hm) Hs) in Hstd.
  rewrite Hstd. reflexivity.
Qed.

Lemma format_throws_RangeError_witness :
  format log10Approx (new (Some (lit "0." ++ hashes 101))) (ofZ 1)
  = Throw RangeError.
Proof.
  apply format_throws_RangeError;
    [discriminate | reflexivity | reflexivity | reflexivity
    | right; vm_compute; reflexivity].
Defined.

(** ** Negative values under any rules *)

Lemma round_mode_only (this this' : DecimalFormat) (value : number)
  (scale : Z) :
  roundingMode this' = roundingMode this ->
  round this' value scale = round this value scale.
Proof.
  intros Hm. unfold round, roundInteger, roundScaled. rewrite Hm.
  reflexivity.
Qed.

Lemma formatted_state (log10 : number -> number)
  (this this' : DecimalFormat) (value : number) :
  parsedPattern this' = parsedPattern this ->
  roundingMode this' = roundingMode this ->
  formatted log10 this' value = formatted log10 this value.
Proof.
  intros Hr Hm.
  unfold formatted, formatExponential, formatStandard, integerPartOf,
    fractionPartOf, scaledOf.
  rewrite Hr, !(round_mode_only this this' _ _ Hm). reflexivity.
Qed.

(** X10: under any rules whose multiplier is one a pattern can set, the
    format of [-v], for a finite [v > 0], is the negative prefix, a number
    body and the negative suffix; the body is computed from [v] by the
    digit rules shared by both signs, under the same rounding mode in
    exponential rendering and under the mirrored one in standard rendering.
    An explicit negative sub-pattern changes the prefix and suffix only. *)
Theorem format_negative (log10 : number -> number) (this : DecimalFormat)
  (v : number) :
  gt v zero = true -> isFinite v = true -> wellFormed v ->
  isPatternMultiplier (multiplier (parsedPattern this)) ->
  let bodyMode :=
    if useExponentialNotation (parsedPattern this) then roundingMode this
    else mirror (roundingMode this) in
  format log10 this (neg v)
  = (B <- formatted log10 (after (API.setRoundingMode bodyMode this))
            (mul v (multiplier (parsedPattern this))) ;;
     Return (negativePrefix (parsedPattern this) ++ B
               ++ negativeSuffix (parsedPattern this))).
Proof.
  intros Hgt Hfin Hwf Hmult. cbv zeta.
  destruct v as [s|s| |s mv ev]; try discriminate.
  destruct s; try discriminate.
  pose proof (mul_positive mv ev _ Hwf Hmult) as Hp.
  rewrite (format_scaled_negative log10 this (S754_finite false mv ev)
             eq_refl eq_refl Hp).
  f_equal.
  unfold formatted at 1.
  destruct (useExponentialNotation (parsedPattern this)) eqn:He.
  - rewrite abs_neg.
    rewrite (formatted_state log10 this
               (after (API.setRoundingMode (roundingMode this) this)))
      by reflexivity.
    unfold formatted. rewrite He. reflexivity.
  - unfold formatted. cbn [after API.setRoundingMode snd parsedPattern].
    rewrite He.
    apply formatStandard_sameMagnitude; [reflexivity |].
    apply round_mirror; [reflexivity | exact Hp].
Qed.

Lemma format_negative_witness :
  let this := new (Some (lit "$#,##0.00;($#,##0.00)")) in
  let v := ofZ 100 in
  gt v zero = true /\ isFinite v = true /\ wellFormed v
  /\ format log10Approx this (neg v) = Return (lit "($100.00)").
Proof.
  cbv zeta.
  split; [reflexivity | split; [reflexivity | split; [reflexivity |]]].
  rewrite (format_negative log10Approx
             (new (Some (lit "$#,##0.00;($#,##0.00)"))) (ofZ 100)
             eq_refl eq_refl eq_refl (or_introl eq_refl)).
  vm_compute. reflexivity.
Defined.

(** ** Sequences of setter calls *)

Lemma perform_frame (c : Setters.call) (this : DecimalFormat) :
  pattern (snd (Setters.perform c this)) = pattern this
  /\ roundingMode (snd (Setters.perform c this))
     = Setters.lastMode [c] (roundingMode this).
Proof. destruct c; split; reflexivity. Qed.

(** X11: whatever setters are called, in whatever order, [toPattern()]
    still returns the pattern text last given to the constructor or to
    [applyPattern]; the rounding mode is the one of the last
    [setRoundingMode] call (the earlier one when there is none); and a
    following [applyPattern(p)] discards every other change: the instance is
    the one compiled from [p], with that rounding mode. *)
Theorem setters_frame (cs : list Setters.call) (this : DecimalFormat)
  (p : jsstring) :
  let this' := Setters.performAll cs this in
  result (API.toPattern this') = Return (pattern this)
  /\ roundingMode this' = Setters.lastMode cs (roundingMode this)
  /\ after (API.applyPattern p this')
     = instance p (Setters.lastMode cs (roundingMode this)).
Proof.
  cbv zeta.
  assert (H : pattern (Setters.performAll cs this) = pattern this
              /\ roundingMode (Setters.performAll cs this)
                 = Setters.lastMode cs (roundingMode this)).
  { revert this. induction cs as [|c cs IH]; intros this;
      [split; reflexivity |].
    unfold Setters.performAll, Setters.lastMode. cbn [fold_left].
    fold (Setters.performAll cs (snd (Setters.perform c this))).
    destruct (IH (snd (Setters.perform c this))) as [Hp Hm].
    destruct (perform_frame c this) as [Hp1 Hm1].
    rewrite Hp, Hm, Hp1, Hm1. split; reflexivity. }
  destruct H as [Hp Hm].
  split; [| split].
  - unfold result, API.toPattern. cbn [fst]. rewrite Hp. reflexivity.
  - exact Hm.
  - rewrite instance_of_applyPattern, Hm. reflexivity.
Qed.

(** ** Quoted text *)

Lemma scanStep_addPrefix (s : jsstring) (sc : scanner) (c : codeunit) :
  scanStep (addPrefix s sc) c = addPrefix s (scanStep sc c).
Proof.
  destruct sc as [pre suf num useE minE mult st q].
  unfold addPrefix, scanStep.
  cbn [scPrefix scSuffix scNumberPart scUseExponentialNotation
       scMinExponentDigits scMultiplier scState scInQuote].
  destruct (isCh "'" c); [reflexivity |].
  destruct q; [destruct st; cbn; rewrite <- ?app_assoc; reflexivity |].
  destruct st; try destruct (isDigitChar c); try destruct (isCh "0" c);
    try destruct (isCh "E" c || isCh "e" c);
    cbn; rewrite <- ?app_assoc; reflexivity.
Qed.

Lemma scan_addPrefix (s t : jsstring) (sc : scanner) :
  fold_left scanStep t (addPrefix s sc)
  = addPrefix s (fold_left scanStep t sc).
Proof.
  revert sc. induction t as [|c t IH]; intros sc; cbn [fold_left];
    [reflexivity |].
  rewrite scanStep_addPrefix. apply IH.
Qed.

Lemma scan_quoted_chars (s : jsstring) :
  (forall c, In c s -> isCh "'" c = false) ->
  forall (p suf n : jsstring) (useE : bool) (minE : Z) (mult : number),
    fold_left scanStep s (Build_scanner p suf n useE minE mult InPrefix true)
    = Build_scanner (p ++ s) suf n useE minE mult InPrefix true.
Proof.
  induction s as [|c s IH]; intros Hs p suf n useE minE mult;
    cbn [fold_left]; [rewrite app_nil_r; reflexivity |].
  unfold scanStep at 2. rewrite (Hs c (or_introl eq_refl)).
  rewrite IH by (intros d Hd; apply Hs; right; exact Hd).
  rewrite <- app_assoc. reflexivity.
Qed.

Lemma scan_quoted (s t : jsstring) :
  (forall c, In c s -> isCh "'" c = false) ->
  scan (lit "'" ++ s ++ lit "'" ++ t) = addPrefix s (scan t).
Proof.
  intros Hs. unfold scan. cbn [lit app fold_left].
  change (scanStep scanInit (ch "'"))
    with (Build_scanner [] [] [] false 0 (ofZ 1) InPrefix true).
  rewrite fold_left_app, (scan_quoted_chars s Hs). cbn [fold_left app].
  change (scanStep (Build_scanner s [] [] false 0 (ofZ 1) InPrefix true)
            (ch "'"))
    with (Build_scanner s [] [] false 0 (ofZ 1) InPrefix false).
  rewrite <- (scan_addPrefix s t scanInit).
  unfold addPrefix, scanInit. cbn. rewrite app_nil_r. reflexivity.
Qed.

(** X12: text quoted at the start of a sub-pattern is copied to the prefix
    and has no other effect: whatever characters it holds ([#], [0], [%],
    [;], [E]), the digit counts, grouping, exponent settings, multiplier and
    suffix are those of the rest of the sub-pattern. *)
Theorem parseSubpattern_quoted_prefix (s t : jsstring) :
  (forall c, In c s -> isCh "'" c = false) ->
  let r := parseSubpattern t in
  parseSubpattern (lit "'" ++ s ++ lit "'" ++ t)
  = Sub.mk (s ++ Sub.prefix r) (Sub.suffix r)
      (Sub.minIntegerDigits r) (Sub.maxIntegerDigits r)
      (Sub.minFractionDigits r) (Sub.maxFractionDigits r)
      (Sub.groupingSize r) (Sub.groupingUsed r)
      (Sub.decimalSeparatorAlwaysShown r) (Sub.useExponentialNotation r)
      (Sub.minExponentDigits r) (Sub.multiplier r).
Proof.
  intros Hs. cbv zeta. unfold parseSubpattern.
  rewrite (scan_quoted s t Hs).
  cbn [addPrefix scPrefix scSuffix scNumberPart scUseExponentialNotation
       scMinExponentDigits scMultiplier].
  destruct (scNumberPart (scan t)) as [|c n]; [reflexivity |].
  destruct (indexOf (ch ".") (c :: n));
    destruct (lastIndexOf (ch ",") _); reflexivity.
Qed.

Lemma parseSubpattern_quoted_prefix_witness :
  parseSubpattern (lit "'" ++ lit "#%0" ++ lit "'" ++ lit "0.0")
  = Sub.mk (lit "#%0") [] 1 1 1 1 0 false false false 0 (ofZ 1).
Proof.
  rewrite parseSubpattern_quoted_prefix; [reflexivity |].
  intros c Hc. repeat (destruct Hc as [<- | Hc]; [reflexivity |]).
  destruct Hc.
Defined.

(** ** Rounding and negation *)

Lemma mul_minusOne (y : number) : mul minusOne y = neg (mul one y).
Proof. rewrite minusOne_neg_one. apply mul_neg_l. Qed.

(** X13: rounding commutes with negation when the mode is mirrored: for a
    positive [x], [round] of [-x] under a mode is the negation of [round] of
    [x] under the mirrored mode ([CEILING] for [FLOOR], [FLOOR] for
    [CEILING], any other mode itself), and it throws exactly when that one
    throws. *)
Theorem round_negation (this this' : DecimalFormat) (x : number)
  (scale : Z) :
  roundingMode this' = mirror (roundingMode this) ->
  isPositive x = true ->
  round this (neg x) scale
  = (r <- round this' x scale ;; Return (neg r)).
Proof.
  intros Hm Hx. unfold round.
  destruct (isPositive_signs x Hx) as (Hlt & Hge & Habs & Hlt' & Hge' & _).
  destruct (scale =? 0).
  - unfold roundInteger. rewrite Hm, abs_neg, Hlt, Hlt'.
    destruct (roundingMode this); cbn [mirror bind];
      try (rewrite (sne_floor_neg x Hx);
           destruct (sne x (floor x)); reflexivity);
      rewrite ?mul_minusOne, ?ceil_neg, ?floor_neg; reflexivity.
  - rewrite abs_neg, Hge, Hge'.
    rewrite (roundScaled_mirror this this' _ Hm).
    destruct (roundScaled this' one _) as [r|e]; cbn [bind]; [| reflexivity].
    destruct (toFixed _ scale) as [f|e]; cbn [bind]; [| reflexivity].
    rewrite mul_minusOne. reflexivity.
Qed.

Lemma round_negation_witness :
  let x := ofDecimal false 125 (-2) in
  isPositive x = true
  /\ round (instance (lit "0.0") CEILING) (neg x) 1
     = Return (ofDecimal true 12 (-1))
  /\ round (instance (lit "0.0") FLOOR) x 1 = Return (ofDecimal false 12 (-1)).
Proof.
  cbv zeta. split; [reflexivity |]. split; [| vm_compute; reflexivity].
  rewrite (round_negation (instance (lit "0.0") CEILING)
             (instance (lit "0.0") FLOOR) (ofDecimal false 125 (-2)) 1
             eq_refl eq_refl).
  vm_compute. reflexivity.
Defined.

(** * utils.ts *)

Lemma digit_cases (c : codeunit) :
  isDigit c = true ->
  (c = 48 \/ c = 49 \/ c = 50 \/ c = 51 \/ c = 52 \/ c = 53 \/ c = 54
   \/ c = 55 \/ c = 56 \/ c = 57)%N.
Proof.
  unfold isDigit. intros H. apply andb_prop in H. destruct H as [H1 H2].
  apply N.leb_le in H1, H2. lia.
Qed.

Lemma toString_digit (c : codeunit) :
  isDigit c = true -> toString (Utils.parseInt10 [c]) = [c].
Proof.
  intros H. apply digit_cases in H.
  repeat (destruct H as [-> | H]; [vm_compute; reflexivity |]).
  subst. vm_compute. reflexivity.
Qed.

Lemma carry_digit (c : codeunit) :
  isDigit c = true ->
  ge (add (Utils.parseInt10 [c]) one) (ofZ 10) = isCh "9" c
  /\ (isCh "9" c = false ->
      toString (add (Utils.parseInt10 [c]) one) = [(c + 1)%N]).
Proof.
  intros H. apply digit_cases in H.
  repeat (destruct H as [-> | H];
          [split; [vm_compute; reflexivity
                  | intros _; vm_compute; reflexivity] |]).
  subst. split; [vm_compute; reflexivity | discriminate].
Qed.

Lemma carryLoop_increment (cs : jsstring) :
  (forall c, In c cs -> isDigit c = true) ->
  map toString (fst (Utils.carryLoop (map (fun d => Utils.parseInt10 [d]) cs)))
  = map (fun c => [c]) (fst (Utils.increment cs))
  /\ snd (Utils.carryLoop (map (fun d => Utils.parseInt10 [d]) cs))
     = if snd (Utils.increment cs) then one else zero.
Proof.
  induction cs as [|c cs IH]; intros Hcs; [split; reflexivity |].
  cbn [map Utils.carryLoop Utils.increment].
  destruct (carry_digit c (Hcs c (or_introl eq_refl))) as [Hge Hstr].
  rewrite Hge.
  destruct (IH (fun d Hd => Hcs d (or_intror Hd))) as [IH1 IH2].
  destruct (isCh "9" c).
  - destruct (Utils.carryLoop _) as [rest' carry].
    destruct (Utils.increment cs) as [inc k].
    cbn [fst snd map] in *. rewrite IH1. split; [reflexivity | exact IH2].
  - cbn [fst snd map]. rewrite (Hstr eq_refl). split; [| reflexivity].
    f_equal. rewrite map_map.
    apply map_ext_in. intros d Hd. apply toString_digit, Hcs. right. exact Hd.
Qed.

Lemma concat_singletons (l : jsstring) :
  List.concat (map (fun c => [c]) l) = l.
Proof. induction l as [|c l IH]; [reflexivity |]. cbn. rewrite IH. reflexivity. Qed.

Lemma valueOfDigits_snoc (s : jsstring) (c : codeunit) :
  valueOfDigits (s ++ [c]) = 10 * valueOfDigits s + (Z.of_N c - 48).
Proof. unfold valueOfDigits. rewrite fold_left_app. reflexivity. Qed.

Lemma increment_spec (cs : jsstring) :
  (forall c, In c cs -> isDigit c = true) ->
  List.length (fst (Utils.increment cs)) = List.length cs
  /\ (forall c, In c (fst (Utils.increment cs)) -> isDigit c = true)
  /\ (snd (Utils.increment cs) = false ->
      valueOfDigits (rev (fst (Utils.increment cs)))
      = valueOfDigits (rev cs) + 1)
  /\ (snd (Utils.increment cs) = true <->
      forall c, In c cs -> isCh "9" c = true).
Proof.
  induction cs as [|c cs IH]; intros Hcs.
  - split; [reflexivity |]. split; [intros c [] |].
    split; [discriminate |]. split; [intros _ c [] | reflexivity].
  - cbn [Utils.increment].
    destruct (IH (fun d Hd => Hcs d (or_intror Hd))) as (Hlen & Hdig & Hval & Hall).
    pose proof (Hcs c (or_introl eq_refl)) as Hc.
    destruct (isCh "9" c) eqn:H9.
    + destruct (Utils.increment cs) as [inc k]. cbn [fst snd] in *.
      split; [cbn [List.length]; lia |]. split; [| split].
      * intros d [<- | Hd]; [reflexivity | apply Hdig, Hd].
      * intros Hk. cbn [rev]. rewrite !valueOfDigits_snoc, (Hval Hk).
        apply N.eqb_eq in H9. subst c.
        change (Z.of_N (ch "0")) with 48. change (Z.of_N (ch "9")) with 57.
        lia.
      * split.
        -- intros Hk d [<- | Hd]; [exact H9 | apply (proj1 Hall Hk), Hd].
        -- intros Hd. apply Hall. intros d Hin. apply Hd. right. exact Hin.
    + cbn [fst snd]. split; [reflexivity |]. split; [| split].
      * intros d [<- | Hd]; [| apply Hcs; right; exact Hd].
        apply digit_cases in Hc.
        repeat (destruct Hc as [-> | Hc]; [reflexivity |]).
        subst. discriminate.
      * intros _. cbn [rev]. rewrite !valueOfDigits_snoc. lia.
      * split; [discriminate |].
        intros Hd. rewrite (Hd c (or_introl eq_refl)) in H9. discriminate.
Qed.

(** X14: [roundDecimalString] in mode ['floor'], or in mode ['ceil'] when
    the digits dropped are all zeros, truncates: the integer part is
    unchanged and the decimal part is cut to [scale] characters. *)
Theorem roundDecimalString_truncates (intPart decPart : jsstring)
  (scale : Z) (m : Utils.mode) :
  m = Utils.Floor
  \/ (forall c, In c (skipn (Z.to_nat scale) decPart) -> isCh "0" c = true) ->
  Utils.roundDecimalString intPart decPart scale m
  = Return (intPart, firstn (Z.to_nat scale) decPart).
Proof.
  intros H. unfold Utils.roundDecimalString, substring, substringFrom.
  rewrite Nat.sub_0_r. cbn [skipn].
  destruct m.
  - destruct H as [H | H]; [discriminate |].
    assert (Hf : filter (fun c => negb (isCh "0" c))
                   (skipn (Z.to_nat scale) decPart) = []).
    { induction (skipn (Z.to_nat scale) decPart) as [|c l IH];
        [reflexivity |].
      cbn [filter]. rewrite (H c (or_introl eq_refl)). cbn [negb].
      apply IH. intros d Hd. apply H. right. exact Hd. }
    rewrite Hf. reflexivity.
  - reflexivity.
Qed.

Lemma roundDecimalString_truncates_witness :
  Utils.roundDecimalString (lit "12") (lit "3400") 2 Utils.Ceil
  = Return (lit "12", lit "34").
Proof.
  rewrite roundDecimalString_truncates; [reflexivity |].
  right. intros c [<- | [<- | []]]; reflexivity.
Defined.

(** X15: in mode ['ceil'], when a digit other than zero is dropped,
    [roundDecimalString] adds one in the last place kept.  If a kept digit
    is not [9], the integer part is unchanged and the decimal part has the
    same length and the value of the kept digits plus one; if all kept
    digits are [9] (or none is kept), the decimal part is [scale] zeros and
    the integer part is that of [parseInt(intPart) + 1]. *)
Theorem roundDecimalString_ceil (intPart decPart : jsstring) (scale : Z) :
  let keepPart := firstn (Z.to_nat scale) decPart in
  0 <= scale ->
  (forall c, In c keepPart -> isDigit c = true) ->
  (exists c, In c (skipn (Z.to_nat scale) decPart) /\ isCh "0" c = false) ->
  ((exists c, In c keepPart /\ isCh "9" c = false) ->
   exists d,
     Utils.roundDecimalString intPart decPart scale Utils.Ceil
     = Return (intPart, d)
     /\ len d = len keepPart
     /\ (forall c, In c d -> isDigit c = true)
     /\ valueOfDigits d = valueOfDigits keepPart + 1)
  /\ ((forall c, In c keepPart -> isCh "9" c = true) ->
      Utils.roundDecimalString intPart decPart scale Utils.Ceil
      = Return (toString (add (Utils.parseInt10 intPart) one),
                repeat_unit (ch "0") scale)).
Proof.
  cbv zeta. intros Hscale Hdig (c0 & Hin0 & Hc0).
  unfold Utils.roundDecimalString, substring, substringFrom.
  rewrite Nat.sub_0_r. cbn [skipn].
  set (keep := firstn (Z.to_nat scale) decPart) in *.
  assert (Hneeds : (0 <? len (filter (fun c => negb (isCh "0" c))
                            (skipn (Z.to_nat scale) decPart))) = true).
  { apply Z.ltb_lt.
    assert (Hin : In c0 (filter (fun c => negb (isCh "0" c))
                           (skipn (Z.to_nat scale) decPart))).
    { apply filter_In. split; [exact Hin0 | rewrite Hc0; reflexivity]. }
    destruct (filter _ _); [destruct Hin |].
    unfold len. cbn [List.length]. lia. }
  rewrite Hneeds. cbn [negb].
  assert (Hrev : forall c, In c (rev keep) -> isDigit c = true).
  { intros c Hc. apply Hdig. apply in_rev. exact Hc. }
  destruct (carryLoop_increment (rev keep) Hrev) as [Hstr Hcarry].
  destruct (increment_spec (rev keep) Hrev) as (Hlen & Hid & Hval & Hall).
  destruct (Utils.carryLoop _) as [ds carry].
  destruct (Utils.increment (rev keep)) as [inc k].
  cbn [fst snd] in *. subst carry.
  split.
  - intros (c & Hc & H9).
    destruct k.
    + rewrite (proj1 Hall eq_refl c) in H9; [discriminate |].
      apply in_rev in Hc. exact Hc.
    + change (gt zero zero) with false. cbv iota.
      exists (rev inc). split; [| split; [| split]].
      * rewrite map_rev, Hstr, <- map_rev, concat_singletons. reflexivity.
      * unfold len. rewrite length_rev in Hlen. rewrite length_rev, Hlen.
        reflexivity.
      * intros d Hd. apply Hid. apply in_rev. exact Hd.
      * rewrite (Hval eq_refl), rev_involutive. reflexivity.
  - intros H9.
    assert (Hk : k = true).
    { apply Hall. intros c Hc. apply H9. apply in_rev. exact Hc. }
    subst k. change (gt one zero) with true. cbv iota.
    rewrite (repeat0_returns scale Hscale). reflexivity.
Qed.

Lemma roundDecimalString_ceil_witness :
  Utils.roundDecimalString (lit "12") (lit "1996") 3 Utils.Ceil
  = Return (lit "12", lit "200")
  /\ Utils.roundDecimalString (lit "12") (lit "9956") 2 Utils.Ceil
     = Return (lit "13", lit "00").
Proof.
  split.
  - destruct (proj1 (roundDecimalString_ceil (lit "12") (lit "1996") 3
                       ltac:(discriminate)
                       ltac:(intros c Hc;
                             repeat (destruct Hc as [<- | Hc]; [reflexivity |]);
                             destruct Hc)
                       (ex_intro _ (ch "6") (conj (or_introl eq_refl) eq_refl)))
                (ex_intro _ (ch "1") (conj (or_introl eq_refl) eq_refl)))
      as (d & Hd & _).
    vm_compute. reflexivity.
  - rewrite (proj2 (roundDecimalString_ceil (lit "12") (lit "9956") 2
                      ltac:(discriminate)
                      ltac:(intros c Hc;
                            repeat (destruct Hc as [<- | Hc]; [reflexivity |]);
                            destruct Hc)
                      (ex_intro _ (ch "5") (conj (or_introl eq_refl) eq_refl)))).
    + vm_compute. reflexivity.
    + intros c Hc. repeat (destruct Hc as [<- | Hc]; [reflexivity |]).
      destruct Hc.
Defined.

(** ** parseNumber *)

Lemma digitsFuel_digits (fuel : nat) :
  forall (z : Z) (acc : jsstring),
    0 <= z -> (forall c, In c acc -> isDigit c = true) ->
    forall c, In c (digitsFuel fuel z acc) -> isDigit c = true.
Proof.
  induction fuel as [|fuel IH]; intros z acc Hz Hacc; cbn [digitsFuel];
    [exact Hacc |].
  assert (Hd : forall c, In c ((48 + Z.to_N (z mod 10))%N :: acc) ->
                         isDigit c = true).
  { intros c [<- | Hc]; [| apply Hacc, Hc].
    pose proof (Z.mod_pos_bound z 10 ltac:(lia)) as Hm.
    unfold isDigit. apply andb_true_intro. split; apply N.leb_le; lia. }
  destruct (z <? 10); [exact Hd |].
  apply IH; [apply Z.div_pos; lia | exact Hd].
Qed.

Lemma digitsFuel_length (fuel : nat) :
  forall (z : Z) (acc : jsstring),
    len acc <= len (digitsFuel fuel z acc).
Proof.
  induction fuel as [|fuel IH]; intros z acc; cbn [digitsFuel]; [lia |].
  destruct (z <? 10).
  - unfold len. cbn [List.length]. lia.
  - specialize (IH (z / 10) ((48 + Z.to_N (z mod 10))%N :: acc)).
    unfold len in *. cbn [List.length] in IH. lia.
Qed.

Lemma digitsOfZ_digits (z : Z) :
  0 <= z ->
  (forall c, In c (digitsOfZ z) -> isDigit c = true) /\ 1 <= len (digitsOfZ z).
Proof.
  intros Hz. unfold digitsOfZ. split.
  - apply digitsFuel_digits; [exact Hz | intros c []].
  - cbn [digitsFuel].
    destruct (z <? 10); [unfold len; cbn [List.length]; lia |].
    pose proof (digitsFuel_length (Z.to_nat (Z.log2 z)) (z / 10)
                  [(48 + Z.to_N (z mod 10))%N]) as H.
    unfold len in *. cbn [List.length] in H. exact H.
Qed.

Lemma splitDot_digits (s : jsstring) :
  (forall c, In c s -> isDigit c = true) -> splitDot s = [s].
Proof.
  induction s as [|c s IH]; intros Hs; [reflexivity |]. cbn [splitDot].
  assert (Hc : isCh "." c = false).
  { pose proof (Hs c (or_introl eq_refl)) as Hd. apply digit_cases in Hd.
    repeat (destruct Hd as [-> | Hd]; [reflexivity |]). subst. reflexivity. }
  rewrite Hc, IH by (intros d Hd; apply Hs; right; exact Hd). reflexivity.
Qed.

Lemma splitDot_point (a b : jsstring) :
  (forall c, In c a -> isDigit c = true) ->
  (forall c, In c b -> isDigit c = true) ->
  splitDot (a ++ lit "." ++ b) = [a; b].
Proof.
  intros Ha Hb. induction a as [|c a IH]; cbn [app lit splitDot].
  - change (isCh "." (ch ".")) with true. cbv iota.
    rewrite (splitDot_digits b Hb). reflexivity.
  - assert (Hc : isCh "." c = false).
    { pose proof (Ha c (or_introl eq_refl)) as Hd. apply digit_cases in Hd.
      repeat (destruct Hd as [-> | Hd]; [reflexivity |]). subst. reflexivity. }
    rewrite Hc. cbn [lit app] in IH.
    rewrite IH by (intros d Hd; apply Ha; right; exact Hd). reflexivity.
Qed.

Lemma fraction_pos (m : positive) (e : Z) :
  0 < fst (fraction m e) /\ 0 < snd (fraction m e).
Proof.
  unfold fraction. destruct (0 <=? e) eqn:He; cbn [fst snd].
  - apply Z.leb_le in He.
    assert (0 < 2 ^ e) by (apply Z.pow_pos_nonneg; lia).
    split; [apply Z.mul_pos_pos; lia | lia].
  - apply Z.leb_gt in He.
    assert (0 < 2 ^ (- e)) by (apply Z.pow_pos_nonneg; lia).
    split; lia.
Qed.

(** The shape of [x.toFixed(f)] for [x >= 0] below [10^21] and
    [1 <= f <= 100]: digits, a point and exactly [f] digits. *)
Lemma toFixed_shape (x : number) (f : Z) :
  belowE21 x = true -> 1 <= f <= 100 ->
  exists a b : jsstring,
    toFixed (abs x) f = Return (a ++ lit "." ++ b)
    /\ (forall c, In c a -> isDigit c = true) /\ a <> []
    /\ (forall c, In c b -> isDigit c = true) /\ len b = f.
Proof.
  intros Hx Hf. unfold toFixed.
  assert (Hr : (f <? 0) || (100 <? f) = false).
  { apply orb_false_intro; apply Z.ltb_ge; lia. }
  rewrite Hr.
  assert (H0 : (f =? 0) = false) by (apply Z.eqb_neq; lia).
  destruct x as [s|s| |s m e]; try discriminate; cbn [abs SFabs].
  - rewrite H0. exists (lit "0"), (repeat_unit (ch "0") f).
    split; [reflexivity |]. split; [intros c [<- | []]; reflexivity |].
    split; [discriminate |]. unfold repeat_unit. split.
    + intros c Hc. apply repeat_spec in Hc. subst. reflexivity.
    + unfold len. rewrite repeat_length. lia.
  - cbn [belowE21] in Hx. destruct (fraction m e) as [p q] eqn:Hpq.
    apply negb_true_iff in Hx. rewrite Hx, H0. cbn [app].
    set (n := (2 * p * 10 ^ f + q) / (2 * q)).
    assert (Hn : 0 <= n).
    { assert (Hp : 0 < p /\ 0 < q).
      { pose proof (fraction_pos m e) as Hfp. rewrite Hpq in Hfp.
        exact Hfp. }
      subst n. apply Z.div_pos; [| lia].
      assert (0 < 10 ^ f) by (apply Z.pow_pos_nonneg; lia). nia. }
    destruct (digitsOfZ_digits n Hn) as [Hdig Hlen].
    set (ds' := if len (digitsOfZ n) <=? f
                then padStart0 (digitsOfZ n) (f + 1) else digitsOfZ n).
    assert (Hds' : (forall c, In c ds' -> isDigit c = true) /\ f + 1 <= len ds').
    { subst ds'. destruct (len (digitsOfZ n) <=? f) eqn:Hle.
      - apply Z.leb_le in Hle. unfold padStart0, repeat_unit. split.
        + intros c Hc. apply in_app_or in Hc. destruct Hc as [Hc | Hc].
          * apply repeat_spec in Hc. subst. reflexivity.
          * apply Hdig, Hc.
        + unfold len in *. rewrite length_app, repeat_length. lia.
      - apply Z.leb_gt in Hle. split; [exact Hdig | lia]. }
    destruct Hds' as [Hd' Hl'].
    exists (firstn (Z.to_nat (len ds' - f)) ds'),
           (skipn (Z.to_nat (len ds' - f)) ds').
    split; [reflexivity |]. split; [| split; [| split]].
    + intros c Hc. apply Hd'. rewrite <- (firstn_skipn (Z.to_nat (len ds' - f))).
      apply in_or_app. left. exact Hc.
    + intros Hnil. apply (f_equal (@List.length _)) in Hnil.
      rewrite length_firstn in Hnil. cbn [List.length] in Hnil.
      unfold len in *. lia.
    + intros c Hc. apply Hd'. rewrite <- (firstn_skipn (Z.to_nat (len ds' - f))).
      apply in_or_app. right. exact Hc.
    + unfold len in *. rewrite length_skipn. lia.
Qed.

(** X16: for a finite number of magnitude below [10^21] and at most 98
    decimal places, [parseNumber] returns an integer part and a decimal part
    made of digits, the decimal part of exactly [max(decimalPlaces + 2, 10)]
    characters (the padding to [decimalPlaces + 1] never adds any), and
    [isNegative] exactly when the number is below zero; with more than 98
    decimal places it throws a [RangeError]. *)
Theorem parseNumber_shape (value : number) (decimalPlaces : Z) :
  (belowE21 value = true -> decimalPlaces <= 98 ->
   exists r : Utils.parsed,
     Utils.parseNumber value decimalPlaces = Return r
     /\ Utils.isNegative r = lt value zero
     /\ (forall c, In c (Utils.intPart r) -> isDigit c = true)
     /\ Utils.intPart r <> []
     /\ (forall c, In c (Utils.decPart r) -> isDigit c = true)
     /\ len (Utils.decPart r) = Z.max (decimalPlaces + 2) 10)
  /\ (98 < decimalPlaces ->
      Utils.parseNumber value decimalPlaces = Throw RangeError).
Proof.
  unfold Utils.parseNumber. split.
  - intros Hx Hdp.
    destruct (toFixed_shape value (Z.max (decimalPlaces + 2) 10) Hx
                ltac:(lia)) as (a & b & Hfix & Ha & Hne & Hb & Hlen).
    rewrite Hfix. cbn [bind]. rewrite (splitDot_point a b Ha Hb).
    cbn [nth].
    assert (Hpad : Utils.padEnd0 b (decimalPlaces + 1) = b).
    { unfold Utils.padEnd0, repeat_unit.
      replace (Z.to_nat (decimalPlaces + 1 - len b)) with O by lia.
      apply app_nil_r. }
    rewrite Hpad. eexists. split; [reflexivity |].
    cbn [Utils.isNegative Utils.intPart Utils.decPart].
    repeat split; assumption.
  - intros Hdp. unfold toFixed.
    assert (Hr : (Z.max (decimalPlaces + 2) 10 <? 0)
                 || (100 <? Z.max (decimalPlaces + 2) 10) = true).
    { apply orb_true_iff. right. apply Z.ltb_lt. lia. }
    rewrite Hr. reflexivity.
Qed.

Lemma parseNumber_shape_witness :
  exists r : Utils.parsed,
    Utils.parseNumber (ofDecimal true 12345 (-2)) 2 = Return r
    /\ Utils.isNegative r = true
    /\ len (Utils.decPart r) = 10.
Proof.
  destruct (proj1 (parseNumber_shape (ofDecimal true 12345 (-2)) 2)
              eq_refl ltac:(discriminate))
    as (r & Hr & Hn & _ & _ & _ & Hl).
  exists r. split; [exact Hr |]. split; [exact Hn | exact Hl].
Defined.

(** * The multiplier *)

Lemma shr_1_even (z : Z) :
  0 < z ->
  shr_1 {| shr_m := 2 * z; shr_r := false; shr_s := false |}
  = {| shr_m := z; shr_r := false; shr_s := false |}.
Proof. destruct z as [|q|q]; try lia. reflexivity. Qed.

Lemma iter_shr_1_exact (p : positive) :
  forall z : Z,
    0 < z ->
    iter_pos shr_1 p
      {| shr_m := z * 2 ^ Zpos p; shr_r := false; shr_s := false |}
    = {| shr_m := z; shr_r := false; shr_s := false |}.
Proof.
  induction p as [p IH|p IH|]; intros z Hz; cbn [iter_pos].
  - assert (Hp : 0 < z * 2 ^ Zpos p)
      by (apply Z.mul_pos_pos; [lia | apply Z.pow_pos_nonneg; lia]).
    assert (Hp2 : 0 < z * 2 ^ Zpos p * 2 ^ Zpos p)
      by (apply Z.mul_pos_pos; [lia | apply Z.pow_pos_nonneg; lia]).
    replace (z * 2 ^ Zpos p~1) with (2 * (z * 2 ^ Zpos p * 2 ^ Zpos p)).
    + rewrite (shr_1_even _ Hp2), (IH _ Hp), (IH _ Hz). reflexivity.
    + rewrite (Pos2Z.inj_xI p), Z.pow_add_r, Z.pow_mul_r by lia.
      change (2 ^ 2) with 4. change (2 ^ 1) with 2.
      replace (4 ^ Zpos p) with (2 ^ Zpos p * 2 ^ Zpos p).
      * ring.
      * rewrite <- Z.pow_mul_l. reflexivity.
  - assert (Hp : 0 < z * 2 ^ Zpos p)
      by (apply Z.mul_pos_pos; [lia | apply Z.pow_pos_nonneg; lia]).
    replace (z * 2 ^ Zpos p~0) with (z * 2 ^ Zpos p * 2 ^ Zpos p).
    + rewrite (IH _ Hp), (IH _ Hz). reflexivity.
    + rewrite (Pos2Z.inj_xO p), Z.pow_mul_r by lia.
      change (2 ^ 2) with 4.
      replace (4 ^ Zpos p) with (2 ^ Zpos p * 2 ^ Zpos p).
      * ring.
      * rewrite <- Z.pow_mul_l. reflexivity.
  - change (2 ^ 1) with 2. rewrite Z.mul_comm. apply shr_1_even. exact Hz.
Qed.

(** Multiplying by one gives the number back. *)
Lemma mul_one (x : number) : wellFormed x -> mul x one = x.
Proof.
  destruct x as [s|s| |s m e]; intros Hwf; try reflexivity;
    try (destruct s; reflexivity).
  unfold wellFormed, valid_binary, bounded, canonical_mantissa in Hwf.
  apply andb_prop in Hwf. destruct Hwf as [Hc Hb].
  apply Z.eqb_eq in Hc.
  change one with (S754_finite false 4503599627370496 (-52)).
  unfold mul, SFmul. rewrite xorb_false_r.
  unfold binary_round_aux, shr_fexp. cbn [Zdigits2 shr_record_of_loc].
  assert (Hd : Zpos (digits2_pos (m * 4503599627370496))
               = Zpos (digits2_pos m) + 52).
  { apply digits2_shift; [lia |]. rewrite Pos2Z.inj_mul. reflexivity. }
  rewrite Hd.
  replace (Zpos (digits2_pos m) + 52 + (e + -52))
    with (Zpos (digits2_pos m) + e) by lia.
  rewrite Hc.
  replace (e - (e + -52)) with 52 by lia.
  cbn [shr].
  replace (Zpos (m * 4503599627370496)) with (Zpos m * 2 ^ 52)
    by (rewrite Pos2Z.inj_mul; reflexivity).
  rewrite (iter_shr_1_exact 52 (Zpos m) ltac:(lia)).
  cbn [shr_m loc_of_shr_record round_nearest_even Zdigits2 shr_record_of_loc].
  replace (e + -52 + 52) with e by lia.
  rewrite Hc, Z.sub_diag. cbn [shr shr_m]. rewrite Hb. reflexivity.
Qed.

(** X17: the multiplier only scales the value: when the scaled value is
    finite, formatting [v] is formatting the scaled value under the same
    rules with the multiplier set to 1.  So a percent pattern formats [v] as
    the same pattern without scaling formats [100 * v]. *)
Theorem format_multiplier (log10 : number -> number) (this : DecimalFormat)
  (v : number) :
  isNaN v = false -> isFinite v = true ->
  let scaled := mul v (multiplier (parsedPattern this)) in
  isFinite scaled = true -> wellFormed scaled ->
  format log10 this v
  = format log10 (after (Setters.setMultiplier one this)) scaled.
Proof.
  intros Hn Hf. cbv zeta. intros Hfs Hwf.
  set (scaled := mul v (multiplier (parsedPattern this))) in *.
  unfold format. rewrite Hn, Hf, Hfs.
  assert (Hns : isNaN scaled = false) by (destruct scaled; try discriminate; reflexivity).
  rewrite Hns. cbn [negb].
  cbn [after Setters.setMultiplier Setters.withRules snd parsedPattern
       multiplier negativePrefix positivePrefix negativeSuffix positiveSuffix].
  rewrite (mul_one scaled Hwf). fold scaled.
  f_equal.
Qed.

Lemma format_multiplier_witness :
  let this := new (Some (lit "#,##0.00%")) in
  let v := ofDecimal false 1234 (-4) in
  isNaN v = false /\ isFinite v = true
  /\ isFinite (mul v (multiplier (parsedPattern this))) = true
  /\ wellFormed (mul v (multiplier (parsedPattern this)))
  /\ format log10Approx this v = Return (lit "12.34%").
Proof.
  cbv zeta.
  split; [reflexivity | split; [reflexivity |
    split; [reflexivity | split; [reflexivity |]]]].
  rewrite (format_multiplier log10Approx (new (Some (lit "#,##0.00%")))
             (ofDecimal false 1234 (-4)) eq_refl eq_refl eq_refl eq_refl).
  vm_compute. reflexivity.
Defined.

(** * Exact results of the arithmetic *)

Lemma canonical_digits (m : positive) (e : Z) :
  canonical_mantissa prec emax m e = true <->
  Z.max (Zpos (digits2_pos m) + e - 53) (-1074) = e.
Proof.
  unfold canonical_mantissa, fexp, SpecFloat.emin, prec, emax.
  rewrite Z.eqb_eq. reflexivity.
Qed.

(** A mantissa that has to be shifted left by [k] to be canonical. *)
Lemma binary_round_left (s : bool) (z m' : positive) (e' k : Z) :
  0 <= k -> Zpos m' = Zpos z * 2 ^ k ->
  canonical_mantissa prec emax m' e' = true -> e' <= emax - prec ->
  binary_round prec emax s z (e' + k) = S754_finite s m' e'.
Proof.
  intros Hk Hm Hc He. unfold binary_round.
  pose proof (digits2_shift z k m' Hk Hm) as Hd.
  pose proof (proj1 (canonical_digits m' e') Hc) as Hc'.
  assert (Hf : fexp prec emax (Zpos (digits2_pos z) + (e' + k)) = e').
  { unfold fexp, SpecFloat.emin, prec, emax. lia. }
  rewrite Hf. unfold shl_align.
  replace (e' - (e' + k)) with (- k) by lia.
  destruct k as [|kp|kp]; try lia; cbn [Z.opp].
  - rewrite Z.add_0_r.
    assert (z = m') by (apply Pos2Z.inj; rewrite Hm; cbn; lia). subst z.
    apply binary_round_aux_canonical; assumption.
  - assert (Pos.iter xO z kp = m')
      by (apply Pos2Z.inj; rewrite iter_xO_value, Hm; reflexivity).
    subst m'. apply binary_round_aux_canonical; assumption.
Qed.

(** A mantissa that ends with [k] zero bits more than the canonical one. *)
Lemma binary_round_right (s : bool) (z m' : positive) (e' : Z) (k : positive) :
  Zpos z = Zpos m' * 2 ^ Zpos k ->
  canonical_mantissa prec emax m' e' = true -> e' <= emax - prec ->
  binary_round prec emax s z (e' - Zpos k) = S754_finite s m' e'.
Proof.
  intros Hz Hc He. unfold binary_round.
  pose proof (digits2_shift m' (Zpos k) z ltac:(lia) Hz) as Hd.
  pose proof (proj1 (canonical_digits m' e') Hc) as Hc'.
  assert (Hf : fexp prec emax (Zpos (digits2_pos z) + (e' - Zpos k)) = e').
  { unfold fexp, SpecFloat.emin, prec, emax. lia. }
  rewrite Hf. unfold shl_align.
  replace (e' - (e' - Zpos k)) with (Zpos k) by lia. cbv iota.
  unfold binary_round_aux, shr_fexp. cbn [Zdigits2 shr_record_of_loc].
  rewrite Hf. replace (e' - (e' - Zpos k)) with (Zpos k) by lia.
  cbn [shr]. rewrite Hz, (iter_shr_1_exact k (Zpos m') ltac:(lia)).
  cbn [shr_m loc_of_shr_record round_nearest_even Zdigits2 shr_record_of_loc].
  replace (e' - Zpos k + Zpos k) with e' by lia.
  apply Z.eqb_eq in Hc. rewrite Hc, Z.sub_diag. cbn [shr shr_m].
  apply Z.leb_le in He. rewrite He. reflexivity.
Qed.

Lemma mul_comm (x y : number) : mul x y = mul y x.
Proof.
  destruct x as [sx|sx| |sx mx ex], y as [sy|sy| |sy my ey];
    unfold mul, SFmul;
    rewrite ?(xorb_comm sx sy), ?(Pos.mul_comm mx my), ?(Z.add_comm ex ey);
    reflexivity.
Qed.

Lemma shl_align_value (m : positive) (e e' : Z) :
  e' <= e ->
  Zpos (fst (shl_align m e e')) = Zpos m * 2 ^ (e - e').
Proof.
  intros He. unfold shl_align.
  destruct (e' - e) as [|d|d] eqn:Hd; try lia; cbn [fst].
  - replace (e - e') with 0 by lia. lia.
  - rewrite iter_xO_value. f_equal. f_equal. lia.
Qed.

(** The number of a natural number below [2^53]. *)
Lemma ofZ_small (n : positive) :
  Zpos (digits2_pos n) <= 53 ->
  exists m : positive,
    ofZ (Zpos n) = S754_finite false m (Zpos (digits2_pos n) - 53)
    /\ Zpos m = Zpos n * 2 ^ (53 - Zpos (digits2_pos n))
    /\ wellFormed (S754_finite false m (Zpos (digits2_pos n) - 53)).
Proof.
  intros Hd. destruct (binary_round_small false n Hd) as (m & Hr & Hm).
  exists m. split; [exact Hr |]. split; [exact Hm |].
  unfold wellFormed, valid_binary, bounded. apply andb_true_intro. split.
  - apply canonical_digits.
    rewrite (digits2_shift n (53 - Zpos (digits2_pos n)) m ltac:(lia) Hm).
    lia.
  - apply Z.leb_le. unfold emax, prec. lia.
Qed.

(** ** Ties between two integers under HALF_EVEN *)

Lemma pow2_pos (k : Z) : 0 <= k -> exists p : positive, Zpos p = 2 ^ k.
Proof.
  intros Hk. assert (H : 0 < 2 ^ k) by (apply Z.pow_pos_nonneg; lia).
  destruct (2 ^ k) as [|p|p]; try lia. exists p. reflexivity.
Qed.

(** The number [n + 1/2], for [1 <= n < 2^52], in canonical form. *)
Lemma halfInteger_canonical (n : positive) :
  Zpos (digits2_pos n) <= 52 ->
  exists mx : positive,
    halfInteger (Zpos n) = S754_finite false mx (Zpos (digits2_pos n) - 53)
    /\ Zpos mx = (2 * Zpos n + 1) * 2 ^ (52 - Zpos (digits2_pos n)).
Proof.
  intros Hd. unfold halfInteger.
  change (2 * Zpos n + 1) with (Zpos n~1). cbn [binary_normalize].
  destruct (pow2_pos (52 - Zpos (digits2_pos n)) ltac:(lia)) as (p & Hp).
  exists (n~1 * p)%positive.
  assert (Hm : Zpos (n~1 * p) = Zpos n~1 * 2 ^ (52 - Zpos (digits2_pos n)))
    by (rewrite Pos2Z.inj_mul, Hp; reflexivity).
  split; [| exact Hm].
  replace (-1) with (Zpos (digits2_pos n) - 53 + (52 - Zpos (digits2_pos n)))
    by lia.
  apply binary_round_left; [lia | exact Hm | | unfold emax, prec; lia].
  apply canonical_digits.
  rewrite (digits2_shift n~1 (52 - Zpos (digits2_pos n)) _ ltac:(lia) Hm).
  cbn [digits2_pos]. rewrite Pos2Z.inj_succ. lia.
Qed.

Lemma half_eq : half = S754_finite false 4503599627370496 (-53).
Proof. reflexivity. Qed.

Lemma one_eq : one = S754_finite false 4503599627370496 (-52).
Proof. reflexivity. Qed.

Lemma two_eq : two = S754_finite false 4503599627370496 (-51).
Proof. reflexivity. Qed.

Lemma digits_bounds (n : positive) (Hd : Zpos (digits2_pos n) <= 52) :
  1 <= Zpos (digits2_pos n) <= 52.
Proof. lia. Qed.

Lemma floor_halfInteger (n : positive) (Hd : Zpos (digits2_pos n) <= 52)
  (mx : positive)
  (Hx : halfInteger (Zpos n) = S754_finite false mx (Zpos (digits2_pos n) - 53))
  (Hmx : Zpos mx = (2 * Zpos n + 1) * 2 ^ (52 - Zpos (digits2_pos n))) :
  floor (halfInteger (Zpos n)) = ofZ (Zpos n).
Proof.
  pose proof (digits_bounds n Hd) as Hb.
  rewrite Hx. unfold floor.
  assert (He : (0 <=? Zpos (digits2_pos n) - 53) = false) by (apply Z.leb_gt; lia).
  rewrite He. cbn [cond_Zopp]. rewrite Z.shiftr_div_pow2 by lia.
  rewrite Hmx.
  replace (- (Zpos (digits2_pos n) - 53)) with (1 + (52 - Zpos (digits2_pos n))) by lia.
  rewrite Z.pow_add_r by lia. change (2 ^ 1) with 2.
  assert (Hp : 0 < 2 ^ (52 - Zpos (digits2_pos n))) by (apply Z.pow_pos_nonneg; lia).
  rewrite Z.div_mul_cancel_r by lia.
  replace ((2 * Zpos n + 1) / 2) with (Zpos n); [reflexivity |].
  apply Z.div_unique with (r := 1); lia.
Qed.

Lemma fraction_halfInteger (n : positive)
  (Hd : Zpos (digits2_pos n) <= 52) (mx mf : positive)
  (Hx : halfInteger (Zpos n) = S754_finite false mx (Zpos (digits2_pos n) - 53))
  (Hmx : Zpos mx = (2 * Zpos n + 1) * 2 ^ (52 - Zpos (digits2_pos n)))
  (Hf : ofZ (Zpos n) = S754_finite false mf (Zpos (digits2_pos n) - 53))
  (Hmf : Zpos mf = Zpos n * 2 ^ (53 - Zpos (digits2_pos n))) :
  sub (halfInteger (Zpos n)) (ofZ (Zpos n)) = half.
Proof.
  pose proof (digits_bounds n Hd) as Hb.
  rewrite Hx, Hf. unfold sub, SFsub. rewrite Z.min_id.
  cbn [cond_Zopp]. rewrite !shl_align_value by lia.
  rewrite Z.sub_diag. change (2 ^ 0) with 1. rewrite !Z.mul_1_r.
  rewrite Hmx, Hmf.
  replace (53 - Zpos (digits2_pos n)) with (Z.succ (52 - Zpos (digits2_pos n))) by lia.
  rewrite Z.pow_succ_r by lia.
  replace ((2 * Zpos n + 1) * 2 ^ (52 - Zpos (digits2_pos n)) - Zpos n * (2 * 2 ^ (52 - Zpos (digits2_pos n))))
    with (2 ^ (52 - Zpos (digits2_pos n))) by ring.
  destruct (pow2_pos (52 - Zpos (digits2_pos n)) ltac:(lia)) as (p & Hp).
  rewrite <- Hp. cbn [binary_normalize]. rewrite half_eq.
  replace (Zpos (digits2_pos n) - 53) with (-53 + Zpos (digits2_pos n)) by lia.
  apply binary_round_left; [lia | | reflexivity | unfold emax, prec; lia].
  rewrite Hp, <- Z.pow_add_r by lia.
  replace (52 - Zpos (digits2_pos n) + Zpos (digits2_pos n)) with 52 by lia. reflexivity.
Qed.

Lemma rem_two_ofZ (n : positive) (Hd : Zpos (digits2_pos n) <= 52)
  (mf : positive)
  (Hf : ofZ (Zpos n) = S754_finite false mf (Zpos (digits2_pos n) - 53))
  (Hmf : Zpos mf = Zpos n * 2 ^ (53 - Zpos (digits2_pos n))) :
  seq (rem (ofZ (Zpos n)) two) zero = Z.even (Zpos n).
Proof.
  pose proof (digits_bounds n Hd) as Hb.
  rewrite Hf, two_eq. unfold rem.
  set (e := Z.min (Zpos (digits2_pos n) - 53) (-51)).
  assert (He : -52 <= e <= -51 /\ e <= Zpos (digits2_pos n) - 53) by (subst e; lia).
  assert (HP : 0 < 2 ^ (- e)) by (apply Z.pow_pos_nonneg; lia).
  assert (Ha : Zpos mf * 2 ^ (Zpos (digits2_pos n) - 53 - e) = Zpos n * 2 ^ (- e)).
  { rewrite Hmf, <- Z.mul_assoc, <- Z.pow_add_r by lia.
    f_equal. f_equal. lia. }
  assert (Hb2 : 4503599627370496 * 2 ^ (-51 - e) = 2 * 2 ^ (- e)).
  { change 4503599627370496 with (2 ^ 52).
    rewrite <- Z.pow_add_r by lia.
    replace (52 + (-51 - e)) with (Z.succ (- e)) by lia.
    apply Z.pow_succ_r. lia. }
  rewrite Ha, Hb2.
  rewrite Z.mul_mod_distr_r by lia. cbn [cond_Zopp].
  rewrite Zmod_even.
  destruct (Z.even (Zpos n)).
  - rewrite Z.mul_0_l. reflexivity.
  - rewrite Z.mul_1_l.
    destruct (pow2_pos (- e) ltac:(lia)) as (p & Hp).
    rewrite <- Hp. cbn [binary_normalize].
    replace e with (-52 + (e + 52)) at 1 by lia.
    rewrite (binary_round_left false p 4503599627370496 (-52) (e + 52));
      [reflexivity | lia | | reflexivity | unfold emax, prec; lia].
    rewrite Hp, <- Z.pow_add_r by lia.
    replace (- e + (e + 52)) with 52 by lia. reflexivity.
Qed.

Lemma add_one_ofZ (n : positive) (Hd : Zpos (digits2_pos n) <= 52)
  (mf : positive)
  (Hf : ofZ (Zpos n) = S754_finite false mf (Zpos (digits2_pos n) - 53))
  (Hmf : Zpos mf = Zpos n * 2 ^ (53 - Zpos (digits2_pos n))) :
  add (ofZ (Zpos n)) one = ofZ (Zpos n + 1).
Proof.
  pose proof (digits_bounds n Hd) as Hb.
  assert (Hdg : 2 <= Zpos (digits2_pos (n + 1)) <= 53).
  { rewrite digits2_log2, Pos2Z.inj_add.
    pose proof (digits2_log2 n) as Hl.
    pose proof (Z.log2_succ_le (Zpos n)) as Hs.
    unfold Z.succ in Hs.
    pose proof (Z.log2_le_mono 2 (Zpos n + 1) ltac:(lia)) as Hm.
    change (Z.log2 2) with 1 in Hm.
    lia. }
  destruct (ofZ_small (n + 1) ltac:(lia)) as (mg & Hg & Hmg & Hwf).
  change (Zpos n + 1) with (Zpos (n + 1)). rewrite Hg.
  rewrite Hf, one_eq. unfold add, SFadd.
  replace (Z.min (Zpos (digits2_pos n) - 53) (-52)) with (-52) by lia.
  cbn [cond_Zopp]. rewrite !shl_align_value by lia.
  rewrite Z.sub_diag. change (2 ^ 0) with 1. rewrite Z.mul_1_r.
  rewrite Hmf, <- Z.mul_assoc, <- Z.pow_add_r by lia.
  replace (53 - Zpos (digits2_pos n) + (Zpos (digits2_pos n) - 53 - -52)) with 52 by lia.
  change 4503599627370496 with (2 ^ 52).
  replace (Zpos n * 2 ^ 52 + 2 ^ 52) with (Zpos (n + 1) * 2 ^ 52)
    by (rewrite Pos2Z.inj_add; ring).
  change (Zpos (n + 1) * 2 ^ 52) with (Zpos ((n + 1) * 4503599627370496)).
  cbn [binary_normalize].
  set (dg := Zpos (digits2_pos (n + 1))) in *.
  destruct (Z.to_pos (dg - 1)) as [kp|kp|] eqn:Hk;
    set (k := Z.to_pos (dg - 1)) in *;
    assert (Hkz : Zpos k = dg - 1) by (subst k; rewrite Z2Pos.id; lia);
    replace (-52) with (dg - 53 - Zpos k) by lia;
    (apply binary_round_right;
     [ rewrite Pos2Z.inj_mul, Hmg, <- Z.mul_assoc, <- Z.pow_add_r by lia;
       f_equal; rewrite Hkz; change 4503599627370496 with (2 ^ 52);
       f_equal; lia
     | unfold wellFormed, valid_binary, bounded in Hwf;
       apply andb_prop in Hwf; exact (proj1 Hwf)
     | unfold emax, prec; lia ]).
Qed.


Lemma wellFormed_ofZ (n : positive) :
  Zpos (digits2_pos n) <= 53 -> wellFormed (ofZ (Zpos n)).
Proof.
  intros Hd. destruct (ofZ_small n Hd) as (m & -> & _ & Hwf). exact Hwf.
Qed.

Lemma mul_one_l (x : number) : wellFormed x -> mul one x = x.
Proof. intros H. rewrite mul_comm. apply mul_one, H. Qed.

Lemma round_mirror_negation (this : DecimalFormat) (x : number) :
  roundingMode this = HALF_EVEN -> isPositive x = true ->
  round this (neg x) 0 = (r <- round this x 0 ;; Return (neg r)).
Proof.
  intros Hm Hx. unfold round. cbn [Z.eqb].
  unfold roundInteger. rewrite Hm, abs_neg.
  destruct (isPositive_signs x Hx) as (-> & _ & _ & -> & _).
  cbn [bind]. rewrite mul_minusOne. reflexivity.
Qed.

Lemma digits_below (n : positive) :
  Zpos n < 2 ^ 52 -> Zpos (digits2_pos n) <= 52.
Proof.
  intros Hn. rewrite digits2_log2.
  pose proof (proj1 (Z.log2_lt_pow2 (Zpos n) 52 ltac:(lia)) Hn). lia.
Qed.

(** What the tie branch of [HALF_EVEN] chooses between [n] and [n + 1]. *)
Lemma even_neighbour (n : positive) :
  Zpos (digits2_pos n) <= 52 ->
  (if seq (rem (ofZ (Zpos n)) two) zero then ofZ (Zpos n)
   else add (ofZ (Zpos n)) one)
  = ofZ (if Z.even (Zpos n) then Zpos n else Zpos n + 1).
Proof.
  intros Hd.
  destruct (ofZ_small n ltac:(lia)) as (mf & Hf & Hmf & _).
  rewrite (rem_two_ofZ n Hd mf Hf Hmf).
  destruct (Z.even (Zpos n)); [reflexivity |].
  apply (add_one_ofZ n Hd mf Hf Hmf).
Qed.

Lemma wellFormed_even_neighbour (n : positive) :
  Zpos (digits2_pos n) <= 52 ->
  wellFormed (ofZ (if Z.even (Zpos n) then Zpos n else Zpos n + 1)).
Proof.
  intros Hd. destruct (Z.even (Zpos n)).
  - apply wellFormed_ofZ. lia.
  - change (Zpos n + 1) with (Zpos (n + 1)). apply wellFormed_ofZ.
    rewrite digits2_log2, Pos2Z.inj_add.
    pose proof (digits2_log2 n) as Hl.
    pose proof (Z.log2_succ_le (Zpos n)) as Hs.
    unfold Z.succ in Hs. lia.
Qed.

Lemma roundInteger_half_even_tie (this : DecimalFormat) (n : Z) :
  roundingMode this = HALF_EVEN -> 0 <= n < 2 ^ 52 ->
  roundInteger this (halfInteger n)
  = Return (ofZ (if Z.even n then n else n + 1)).
Proof.
  intros Hm Hn. destruct n as [|n|n]; try lia.
  - unfold roundInteger. rewrite Hm. reflexivity.
  - pose proof (digits_below n (proj2 Hn)) as Hd.
    destruct (halfInteger_canonical n Hd) as (mx & Hx & Hmx).
    destruct (ofZ_small n ltac:(lia)) as (mf & Hf & Hmf & _).
    unfold roundInteger. rewrite Hm.
    assert (Hsign : lt (halfInteger (Zpos n)) zero = false)
      by (rewrite Hx; reflexivity).
    assert (Habs : abs (halfInteger (Zpos n)) = halfInteger (Zpos n))
      by (rewrite Hx; reflexivity).
    rewrite Hsign, Habs.
    rewrite (floor_halfInteger n Hd mx Hx Hmx).
    rewrite (fraction_halfInteger n Hd mx mf Hx Hmx Hf Hmf).
    change (gt half half) with false. change (lt half half) with false.
    cbv iota. rewrite (even_neighbour n Hd).
    rewrite mul_one_l; [reflexivity | apply wellFormed_even_neighbour, Hd].
Qed.

Lemma isPositive_halfInteger_nonneg (n : Z) :
  0 <= n < 2 ^ 52 -> isPositive (halfInteger n) = true.
Proof.
  intros Hn. destruct n as [|n|n]; try lia; [reflexivity |].
  destruct (halfInteger_canonical n (digits_below n (proj2 Hn)))
    as (mx & -> & _).
  reflexivity.
Qed.

(** X18: at scale 0 under [HALF_EVEN], every tie between two integers goes
    to the even one: for [0 <= n < 2^52], the number [n + 1/2] is rounded to
    [n] when [n] is even and to [n + 1] when [n] is odd, and [-(n + 1/2)] to
    the negation of that. *)
Theorem roundInteger_half_even (this : DecimalFormat) (n : Z) :
  roundingMode this = HALF_EVEN ->
  0 <= n < 2 ^ 52 ->
  roundInteger this (halfInteger n)
  = Return (ofZ (if Z.even n then n else n + 1))
  /\ round this (neg (halfInteger n)) 0
     = Return (neg (ofZ (if Z.even n then n else n + 1))).
Proof.
  intros Hm Hn.
  pose proof (roundInteger_half_even_tie this n Hm Hn) as Hpos.
  split; [exact Hpos |].
  rewrite (round_mirror_negation this (halfInteger n) Hm
             (isPositive_halfInteger_nonneg n Hn)).
  unfold round. cbn [Z.eqb]. rewrite Hpos. reflexivity.
Qed.

Lemma roundInteger_half_even_witness :
  roundInteger (new None) (halfInteger 7) = Return (ofZ 8)
  /\ roundInteger (new None) (halfInteger 1000) = Return (ofZ 1000).
Proof.
  split.
  - apply (proj1 (roundInteger_half_even (new None) 7 eq_refl
                    ltac:(split; [discriminate | reflexivity]))).
  - apply (proj1 (roundInteger_half_even (new None) 1000 eq_refl
                    ltac:(split; [discriminate | reflexivity]))).
Defined.

(** ** Ties under HALF_EVEN *)






(** ** Ties at scale 0 under [HALF_UP] and [HALF_DOWN] *)

(** An integer below [2^53] scaled by a power of two is that integer. *)
Lemma normalize_scaled (z : positive) (k : Z) :
  0 <= k -> Zpos (digits2_pos z) <= 53 ->
  binary_normalize prec emax (Zpos z * 2 ^ k) (- k) false = ofZ (Zpos z).
Proof.
  intros Hk Hd.
  destruct (ofZ_small z Hd) as (m & Hf & Hm & Hwf). rewrite Hf.
  destruct (pow2_pos k Hk) as (p & Hp). rewrite <- Hp.
  change (Zpos z * Zpos p) with (Zpos (z * p)). cbn [binary_normalize].
  assert (Hc : canonical_mantissa prec emax m (Zpos (digits2_pos z) - 53)
               = true).
  { unfold wellFormed, valid_binary, bounded in Hwf.
    apply andb_prop in Hwf. exact (proj1 Hwf). }
  pose proof (digits2_log2 z) as Hl.
  pose proof (Z.log2_nonneg (Zpos z)) as Hl0.
  destruct (Z_le_gt_dec k (53 - Zpos (digits2_pos z))) as [Hle|Hgt].
  - replace (- k)
      with (Zpos (digits2_pos z) - 53 + (53 - Zpos (digits2_pos z) - k))
      by lia.
    apply binary_round_left;
      [lia | | exact Hc | unfold emax, prec; lia].
    rewrite Pos2Z.inj_mul, Hp, Hm, <- Z.mul_assoc, <- Z.pow_add_r by lia.
    f_equal. f_equal. lia.
  - destruct (k - (53 - Zpos (digits2_pos z))) as [|q|q] eqn:Hq; try lia.
    replace (- k) with (Zpos (digits2_pos z) - 53 - Zpos q) by lia.
    apply binary_round_right; [| exact Hc | unfold emax, prec; lia].
    rewrite Pos2Z.inj_mul, Hp, Hm, <- Z.mul_assoc, <- Z.pow_add_r by lia.
    f_equal. f_equal. lia.
Qed.

Lemma digits_succ (n : positive) :
  Zpos (digits2_pos n) <= 52 -> Zpos (digits2_pos (n + 1)) <= 53.
Proof.
  intros Hd. rewrite digits2_log2, Pos2Z.inj_add.
  pose proof (digits2_log2 n) as Hl.
  pose proof (Z.log2_succ_le (Zpos n)) as Hs.
  unfold Z.succ in Hs. lia.
Qed.

Lemma add_half_halfInteger (n : positive) :
  Zpos (digits2_pos n) <= 52 ->
  add (halfInteger (Zpos n)) half = ofZ (Zpos n + 1).
Proof.
  intros Hd. pose proof (digits_bounds n Hd) as Hb.
  destruct (halfInteger_canonical n Hd) as (mx & Hx & Hmx).
  rewrite Hx, half_eq. unfold add, SFadd.
  replace (Z.min (Zpos (digits2_pos n) - 53) (-53)) with (-53) by lia.
  cbn [cond_Zopp]. rewrite !shl_align_value by lia.
  rewrite Z.sub_diag. change (2 ^ 0) with 1. rewrite Z.mul_1_r.
  rewrite Hmx, <- Z.mul_assoc, <- Z.pow_add_r by lia.
  replace (52 - Zpos (digits2_pos n) + (Zpos (digits2_pos n) - 53 - -53))
    with 52 by lia.
  change 4503599627370496 with (2 ^ 52).
  replace ((2 * Zpos n + 1) * 2 ^ 52 + 2 ^ 52) with (Zpos (n + 1) * 2 ^ 53)
    by (rewrite Pos2Z.inj_add; change (2 ^ 53) with (2 * 2 ^ 52); ring).
  change (Zpos n + 1) with (Zpos (n + 1)).
  apply (normalize_scaled (n + 1) 53); [lia | apply digits_succ, Hd].
Qed.

Lemma sub_half_halfInteger (n : positive) :
  Zpos (digits2_pos n) <= 52 ->
  sub (halfInteger (Zpos n)) half = ofZ (Zpos n).
Proof.
  intros Hd. pose proof (digits_bounds n Hd) as Hb.
  destruct (halfInteger_canonical n Hd) as (mx & Hx & Hmx).
  rewrite Hx, half_eq. unfold sub, SFsub.
  replace (Z.min (Zpos (digits2_pos n) - 53) (-53)) with (-53) by lia.
  cbn [cond_Zopp negb]. rewrite !shl_align_value by lia.
  rewrite Z.sub_diag. change (2 ^ 0) with 1. rewrite Z.mul_1_r.
  rewrite Hmx, <- Z.mul_assoc, <- Z.pow_add_r by lia.
  replace (52 - Zpos (digits2_pos n) + (Zpos (digits2_pos n) - 53 - -53))
    with 52 by lia.
  change 4503599627370496 with (2 ^ 52).
  replace ((2 * Zpos n + 1) * 2 ^ 52 - 2 ^ 52) with (Zpos n * 2 ^ 53)
    by (change (2 ^ 53) with (2 * 2 ^ 52); ring).
  apply (normalize_scaled n 53); lia.
Qed.

(** [Math.floor] and [Math.ceil] leave an integer below [2^53] as it is. *)
Lemma floor_ceil_ofZ (n : positive) :
  Zpos (digits2_pos n) <= 53 ->
  floor (ofZ (Zpos n)) = ofZ (Zpos n) /\ ceil (ofZ (Zpos n)) = ofZ (Zpos n).
Proof.
  intros Hd.
  destruct (ofZ_small n Hd) as (m & Hf & Hm & _).
  pose proof (digits2_log2 n) as Hl.
  pose proof (Z.log2_nonneg (Zpos n)) as Hl0.
  rewrite Hf. unfold floor, ceil.
  destruct (0 <=? Zpos (digits2_pos n) - 53) eqn:He; [split; reflexivity |].
  apply Z.leb_gt in He. cbn [cond_Zopp negb].
  rewrite !Z.shiftr_div_pow2 by lia.
  replace (- (Zpos (digits2_pos n) - 53)) with (53 - Zpos (digits2_pos n))
    by lia.
  assert (Hp : 0 < 2 ^ (53 - Zpos (digits2_pos n)))
    by (apply Z.pow_pos_nonneg; lia).
  change (Z.neg m) with (- Zpos m). rewrite Hm.
  rewrite <- Z.mul_opp_l, !Z.div_mul by lia.
  rewrite Z.opp_involutive. split; exact Hf.
Qed.

Lemma round_halfInteger (n : positive) :
  Zpos (digits2_pos n) <= 52 ->
  Num.round (halfInteger (Zpos n)) = ofZ (Zpos n + 1).
Proof.
  intros Hd. pose proof (digits_bounds n Hd) as Hb.
  destruct (halfInteger_canonical n Hd) as (mx & Hx & Hmx).
  rewrite Hx. unfold Num.round.
  assert (He : (0 <=? Zpos (digits2_pos n) - 53) = false)
    by (apply Z.leb_gt; lia).
  rewrite He. cbn [cond_Zopp]. rewrite Z.shiftr_div_pow2 by lia.
  rewrite Hmx.
  replace (- (Zpos (digits2_pos n) - 53) - 1)
    with (52 - Zpos (digits2_pos n)) by lia.
  replace (- (Zpos (digits2_pos n) - 53))
    with (Z.succ (52 - Zpos (digits2_pos n))) by lia.
  rewrite Z.pow_succ_r by lia.
  assert (Hp : 0 < 2 ^ (52 - Zpos (digits2_pos n)))
    by (apply Z.pow_pos_nonneg; lia).
  replace ((2 * Zpos n + 1) * 2 ^ (52 - Zpos (digits2_pos n))
           + 2 ^ (52 - Zpos (digits2_pos n)))
    with ((Zpos n + 1) * (2 * 2 ^ (52 - Zpos (digits2_pos n)))) by ring.
  rewrite Z.div_mul by lia. reflexivity.
Qed.

Lemma sne_ofZ_succ (n : positive) :
  Zpos (digits2_pos n) <= 52 ->
  seq (ofZ (Zpos n + 1)) (ofZ (Zpos n)) = false.
Proof.
  intros Hd. pose proof (digits_succ n Hd) as Hd'.
  change (Zpos n + 1) with (Zpos (n + 1)).
  destruct (ofZ_small n ltac:(lia)) as (m & Hf & Hm & _).
  destruct (ofZ_small (n + 1) Hd') as (m' & Hf' & Hm' & _).
  destruct (seq (ofZ (Zpos (n + 1))) (ofZ (Zpos n))) eqn:Hs; [| reflexivity].
  rewrite Hf, Hf' in Hs.
  apply seq_finite_inv in Hs. destruct Hs as (_ & Hmm & Hee).
  subst m'. assert (Hdd : digits2_pos (n + 1) = digits2_pos n)
    by (apply Pos2Z.inj; lia).
  rewrite Hdd, Hm, Pos2Z.inj_add in Hm'.
  assert (Hp : 0 < 2 ^ (53 - Zpos (digits2_pos n)))
    by (apply Z.pow_pos_nonneg; lia).
  nia.
Qed.

(** The result of [roundInteger] on [n + 1/2] under the two modes. *)
Lemma roundInteger_tie_magnitude (n : Z) :
  0 <= n < 2 ^ 52 ->
  Num.round (halfInteger n) = ofZ (n + 1)
  /\ (if seq (floor (add (halfInteger n) half))
             (ceil (sub (halfInteger n) half))
      then floor (halfInteger n) else Num.round (halfInteger n))
     = ofZ (n + 1).
Proof.
  intros Hn. destruct n as [|n|n]; try lia; [split; reflexivity |].
  assert (Hd : Zpos (digits2_pos n) <= 52).
  { rewrite digits2_log2.
    pose proof (proj1 (Z.log2_lt_pow2 (Zpos n) 52 ltac:(lia)) ltac:(lia)).
    lia. }
  split; [apply round_halfInteger, Hd |].
  rewrite (add_half_halfInteger n Hd), (sub_half_halfInteger n Hd).
  change (Zpos n + 1) with (Zpos (n + 1)).
  rewrite (proj1 (floor_ceil_ofZ (n + 1) (digits_succ n Hd))).
  rewrite (proj2 (floor_ceil_ofZ n ltac:(lia))).
  change (Zpos (n + 1)) with (Zpos n + 1).
  rewrite (sne_ofZ_succ n Hd). apply round_halfInteger, Hd.
Qed.

Lemma isPositive_halfInteger (n : Z) :
  0 <= n < 2 ^ 52 -> isPositive (halfInteger n) = true.
Proof.
  intros Hn. destruct n as [|n|n]; try lia; [reflexivity |].
  assert (Hd : Zpos (digits2_pos n) <= 52).
  { rewrite digits2_log2.
    pose proof (proj1 (Z.log2_lt_pow2 (Zpos n) 52 ltac:(lia)) ltac:(lia)).
    lia. }
  destruct (halfInteger_canonical n Hd) as (mx & -> & _). reflexivity.
Qed.

Lemma wellFormed_ofZ_succ (n : Z) :
  0 <= n < 2 ^ 52 -> wellFormed (ofZ (n + 1)).
Proof.
  intros Hn. destruct n as [|n|n]; try lia; [reflexivity |].
  change (Zpos n + 1) with (Zpos (n + 1)). apply wellFormed_ofZ.
  apply digits_succ. rewrite digits2_log2.
  pose proof (proj1 (Z.log2_lt_pow2 (Zpos n) 52 ltac:(lia)) ltac:(lia)).
  lia.
Qed.

(** X19: at scale 0, [HALF_UP] and [HALF_DOWN] treat a tie between two
    integers alike: for [0 <= n < 2^52], [roundInteger] takes [n + 1/2] to
    [n + 1] and [-(n + 1/2)] to [-(n + 1)], away from zero, under either
    mode. *)
Theorem roundInteger_half_ties (this : DecimalFormat) (n : Z) :
  roundingMode this = HALF_UP \/ roundingMode this = HALF_DOWN ->
  0 <= n < 2 ^ 52 ->
  roundInteger this (halfInteger n) = Return (ofZ (n + 1))
  /\ roundInteger this (neg (halfInteger n)) = Return (neg (ofZ (n + 1))).
Proof.
  intros Hm Hn.
  destruct (roundInteger_tie_magnitude n Hn) as (Hup & Hdown).
  pose proof (isPositive_halfInteger n Hn) as Hp.
  pose proof (wellFormed_ofZ_succ n Hn) as Hwf.
  destruct (isPositive_signs (halfInteger n) Hp)
    as (Hlt & _ & Habs & Hltn & _ & _).
  unfold roundInteger.
  rewrite abs_neg, Habs, Hlt, Hltn.
  destruct Hm as [-> | ->].
  - rewrite Hup, mul_minusOne, mul_one_l by exact Hwf. split; reflexivity.
  - rewrite Hdown, mul_minusOne, mul_one_l by exact Hwf. split; reflexivity.
Qed.

Lemma roundInteger_half_ties_witness :
  roundInteger (instance (lit "0") HALF_DOWN) (halfInteger 2)
  = Return (ofZ 3)
  /\ roundInteger (instance (lit "0") HALF_UP) (neg (halfInteger 2))
     = Return (neg (ofZ 3)).
Proof.
  split.
  - apply (proj1 (roundInteger_half_ties (instance (lit "0") HALF_DOWN) 2
                    (or_intror eq_refl)
                    ltac:(split; [discriminate | reflexivity]))).
  - apply (proj2 (roundInteger_half_ties (instance (lit "0") HALF_UP) 2
                    (or_introl eq_refl)
                    ltac:(split; [discriminate | reflexivity]))).
Defined.

(** ** Values between two integers at scale 0 under [HALF_DOWN] *)

(** A mantissa of at most 53 bits is rounded exactly. *)
Lemma binary_round_exact (s : bool) (a : positive) (e : Z) :
  Zpos (digits2_pos a) <= 53 -> -1000 <= e <= 900 ->
  exists m : positive,
    binary_round prec emax s a e
    = S754_finite s m (Zpos (digits2_pos a) + e - 53)
    /\ Zpos m = Zpos a * 2 ^ (53 - Zpos (digits2_pos a))
    /\ canonical_mantissa prec emax m (Zpos (digits2_pos a) + e - 53) = true.
Proof.
  intros Hd He.
  pose proof (digits2_log2 a) as Hl.
  pose proof (Z.log2_nonneg (Zpos a)) as Hl0.
  destruct (pow2_pos (53 - Zpos (digits2_pos a)) ltac:(lia)) as (p & Hp).
  exists (a * p)%positive.
  assert (Hm : Zpos (a * p) = Zpos a * 2 ^ (53 - Zpos (digits2_pos a)))
    by (rewrite Pos2Z.inj_mul, Hp; reflexivity).
  assert (Hc : canonical_mantissa prec emax (a * p)
                 (Zpos (digits2_pos a) + e - 53) = true).
  { apply canonical_digits.
    rewrite (digits2_shift a (53 - Zpos (digits2_pos a)) _ ltac:(lia) Hm).
    lia. }
  split; [| split; [exact Hm | exact Hc]].
  replace e with (Zpos (digits2_pos a) + e - 53 + (53 - Zpos (digits2_pos a)))
    at 1 by lia.
  apply binary_round_left; [lia | exact Hm | exact Hc | unfold emax, prec; lia].
Qed.

(** Scaling the mantissa by a power of two and the exponent back gives the
    same number. *)
Lemma binary_round_shift (s : bool) (a : positive) (j e : Z) (aj : positive) :
  0 <= j -> Zpos aj = Zpos a * 2 ^ j ->
  Zpos (digits2_pos a) <= 53 -> -1000 <= e <= 900 ->
  binary_round prec emax s aj (e - j) = binary_round prec emax s a e.
Proof.
  intros Hj Haj Hd He.
  destruct (binary_round_exact s a e Hd He) as (m & -> & Hm & Hc).
  pose proof (digits2_log2 a) as Hl.
  pose proof (Z.log2_nonneg (Zpos a)) as Hl0.
  destruct (Z_le_gt_dec j (53 - Zpos (digits2_pos a))) as [Hle|Hgt].
  - replace (e - j)
      with (Zpos (digits2_pos a) + e - 53 + (53 - Zpos (digits2_pos a) - j))
      by lia.
    apply binary_round_left;
      [lia | | exact Hc | unfold emax, prec; lia].
    rewrite Haj, Hm, <- Z.mul_assoc, <- Z.pow_add_r by lia.
    f_equal. f_equal. lia.
  - destruct (j - (53 - Zpos (digits2_pos a))) as [|q|q] eqn:Hq; try lia.
    replace (e - j) with (Zpos (digits2_pos a) + e - 53 - Zpos q) by lia.
    apply binary_round_right; [| exact Hc | unfold emax, prec; lia].
    rewrite Haj, Hm, <- Z.mul_assoc, <- Z.pow_add_r by lia.
    f_equal. f_equal. lia.
Qed.

Lemma abs_digits (w : Z) (a : positive) :
  Z.abs w = Zpos a -> Z.abs w < 2 ^ 53 -> Zpos (digits2_pos a) <= 53.
Proof.
  intros Ha Hw. rewrite digits2_log2.
  pose proof (proj1 (Z.log2_lt_pow2 (Zpos a) 53 ltac:(lia)) ltac:(lia)).
  lia.
Qed.

Lemma normalize_shift (w j e : Z) :
  0 <= j -> Z.abs w < 2 ^ 53 -> -1000 <= e <= 900 ->
  binary_normalize prec emax (w * 2 ^ j) (e - j) false
  = binary_normalize prec emax w e false.
Proof.
  intros Hj Hw He.
  destruct (pow2_pos j Hj) as (p & Hp). rewrite <- Hp.
  destruct w as [|a|a]; cbn [Z.mul binary_normalize]; [reflexivity | |];
    apply binary_round_shift;
    try assumption; try (rewrite Pos2Z.inj_mul, Hp; reflexivity);
    first [ apply (abs_digits (Zpos a) a eq_refl Hw)
          | apply (abs_digits (Zneg a) a eq_refl Hw) ].
Qed.

(** The number [z / 2^k] in canonical form. *)
Lemma dyadic_canonical (a : positive) (k : Z) :
  Zpos (digits2_pos a) <= 53 -> 1 <= k <= 52 ->
  exists m : positive,
    dyadic (Zpos a) k = S754_finite false m (Zpos (digits2_pos a) - k - 53)
    /\ dyadic (Zneg a) k = S754_finite true m (Zpos (digits2_pos a) - k - 53)
    /\ Zpos m = Zpos a * 2 ^ (53 - Zpos (digits2_pos a)).
Proof.
  intros Hd Hk. unfold dyadic. cbn [binary_normalize].
  destruct (binary_round_exact false a (- k) Hd ltac:(lia))
    as (m & Hr & Hm & _).
  destruct (binary_round_exact true a (- k) Hd ltac:(lia))
    as (m' & Hr' & Hm' & _).
  assert (m' = m) by (apply Pos2Z.inj; lia). subst m'.
  exists m.
  replace (Zpos (digits2_pos a) - k - 53)
    with (Zpos (digits2_pos a) + - k - 53) by lia.
  auto.
Qed.

Lemma floor_dyadic (a : positive) (k : Z) :
  Zpos (digits2_pos a) <= 53 -> 1 <= k <= 52 ->
  floor (dyadic (Zpos a) k) = ofZ (Zpos a / 2 ^ k).
Proof.
  intros Hd Hk.
  pose proof (digits2_log2 a) as Hl.
  pose proof (Z.log2_nonneg (Zpos a)) as Hl0.
  destruct (dyadic_canonical a k Hd Hk) as (m & -> & _ & Hm).
  unfold floor.
  assert (He : (0 <=? Zpos (digits2_pos a) - k - 53) = false)
    by (apply Z.leb_gt; lia).
  rewrite He. cbn [cond_Zopp]. rewrite Z.shiftr_div_pow2 by lia.
  rewrite Hm.
  replace (- (Zpos (digits2_pos a) - k - 53))
    with (k + (53 - Zpos (digits2_pos a))) by lia.
  rewrite Z.pow_add_r by lia.
  assert (Hp : 0 < 2 ^ (53 - Zpos (digits2_pos a)))
    by (apply Z.pow_pos_nonneg; lia).
  rewrite Z.div_mul_cancel_r by (try apply Z.pow_nonzero; lia).
  reflexivity.
Qed.

(** [Math.ceil] of [v / 2^k], for [-2^k < v]: the integer
    [-((-v) / 2^k)], with the sign of [v] when that is zero. *)
Lemma ceil_dyadic (v k : Z) :
  1 <= k <= 52 -> Z.abs v < 2 ^ 53 ->
  ceil (dyadic v k)
  = binary_normalize prec emax (- ((- v) / 2 ^ k)) 0 (v <? 0).
Proof.
  intros Hk Hv.
  destruct v as [|a|a].
  - reflexivity.
  - pose proof (abs_digits (Zpos a) a eq_refl Hv) as Hd.
    pose proof (digits2_log2 a) as Hl.
    pose proof (Z.log2_nonneg (Zpos a)) as Hl0.
    destruct (dyadic_canonical a k Hd Hk) as (m & -> & _ & Hm).
    unfold ceil.
    assert (He : (0 <=? Zpos (digits2_pos a) - k - 53) = false)
      by (apply Z.leb_gt; lia).
    rewrite He. cbn [cond_Zopp negb]. rewrite Z.shiftr_div_pow2 by lia.
    change (Z.neg m) with (- Zpos m). rewrite Hm.
    replace (- (Zpos (digits2_pos a) - k - 53))
      with (k + (53 - Zpos (digits2_pos a))) by lia.
    rewrite Z.pow_add_r by lia.
    assert (Hp : 0 < 2 ^ (53 - Zpos (digits2_pos a)))
      by (apply Z.pow_pos_nonneg; lia).
    rewrite <- Z.mul_opp_l.
    rewrite Z.div_mul_cancel_r by (try apply Z.pow_nonzero; lia).
    reflexivity.
  - pose proof (abs_digits (Zneg a) a eq_refl Hv) as Hd.
    pose proof (digits2_log2 a) as Hl.
    pose proof (Z.log2_nonneg (Zpos a)) as Hl0.
    destruct (dyadic_canonical a k Hd Hk) as (m & _ & -> & Hm).
    unfold ceil.
    assert (He : (0 <=? Zpos (digits2_pos a) - k - 53) = false)
      by (apply Z.leb_gt; lia).
    rewrite He. cbn [cond_Zopp negb]. rewrite Z.shiftr_div_pow2 by lia.
    rewrite Hm.
    replace (- (Zpos (digits2_pos a) - k - 53))
      with (k + (53 - Zpos (digits2_pos a))) by lia.
    rewrite Z.pow_add_r by lia.
    assert (Hp : 0 < 2 ^ (53 - Zpos (digits2_pos a)))
      by (apply Z.pow_pos_nonneg; lia).
    rewrite Z.div_mul_cancel_r by (try apply Z.pow_nonzero; lia).
    reflexivity.
Qed.

(** Adding or subtracting [0.5] is exact on these numbers. *)
Lemma add_sub_half_dyadic (a : positive) (k : Z) :
  Zpos (digits2_pos a) <= 52 -> 1 <= k <= 52 ->
  add (dyadic (Zpos a) k) half = dyadic (Zpos a + 2 ^ (k - 1)) k
  /\ sub (dyadic (Zpos a) k) half = dyadic (Zpos a - 2 ^ (k - 1)) k.
Proof.
  intros Hd Hk.
  pose proof (digits2_log2 a) as Hl.
  pose proof (Z.log2_nonneg (Zpos a)) as Hl0.
  assert (Ha : Zpos a < 2 ^ 52).
  { apply Z.log2_lt_pow2; lia. }
  assert (HP : 0 < 2 ^ (k - 1) <= 2 ^ 51).
  { split; [apply Z.pow_pos_nonneg; lia |].
    apply Z.pow_le_mono_r; lia. }
  change (2 ^ 52) with 4503599627370496 in Ha.
  change (2 ^ 51) with 2251799813685248 in HP.
  destruct (dyadic_canonical a k ltac:(lia) Hk) as (m & -> & _ & Hm).
  rewrite half_eq. unfold add, sub, SFadd, SFsub.
  set (ez := Z.min (Zpos (digits2_pos a) - k - 53) (-53)).
  assert (Hez : ez <= Zpos (digits2_pos a) - k - 53 /\ ez <= -53
                /\ -200 <= ez) by (subst ez; lia).
  cbn [cond_Zopp negb]. rewrite !shl_align_value by lia.
  assert (H1 : Zpos m * 2 ^ (Zpos (digits2_pos a) - k - 53 - ez)
               = Zpos a * 2 ^ (- k - ez)).
  { rewrite Hm, <- Z.mul_assoc, <- Z.pow_add_r by lia.
    f_equal. f_equal. lia. }
  assert (H2 : 4503599627370496 * 2 ^ (-53 - ez)
               = 2 ^ (k - 1) * 2 ^ (- k - ez)).
  { change 4503599627370496 with (2 ^ 52).
    rewrite <- !Z.pow_add_r by lia. f_equal. lia. }
  rewrite H1, H2.
  unfold dyadic. split.
  - rewrite <- Z.mul_add_distr_r.
    replace ez with (- k - (- k - ez)) at 2 by lia.
    apply normalize_shift; [lia | | lia].
    change (2 ^ 53) with 9007199254740992. lia.
  - rewrite <- Z.mul_sub_distr_r.
    replace ez with (- k - (- k - ez)) at 2 by lia.
    apply normalize_shift; [lia | | lia].
    change (2 ^ 53) with 9007199254740992. lia.
Qed.

(** [===] on integers below [2^53], the second possibly a negative zero. *)
Lemma seq_ofZ (a b : Z) (s : bool) :
  0 <= a < 2 ^ 53 -> 0 <= b < 2 ^ 53 ->
  seq (ofZ a) (binary_normalize prec emax b 0 s) = (a =? b).
Proof.
  intros Ha Hb.
  destruct a as [|a|a], b as [|b|b]; try lia.
  - destruct s; reflexivity.
  - destruct (binary_round_small false b
               (abs_digits (Zpos b) b eq_refl ltac:(lia))) as (m & Hr & _).
    unfold ofZ. cbn [binary_normalize]. rewrite Hr. reflexivity.
  - destruct (binary_round_small false a
               (abs_digits (Zpos a) a eq_refl ltac:(lia))) as (m & Hr & _).
    unfold ofZ. cbn [binary_normalize]. rewrite Hr. destruct s; reflexivity.
  - destruct (binary_round_small false a
               (abs_digits (Zpos a) a eq_refl ltac:(lia))) as (m & Hr & Hm).
    destruct (binary_round_small false b
               (abs_digits (Zpos b) b eq_refl ltac:(lia))) as (m' & Hr' & Hm').
    unfold ofZ. cbn [binary_normalize]. rewrite Hr, Hr'.
    destruct (Z.eqb_spec (Zpos a) (Zpos b)) as [He|Hne].
    + injection He as ->.
      assert (m' = m) by (apply Pos2Z.inj; lia). subst m'.
      apply seq_refl_finite.
    + destruct (seq _ _) eqn:Hs; [| reflexivity].
      apply seq_finite_inv in Hs. destruct Hs as (_ & -> & Hee).
      assert (Hdd : digits2_pos a = digits2_pos b) by (apply Pos2Z.inj; lia).
      rewrite Hdd in Hm. rewrite Hm in Hm'.
      pose proof (digits2_log2 b) as Hl.
      pose proof (Z.log2_nonneg (Zpos b)) as Hl0.
      pose proof (abs_digits (Zpos b) b eq_refl ltac:(lia)) as Hdb.
      assert (Hp : 0 < 2 ^ (53 - Zpos (digits2_pos b)))
        by (apply Z.pow_pos_nonneg; lia).
      exfalso. apply Hne. nia.
Qed.

(** Off a tie, the two integers of the test in [roundInteger] agree. *)
Lemma half_down_test (z k : Z) :
  1 <= k -> 0 <= z -> z mod 2 ^ k <> 2 ^ (k - 1) ->
  (z + 2 ^ (k - 1)) / 2 ^ k = - ((- (z - 2 ^ (k - 1))) / 2 ^ k).
Proof.
  intros Hk Hz Hne.
  assert (HP : 0 < 2 ^ (k - 1)) by (apply Z.pow_pos_nonneg; lia).
  assert (H2 : 2 ^ k = 2 * 2 ^ (k - 1)).
  { replace k with (Z.succ (k - 1)) at 1 by lia. apply Z.pow_succ_r. lia. }
  rewrite H2 in *. set (P := 2 ^ (k - 1)) in *.
  pose proof (Z.div_mod z (2 * P) ltac:(lia)) as Hdm.
  pose proof (Z.mod_pos_bound z (2 * P) ltac:(lia)) as Hb.
  set (q := z / (2 * P)) in *. set (r := z mod (2 * P)) in *.
  destruct (Z_lt_ge_dec r P) as [Hlt|Hge].
  - rewrite <- (Z.div_unique (z + P) (2 * P) q (r + P)) by lia.
    rewrite <- (Z.div_unique (- (z - P)) (2 * P) (- q) (P - r)) by lia.
    lia.
  - rewrite <- (Z.div_unique (z + P) (2 * P) (q + 1) (r - P)) by lia.
    rewrite <- (Z.div_unique (- (z - P)) (2 * P) (- q - 1) (3 * P - r)) by lia.
    lia.
Qed.

Lemma wellFormed_ofZ_nonneg (q : Z) :
  0 <= q < 2 ^ 53 -> wellFormed (ofZ q).
Proof.
  intros Hq. destruct q as [|q|q]; try lia; [reflexivity |].
  apply wellFormed_ofZ, (abs_digits (Zpos q) q eq_refl). lia.
Qed.

(** X20: at scale 0 under [HALF_DOWN], a value that is not a tie is cut off
    to the integer below its magnitude, also when its fraction is above one
    half: for [0 <= z < 2^52] and [1 <= k <= 52] with [z mod 2^k] other than
    [2^(k-1)], [roundInteger] takes [z / 2^k] to the quotient of [z] by
    [2^k]. *)
Theorem roundInteger_half_down_truncates (this : DecimalFormat) (z k : Z) :
  roundingMode this = HALF_DOWN ->
  1 <= k <= 52 -> 0 <= z < 2 ^ 52 ->
  z mod 2 ^ k <> 2 ^ (k - 1) ->
  roundInteger this (dyadic z k) = Return (ofZ (z / 2 ^ k)).
Proof.
  intros Hm Hk Hz Hne.
  assert (HP : 0 < 2 ^ (k - 1) <= 2 ^ 51).
  { split; [apply Z.pow_pos_nonneg; lia |].
    apply Z.pow_le_mono_r; lia. }
  assert (HK : 0 < 2 ^ k) by (apply Z.pow_pos_nonneg; lia).
  assert (Hq : 0 <= z / 2 ^ k < 2 ^ 53).
  { split; [apply Z.div_pos; lia |].
    apply Z.le_lt_trans with z; [| change (2 ^ 53) with 9007199254740992;
                                   change (2 ^ 52) with 4503599627370496 in Hz;
                                   lia].
    apply Z.div_le_upper_bound; [lia |]. nia. }
  change (2 ^ 51) with 2251799813685248 in HP.
  change (2 ^ 52) with 4503599627370496 in Hz.
  unfold roundInteger. rewrite Hm.
  destruct z as [|a|a]; try lia.
  - rewrite Z.div_0_l by lia. reflexivity.
  - assert (Hd : Zpos (digits2_pos a) <= 52).
    { rewrite digits2_log2.
      pose proof (proj1 (Z.log2_lt_pow2 (Zpos a) 52 ltac:(lia)) ltac:(lia)).
      lia. }
    destruct (dyadic_canonical a k ltac:(lia) Hk) as (m & Hx & _ & _).
    assert (Hsign : lt (dyadic (Zpos a) k) zero = false)
      by (rewrite Hx; reflexivity).
    assert (Habs : abs (dyadic (Zpos a) k) = dyadic (Zpos a) k)
      by (rewrite Hx; reflexivity).
    rewrite Hsign, Habs.
    destruct (add_sub_half_dyadic a k Hd Hk) as (-> & ->).
    assert (Hsum : exists b, Zpos a + 2 ^ (k - 1) = Zpos b
                             /\ Zpos (digits2_pos b) <= 53).
    { destruct (Zpos a + 2 ^ (k - 1)) as [|b|b] eqn:Hb; try lia.
      exists b. split; [reflexivity |].
      apply (abs_digits (Zpos b) b eq_refl).
      change (2 ^ 53) with 9007199254740992. lia. }
    destruct Hsum as (b & Hb & Hdb). rewrite Hb.
    rewrite (floor_dyadic b k Hdb Hk), <- Hb.
    rewrite (ceil_dyadic (Zpos a - 2 ^ (k - 1)) k Hk)
      by (change (2 ^ 53) with 9007199254740992; lia).
    rewrite (half_down_test (Zpos a) k) by (assumption || lia).
    rewrite seq_ofZ.
    + rewrite Z.eqb_refl, (floor_dyadic a k ltac:(lia) Hk).
      rewrite mul_one_l; [reflexivity |].
      apply wellFormed_ofZ_nonneg, Hq.
    + rewrite <- (half_down_test (Zpos a) k) by (assumption || lia).
      split; [apply Z.div_pos; lia |].
      apply Z.div_lt_upper_bound; [lia |].
      change (2 ^ 53) with 9007199254740992. nia.
    + rewrite <- (half_down_test (Zpos a) k) by (assumption || lia).
      split; [apply Z.div_pos; lia |].
      apply Z.div_lt_upper_bound; [lia |].
      change (2 ^ 53) with 9007199254740992. nia.
Qed.

Lemma roundInteger_half_down_truncates_witness :
  roundInteger (instance (lit "0") HALF_DOWN) (dyadic 11 2)
  = Return (ofZ 2).
Proof.
  apply (roundInteger_half_down_truncates (instance (lit "0") HALF_DOWN) 11 2
           eq_refl);
    [split; [discriminate | discriminate]
    | split; [discriminate | reflexivity]
    | vm_compute; discriminate].
Defined.
